(** * Yu-Gi-Oh! deck bot: name scorer, deck markup parser, deck reconciler

    A shallow embedding of three functions of [yu-gi-oh.py]:
    - [get_card_suggestions] (the name scorer),
    - [parse_deck_list]      (the deck markup parser),
    - [save_deck_to_db]      (the deck reconciler, over a model of the
                              SQLite tables [decks] and [deck_cards]),
    together with the Python primitives they rely on.

    Python [str] values are modelled as [string]: a character is a code
    point below 256 (Latin-1), which is where [str.lower], [str.isspace]
    and the regular-expression classes have the closed forms used below. *)

From Stdlib Require Import ZArith Ascii String List Lia Bool Sorted.
From Stdlib Require Import DecimalString DecimalPos DecimalN DecimalZ.
From stdpp Require Import base decidable list strings gmap sorting.

Local Open Scope Z_scope.

(* ===================================================================== *)
(** * Python primitives *)
(* ===================================================================== *)

Module Py.

(** Exceptions that the modelled code can raise. *)
Inductive exn : Type :=
| IndexError
| ValueError
| OverflowError
| IntegrityError
| OperationalError.

(** The outcome of a call: a value, or a raised exception. *)
Inductive result (A : Type) : Type :=
| Returns (a : A)
| Raises (e : exn).
Arguments Returns {A} a.
Arguments Raises {A} e.

Definition code (c : ascii) : N := N_of_ascii c.

Definition between (lo hi n : N) : bool := ((lo <=? n) && (n <=? hi))%N.

(** [str.isspace] on one character, also the class [\s] of [re]. *)
Definition isspace (c : ascii) : bool :=
  let n := code c in
  between 9 13 n || between 28 32 n || (n =? 133)%N || (n =? 160)%N.

(** The class [\d] of [re]. *)
Definition isdigit (c : ascii) : bool := between 48 57 (code c).

(** [str.lower] on one character. *)
Definition lower_char (c : ascii) : ascii :=
  let n := code c in
  if between 65 90 n || (between 192 222 n && negb (n =? 215)%N)
  then ascii_of_N (n + 32) else c.

(** [str.lower] on a string of code points below 256. Beyond them
    [str.lower] can change the length of a string (U+0130 becomes two
    code points): a statement on the length of a lowered string is made
    under a condition on that length, never taken from this function. *)
Fixpoint lower (s : string) : string :=
  match s with
  | EmptyString => EmptyString
  | String c s' => String (lower_char c) (lower s')
  end.

(** [len(s)] *)
Definition len (s : string) : Z := Z.of_nat (String.length s).

(** [s.startswith(p)] *)
Fixpoint startswith (s p : string) : bool :=
  match p, s with
  | EmptyString, _ => true
  | String _ _, EmptyString => false
  | String a p', String b s' => if ascii_dec a b then startswith s' p' else false
  end.

(** [sub in s] for two strings. *)
Fixpoint contains (sub s : string) : bool :=
  startswith s sub ||
  match s with
  | EmptyString => false
  | String _ s' => contains sub s'
  end.

(** [x in l] for a list of strings. *)
Definition mem (x : string) (l : list string) : bool := bool_decide (x ∈ l).

(** [s.split()]: the maximal runs of non-whitespace characters. *)
Fixpoint split (s : string) : list string :=
  match s with
  | EmptyString => []
  | String c s' =>
      if isspace c then split s'
      else match s' with
           | EmptyString => [String c EmptyString]
           | String c' _ =>
               if isspace c' then String c EmptyString :: split s'
               else match split s' with
                    | w :: ws => String c w :: ws
                    | [] => [String c EmptyString]
                    end
           end
  end.

(** [s.lstrip()], [s.rstrip()], [s.strip()] *)
Fixpoint lstrip (s : string) : string :=
  match s with
  | EmptyString => EmptyString
  | String c s' => if isspace c then lstrip s' else s
  end.

Fixpoint rstrip (s : string) : string :=
  match s with
  | EmptyString => EmptyString
  | String c s' =>
      match rstrip s' with
      | EmptyString => if isspace c then EmptyString else String c EmptyString
      | r => String c r
      end
  end.

Definition strip (s : string) : string := rstrip (lstrip s).

(** The comparison [<] of [str]: lexicographic on code points. *)
Fixpoint str_lt (a b : string) : bool :=
  match a, b with
  | _, EmptyString => false
  | EmptyString, String _ _ => true
  | String x a', String y b' =>
      if (code x <? code y)%N then true
      else if (code x =? code y)%N then str_lt a' b'
      else false
  end.

(** The comparison [<] of tuples [(int, str)]. *)
Definition tuple_lt (a b : Z * string) : bool :=
  if a.1 =? b.1 then str_lt a.2 b.2 else a.1 <? b.1.

(** [l.sort(reverse=True)]: a stable sort into descending order. An
    element is placed in front of the first element that is not greater
    than it, so equal elements keep their order. *)
Fixpoint insert_desc (x : Z * string) (l : list (Z * string)) : list (Z * string) :=
  match l with
  | [] => [x]
  | y :: l' => if tuple_lt x y then y :: insert_desc x l' else x :: l
  end.

Definition sort_reverse (l : list (Z * string)) : list (Z * string) :=
  foldr insert_desc [] l.

(** Descending order: no element is below a later one. *)
Definition descending (l : list (Z * string)) : Prop :=
  StronglySorted (fun p q => tuple_lt p q = false) l.

(** [l[:n]] for an integer [n] of either sign. *)
Definition slice_to {A} (l : list A) (n : Z) : list A :=
  if n <? 0 then take (length l - Z.to_nat (- n))%nat l
  else take (Z.to_nat n) l.

End Py.

(* ===================================================================== *)
(** * The name scorer *)
(* ===================================================================== *)

Module Scorer.
Import Py.

(** [for word in search_words: if word in card_lower.split(): score += 50],
    as the sum that the loop adds to [score]. *)
Fixpoint word_bonus (search_words : list string) (card_words : list string) : Z :=
  match search_words with
  | [] => 0
  | word :: rest =>
      (if mem word card_words then 50 else 0) + word_bonus rest card_words
  end.

(** [all(word in card_lower for word in search_words)] *)
Definition all_words_present (search_words : list string) (card_lower : string) : bool :=
  forallb (fun word => contains word card_lower) search_words.

(** The score given to a candidate that passed the filter, when
    [search_words] starts with [first_word]. *)
Definition score_of (search_terms : string) (search_words : list string)
    (first_word : string) (card_lower : string) : Z :=
  let score := 0 in
  let score := score + 100 in
  let score := score + word_bonus search_words (split card_lower) in
  let score := if startswith card_lower first_word then score + 25 else score in
  let length_diff := Z.abs (len card_lower - len search_terms) in
  score - length_diff.

(** The body of the loop over [card_database.keys()], for one key.
    [search_words[0]] raises [IndexError] on an empty list. *)
Definition score_card (search_terms : string) (search_words : list string)
    (card_name : string) (scored_matches : list (Z * string))
  : result (list (Z * string)) :=
  let card_lower := lower card_name in
  if all_words_present search_words card_lower then
    match search_words with
    | [] => Raises IndexError
    | first_word :: _ =>
        Returns (scored_matches ++
                 [(score_of search_terms search_words first_word card_lower, card_name)])
    end
  else Returns scored_matches.

Fixpoint score_loop (search_terms : string) (search_words : list string)
    (keys : list string) (scored_matches : list (Z * string))
  : result (list (Z * string)) :=
  match keys with
  | [] => Returns scored_matches
  | card_name :: keys' =>
      match score_card search_terms search_words card_name scored_matches with
      | Returns scored_matches' =>
          score_loop search_terms search_words keys' scored_matches'
      | Raises e => Raises e
      end
  end.

(** [get_card_suggestions(search_terms, max_suggestions)], with the keys
    of the global [card_database] in iteration order as a parameter. *)
Definition get_card_suggestions (card_database : list string)
    (search_terms : string) (max_suggestions : Z) : result (list string) :=
  let search_words := split (lower search_terms) in
  match score_loop search_terms search_words card_database [] with
  | Returns scored_matches =>
      let scored_matches := sort_reverse scored_matches in
      Returns (map snd (slice_to scored_matches max_suggestions))
  | Raises e => Raises e
  end.

(** The score of a catalog name for a query with at least one word. *)
Definition score (search_terms card_name : string) : Z :=
  let search_words := split (lower search_terms) in
  score_of search_terms search_words (hd EmptyString search_words) (lower card_name).

(** Whether a catalog name passes the filter of a query. *)
Definition passes (search_terms card_name : string) : bool :=
  all_words_present (split (lower search_terms)) (lower card_name).

(** The list [scored_matches] after the loop, for a query with at least
    one word. *)
Definition scored (card_database : list string) (search_terms : string)
  : list (Z * string) :=
  map (fun card_name => (score search_terms card_name, card_name))
      (List.filter (passes search_terms) card_database).

(** The catalog names that pass the filter and that the sort places in
    front of [card_name]. *)
Definition ranked_above (card_database : list string) (search_terms card_name : string)
  : list string :=
  List.filter
    (fun other => passes search_terms other &&
                  tuple_lt (score search_terms card_name, card_name)
                           (score search_terms other, other))
    card_database.

(** Ties kept in catalog order: two returned names of equal score stand
    in the order in which the catalog lists them. *)
Definition ties_keep_catalog_order (card_database : list string)
    (search_terms : string) (max_suggestions : Z) : Prop :=
  forall names (i j i' j' : nat) a b,
    get_card_suggestions card_database search_terms max_suggestions = Returns names ->
    card_database !! i = Some a -> card_database !! j = Some b -> (i < j)%nat ->
    score search_terms a = score search_terms b ->
    names !! i' = Some a -> names !! j' = Some b ->
    (i' < j')%nat.

(** Exact-match dominance: a catalog name equal to the query but for
    case is among the names returned. *)
Definition exact_match_returned (card_database : list string)
    (search_terms : string) (max_suggestions : Z) : Prop :=
  forall card_name,
    card_name ∈ card_database ->
    lower card_name = lower search_terms ->
    1 <= max_suggestions ->
    exists names,
      get_card_suggestions card_database search_terms max_suggestions = Returns names
      /\ card_name ∈ names.

End Scorer.

(* ===================================================================== *)
(** * Regular expressions *)
(* ===================================================================== *)

(** The patterns of the source are few and small; they are written as
    syntax trees and run by derivatives. *)

Module Re.
Import Py.

Inductive regex : Type :=
| Void                       (* matches nothing *)
| Eps                        (* the empty string *)
| Chr (c : ascii)            (* a literal character *)
| Dot                        (* [.]: any character but a newline *)
| AnyChar                    (* any character *)
| Digit                      (* [\d] *)
| Space                      (* [\s] *)
| Seq (r1 r2 : regex)
| Alt (r1 r2 : regex)
| Star (r : regex).

Fixpoint Lit (s : string) : regex :=
  match s with
  | EmptyString => Eps
  | String c s' => Seq (Chr c) (Lit s')
  end.

Definition Plus (r : regex) : regex := Seq r (Star r).
Definition Opt (r : regex) : regex := Alt r Eps.

Definition newline : ascii := ascii_of_N 10.

Fixpoint nullable (r : regex) : bool :=
  match r with
  | Void | Chr _ | Dot | AnyChar | Digit | Space => false
  | Eps | Star _ => true
  | Seq r1 r2 => nullable r1 && nullable r2
  | Alt r1 r2 => nullable r1 || nullable r2
  end.

Definition seq (r1 r2 : regex) : regex :=
  match r1, r2 with
  | Void, _ | _, Void => Void
  | Eps, r | r, Eps => r
  | _, _ => Seq r1 r2
  end.

Definition alt (r1 r2 : regex) : regex :=
  match r1, r2 with
  | Void, r | r, Void => r
  | _, _ => Alt r1 r2
  end.

Definition of_bool (b : bool) : regex := if b then Eps else Void.

(** The derivative of [r] by the character [c]; with [ignorecase],
    literal characters are compared after lowering both. *)
Fixpoint deriv (ignorecase : bool) (c : ascii) (r : regex) : regex :=
  match r with
  | Void | Eps => Void
  | Chr a =>
      of_bool (if ignorecase
               then bool_decide (lower_char a = lower_char c)
               else bool_decide (a = c))
  | Dot => of_bool (negb (bool_decide (c = newline)))
  | AnyChar => Eps
  | Digit => of_bool (isdigit c)
  | Space => of_bool (isspace c)
  | Seq r1 r2 =>
      if nullable r1
      then alt (seq (deriv ignorecase c r1) r2) (deriv ignorecase c r2)
      else seq (deriv ignorecase c r1) r2
  | Alt r1 r2 => alt (deriv ignorecase c r1) (deriv ignorecase c r2)
  | Star r1 => seq (deriv ignorecase c r1) (Star r1)
  end.

Fixpoint fullmatch (ignorecase : bool) (r : regex) (s : string) : bool :=
  match s with
  | EmptyString => nullable r
  | String c s' => fullmatch ignorecase (deriv ignorecase c r) s'
  end.

(** A compiled pattern: [re.compile(p, flags)]. [anchored] says that
    the pattern is written [^...$]. *)
Record pattern : Type := Compile {
  body : regex;
  anchored : bool;
  ignorecase : bool
}.

(** [bool(p.search(s))]. An unanchored pattern matches some substring;
    [$] also matches in front of a final newline. *)
Definition search (p : pattern) (s : string) : bool :=
  if anchored p
  then fullmatch (ignorecase p) (Seq (body p) (Opt (Chr newline))) s
  else fullmatch (ignorecase p) (Seq (Star AnyChar) (Seq (body p) (Star AnyChar))) s.

(** The patterns of [parse_deck_list], in the order of the source. *)

(** [re.compile(r'deck.*part|deck-section', re.I)] *)
Definition deck_part_re : pattern :=
  Compile (Alt (Seq (Lit "deck") (Seq (Star Dot) (Lit "part"))) (Lit "deck-section"))
          false true.

(** [re.compile(r'card|card-item')] *)
Definition card_re : pattern :=
  Compile (Alt (Lit "card") (Lit "card-item")) false false.

(** [re.compile(r'^\d+x?$')] *)
Definition quantity_string_re : pattern :=
  Compile (Seq (Plus Digit) (Opt (Chr "x"))) true false.

(** [re.compile(r'deck.*table|card.*table')] *)
Definition table_re : pattern :=
  Compile (Alt (Seq (Lit "deck") (Seq (Star Dot) (Lit "table")))
               (Seq (Lit "card") (Seq (Star Dot) (Lit "table"))))
          false false.

(** [re.compile(r'Extra Deck', re.I)] *)
Definition extra_deck_re : pattern :=
  Compile (Lit "Extra Deck") false true.

(** [re.compile(r'name|card')] *)
Definition name_cell_re : pattern :=
  Compile (Alt (Lit "name") (Lit "card")) false false.

(** [re.compile(r'count|quantity')] *)
Definition count_cell_re : pattern :=
  Compile (Alt (Lit "count") (Lit "quantity")) false false.

(** [re.compile(r'deck.*list|card.*list')] *)
Definition text_container_re : pattern :=
  Compile (Alt (Seq (Lit "deck") (Seq (Star Dot) (Lit "list")))
               (Seq (Lit "card") (Seq (Star Dot) (Lit "list"))))
          false false.

(** [r'Extra Deck|Extra:'] with [re.I] *)
Definition extra_marker_re : pattern :=
  Compile (Alt (Lit "Extra Deck") (Lit "Extra:")) false true.

(** [r'^\s*(\d+)x?\s+(.+)$'], without its groups *)
Definition deck_line_re : pattern :=
  Compile (Seq (Star Space)
             (Seq (Plus Digit) (Seq (Opt (Chr "x")) (Seq (Plus Space) (Plus Dot)))))
          true false.

(** Patterns whose groups are read are run by hand. *)

(** The longest prefix of digits, and what follows it. *)
Fixpoint span_digits (s : string) : string * string :=
  match s with
  | EmptyString => (EmptyString, EmptyString)
  | String c s' =>
      if isdigit c
      then let '(d, rest) := span_digits s' in (String c d, rest)
      else (EmptyString, s)
  end.

(** [re.search(r'\d+', s)]: [group(0)] of the leftmost match, which is
    the first maximal run of digits. *)
Fixpoint search_digits (s : string) : option string :=
  match s with
  | EmptyString => None
  | String c s' =>
      if isdigit c then Some (span_digits s).1 else search_digits s'
  end.

(** [re.match(r'^\s*(\d+)x?\s+(.+)$', line)] on a line without a
    newline: [(group(1), group(2))]. The greedy [\s+] takes the whole
    run of whitespace; when nothing follows the run, it gives its last
    character back to [.+]. *)
Definition last_char (s : string) : option ascii :=
  match String.rev s with
  | EmptyString => None
  | String c _ => Some c
  end.

Definition match_deck_line (line : string) : option (string * string) :=
  let '(digits, rest) := span_digits (lstrip line) in
  match digits with
  | EmptyString => None
  | String _ _ =>
      let rest := match rest with
                  | String c rest' => if bool_decide (c = "x"%char) then rest' else rest
                  | EmptyString => rest
                  end in
      match rest with
      | EmptyString => None
      | String c spaces =>
          if isspace c then
            match lstrip spaces with
            | String c' tail => Some (digits, String c' tail)
            | EmptyString =>
                match last_char spaces with
                | Some c' => Some (digits, String c' EmptyString)
                | None => None
                end
            end
          else None
      end
  end.

End Re.

(* ===================================================================== *)
(** * The document abstraction *)
(* ===================================================================== *)

(** [parse_deck_list] reads its document through four calls of the
    BeautifulSoup interface; they are the methods of a class so that the
    parser is stated once for every document type. On a parsed document
    the four calls raise nothing: a search without a match answers [None]
    or the empty list, and a tag without text has the empty text. *)

Module Soup.

(** The [class_] argument of [find] and [find_all]. *)
Inductive class_filter : Type :=
| AnyClass                       (* no [class_] argument *)
| ClassIs (c : string)           (* [class_='header'] *)
| ClassRe (p : Re.pattern).      (* [class_=re.compile(...)] *)

Class Document (tag : Type) : Type := {
  (** [t.find(names, class_=...)]: a tag or [None] *)
  find : tag -> list string -> class_filter -> option tag;
  (** [t.find_all(names, class_=...)] *)
  find_all : tag -> list string -> class_filter -> list tag;
  (** [t.find(string=p)]: a text node or [None] *)
  find_string : tag -> Re.pattern -> option string;
  (** [t.get_text(separator=sep, strip=b)] *)
  get_text : tag -> string -> bool -> string
}.

End Soup.

(* ===================================================================== *)
(** * The deck markup parser *)
(* ===================================================================== *)

Module Parser.
Import Py Soup.

(** [{'name': ..., 'count': ...}] *)
Record card : Type := Card {
  name : string;
  count : Z
}.

(** The dictionary [deck_info]. [deck_name] is its key ['name']; it and
    ['author'] may hold [None] in the importers. *)
Record deck_info : Type := DeckInfo {
  deck_name : option string;
  author : option string;
  main_deck : list card;
  extra_deck : list card;
  url : string
}.

Definition set_deck_name (v : string) (d : deck_info) : deck_info :=
  DeckInfo (Some v) (author d) (main_deck d) (extra_deck d) (url d).
Definition set_author (v : string) (d : deck_info) : deck_info :=
  DeckInfo (deck_name d) (Some v) (main_deck d) (extra_deck d) (url d).
Definition set_main_deck (v : list card) (d : deck_info) : deck_info :=
  DeckInfo (deck_name d) (author d) v (extra_deck d) (url d).
Definition set_extra_deck (v : list card) (d : deck_info) : deck_info :=
  DeckInfo (deck_name d) (author d) (main_deck d) v (url d).

(** [target_list = deck_info['extra_deck'] if is_extra else
    deck_info['main_deck']; target_list.append(entry)] *)
Definition append_card (is_extra : bool) (entry : card) (d : deck_info) : deck_info :=
  if is_extra then set_extra_deck (extra_deck d ++ [entry]) d
  else set_main_deck (main_deck d ++ [entry]) d.

(** Truth of a [str]. *)
Definition nonempty (s : string) : bool :=
  match s with EmptyString => false | String _ _ => true end.

(** [int(s)] on a string of decimal digits; CPython raises
    [ValueError] beyond 4300 digits. *)
Definition digit_value (c : ascii) : Z := Z.of_N (code c) - 48.

Fixpoint int_digits (acc : Z) (s : string) : Z :=
  match s with
  | EmptyString => acc
  | String c s' => int_digits (10 * acc + digit_value c) s'
  end.

Definition int_max_str_digits : nat := 4300.

Definition int (s : string) : result Z :=
  if (int_max_str_digits <? String.length s)%nat then Raises ValueError
  else Returns (int_digits 0 s).

(** [s.splitlines()] *)
Definition is_linebreak (c : ascii) : bool :=
  let n := code c in between 10 13 n || between 28 30 n || (n =? 133)%N.

Fixpoint splitlines (s : string) : list string :=
  match s with
  | EmptyString => []
  | String c s' =>
      let crlf := match s' with
                  | String c' _ => bool_decide (code c = 13%N) && bool_decide (code c' = 10%N)
                  | EmptyString => false
                  end in
      if crlf then splitlines s'
      else if is_linebreak c then EmptyString :: splitlines s'
      else match splitlines s' with
           | l :: ls => String c l :: ls
           | [] => [String c EmptyString]
           end
  end.

Definition CR : string := String (ascii_of_N 13) EmptyString.
Definition LF : string := String (ascii_of_N 10) EmptyString.

(** [a or b] on two results of [find]. A tag is always true. *)
Definition or_else {A} (a b : option A) : option A :=
  match a with Some _ => a | None => b end.

Section WithDocument.
Context {tag : Type} `{Document tag}.

(** The loops over candidate elements for the name and the author:
    the first element whose stripped text is non-empty and not in
    [rejected] gives the value. *)
Fixpoint first_label (elements : list (option tag)) (rejected : list string)
  : option string :=
  match elements with
  | [] => None
  | None :: rest => first_label rest rejected
  | Some element :: rest =>
      let text := get_text element EmptyString true in
      if nonempty text && negb (mem (lower text) rejected)
      then Some text
      else first_label rest rejected
  end.

Definition extract_name (soup : tag) (d : deck_info) : deck_info :=
  match first_label
          [ find soup ["h1"] (ClassIs "deck-title");
            find soup ["h1"] (ClassIs "title");
            find soup ["div"] (ClassIs "deck-name");
            find soup ["h1"] AnyClass;
            find soup ["title"] AnyClass ]
          ["master duel"; "deck builder"; "deck list"] with
  | Some name_text => set_deck_name name_text d
  | None => d
  end.

Definition extract_author (soup : tag) (d : deck_info) : deck_info :=
  match first_label
          [ find soup ["span"] (ClassIs "username");
            find soup ["div"] (ClassIs "author");
            find soup ["div"] (ClassIs "player-name");
            find soup ["a"] (ClassIs "author-link") ]
          ["unknown"; "anonymous"] with
  | Some author_text => set_author author_text d
  | None => d
  end.

(** [card_count] from a [count_text]: the first run of digits, or the
    default 1 when there is none or [int] raises [ValueError]. *)
Definition count_of_text (count_text : string) : Z :=
  match Re.search_digits count_text with
  | Some digits =>
      match int digits with
      | Returns n => n
      | Raises _ => 1
      end
  | None => 1
  end.

(** What [count_element] can be: a tag, or a text node. *)
Inductive element : Type :=
| ETag (t : tag)
| EString (s : string).

Definition truthy (e : element) : bool :=
  match e with ETag _ => true | EString s => nonempty s end.

(** Strategy 1, one card element. *)
Definition parse_card_element (section_name : string) (card : tag)
    (d : deck_info) : deck_info :=
  let name_element :=
    or_else (find card ["span"; "div"] (ClassIs "name"))
      (or_else (find card ["span"; "div"] (ClassIs "card-name"))
         (find card ["a"] AnyClass)) in
  let count_element :=
    or_else (ETag <$> find card ["span"; "div"] (ClassIs "quantity"))
      (or_else (ETag <$> find card ["span"; "div"] (ClassIs "count"))
         (EString <$> find_string card Re.quantity_string_re)) in
  match name_element with
  | Some name_element =>
      let card_name := get_text name_element EmptyString true in
      let card_count :=
        match count_element with
        | Some e =>
            if truthy e then
              let count_text :=
                match e with
                | ETag t => get_text t EmptyString true
                | EString s => strip s
                end in
              count_of_text count_text
            else 1
        | None => 1
        end in
      append_card (contains "extra" section_name) (Card card_name card_count) d
  | None => d
  end.

(** Strategy 1, one deck part. The state is [deck_info] and the flag
    [parsed_cards]. *)
Definition parse_deck_part (part : tag) (st : deck_info * bool) : deck_info * bool :=
  let header :=
    or_else (find part ["div"; "h3"; "h4"] (ClassIs "header"))
            (find part ["div"; "h3"; "h4"] AnyClass) in
  match header with
  | Some header =>
      let section_name := lower (get_text header EmptyString true) in
      let cards := find_all part ["div"; "span"] (ClassRe Re.card_re) in
      match cards with
      | [] => st
      | _ :: _ =>
          (foldl (fun d card => parse_card_element section_name card d) st.1 cards,
           true)
      end
  | None => st
  end.

Definition strategy_sections (soup : tag) (st : deck_info * bool) : deck_info * bool :=
  let deck_parts := find_all soup ["div"; "section"] (ClassRe Re.deck_part_re) in
  foldl (fun st part => parse_deck_part part st) st deck_parts.

(** Strategy 2, one row of a table. *)
Definition parse_table_row (is_extra : bool) (row : tag)
    (st : deck_info * bool) : deck_info * bool :=
  let name_cell := find row ["td"; "th"] (ClassRe Re.name_cell_re) in
  let count_cell := find row ["td"; "th"] (ClassRe Re.count_cell_re) in
  match name_cell with
  | Some name_cell =>
      let card_name := get_text name_cell EmptyString true in
      let card_count :=
        match count_cell with
        | Some count_cell => count_of_text (get_text count_cell EmptyString true)
        | None => 1
        end in
      (append_card is_extra (Card card_name card_count) st.1, true)
  | None => st
  end.

Definition parse_table (table : tag) (st : deck_info * bool) : deck_info * bool :=
  let is_extra :=
    match find_string table Re.extra_deck_re with
    | Some s => nonempty s
    | None => false
    end in
  let rows := find_all table ["tr"] AnyClass in
  foldl (fun st row => parse_table_row is_extra row st) st rows.

Definition strategy_tables (soup : tag) (st : deck_info * bool) : deck_info * bool :=
  if negb st.2 then
    let tables := find_all soup ["table"] (ClassRe Re.table_re) in
    foldl (fun st table => parse_table table st) st tables
  else st.

(** Strategy 3, one line of a text container. A line whose count
    makes [int] raise is skipped. *)
Definition parse_text_line (is_extra : bool) (line : string)
    (st : deck_info * bool) : deck_info * bool :=
  match Re.match_deck_line line with
  | Some (group1, group2) =>
      match int group1 with
      | Returns count =>
          let name := strip group2 in
          (append_card is_extra (Card name count) st.1, true)
      | Raises _ => st
      end
  | None => st
  end.

Definition newline_string : string := String Re.newline EmptyString.

Definition parse_text_container (container : tag)
    (st : deck_info * bool) : deck_info * bool :=
  let text_content := strip (get_text container newline_string false) in
  let is_extra := Re.search Re.extra_marker_re text_content in
  foldl (fun st line => parse_text_line is_extra line st) st (splitlines text_content).

Definition strategy_text (soup : tag) (st : deck_info * bool) : deck_info * bool :=
  if negb st.2 then
    let text_containers :=
      find_all soup ["div"; "pre"; "code"] (ClassRe Re.text_container_re) in
    foldl (fun st container => parse_text_container container st) st text_containers
  else st.

(** The clean-up loop of one section. *)
Fixpoint cleanup_loop (cards : list card) (seen : gset string) (cleaned : list card)
  : list card :=
  match cards with
  | [] => cleaned
  | card :: rest =>
      if decide (name card ∈ seen) then cleanup_loop rest seen cleaned
      else cleanup_loop rest ({[name card]} ∪ seen) (cleaned ++ [card])
  end.

Definition cleanup_section (cards : list card) : list card :=
  cleanup_loop cards ∅ [].

Definition cleanup (d : deck_info) : deck_info :=
  let d := set_main_deck (cleanup_section (main_deck d)) d in
  set_extra_deck (cleanup_section (extra_deck d)) d.

(** The sections as the three strategies leave them, before the
    clean-up. *)
Definition extract (soup : tag) (url : string) : deck_info :=
  let deck_info := DeckInfo (Some EmptyString) (Some EmptyString) [] [] url in
  let deck_info := extract_name soup deck_info in
  let deck_info := extract_author soup deck_info in
  let parsed_cards := false in
  let st := strategy_sections soup (deck_info, parsed_cards) in
  let st := strategy_tables soup st in
  let st := strategy_text soup st in
  st.1.

(** [parse_deck_list(soup, url)]. No step of the body raises past its
    own handler, so the outer handler is never entered. *)
Definition parse_deck_list (soup : tag) (url : string) : deck_info :=
  cleanup (extract soup url).

(** ** The text strategy, block by block *)

(** The card that a line stands for, if it stands for one. *)
Definition line_entry (line : string) : option card :=
  match Re.match_deck_line line with
  | Some (group1, group2) =>
      match int group1 with
      | Returns count => Some (Card (strip group2) count)
      | Raises _ => None
      end
  | None => None
  end.






(** The containers that the text strategy reads. *)
Definition text_containers (soup : tag) : list tag :=
  find_all soup ["div"; "pre"; "code"] (ClassRe Re.text_container_re).


End WithDocument.



(** The clean-up loop without its accumulator: the cards that it adds
    to [cleaned]. *)
Fixpoint dedup (seen : gset string) (cards : list card) : list card :=
  match cards with
  | [] => []
  | card :: rest =>
      if decide (name card ∈ seen) then dedup seen rest
      else card :: dedup ({[name card]} ∪ seen) rest
  end.

(** The first entry of a section with a given name. *)
Definition lookup_name (n : string) (cards : list card) : option card :=
  List.find (fun c => bool_decide (name c = n)) cards.


End Parser.

(* ===================================================================== *)
(** * A document type *)
(* ===================================================================== *)

(** Parsed markup as a tree of tags and text nodes, with the searches of
    BeautifulSoup over it. *)

Module Dom.
Import Py Soup.

#[local] Set Warnings "-register-all".

Inductive node : Type :=
| Tag (tag_name : string) (class : option (list string)) (children : list node)
| Text (s : string).

(** The descendants of a node, in document order. *)
Fixpoint descendants (n : node) : list node :=
  match n with
  | Tag _ _ children => flat_map (fun c => c :: descendants c) children
  | Text _ => []
  end.

Definition join (sep : string) (l : list string) : string := String.concat sep l.

(** A [class] attribute is a list of values: a filter accepts it when it
    accepts one value, or the values joined by spaces. A tag without
    the attribute passes no filter on it. *)
Definition class_matches (f : class_filter) (class : option (list string)) : bool :=
  match f, class with
  | AnyClass, _ => true
  | _, None => false
  | ClassIs c, Some values =>
      existsb (fun v => bool_decide (v = c)) values || bool_decide (join " " values = c)
  | ClassRe p, Some values =>
      existsb (Re.search p) values || Re.search p (join " " values)
  end.

Definition tag_matches (names : list string) (f : class_filter) (n : node) : bool :=
  match n with
  | Tag tag_name class _ => mem tag_name names && class_matches f class
  | Text _ => false
  end.

Definition dom_find_all (n : node) (names : list string) (f : class_filter) : list node :=
  List.filter (tag_matches names f) (descendants n).

Definition dom_find (n : node) (names : list string) (f : class_filter) : option node :=
  head (dom_find_all n names f).

Definition text_of (n : node) : option string :=
  match n with Text s => Some s | Tag _ _ _ => None end.

Definition strings (n : node) : list string :=
  match n with
  | Text s => [s]
  | Tag _ _ _ => omap text_of (descendants n)
  end.

Definition dom_find_string (n : node) (p : Re.pattern) : option string :=
  head (List.filter (Re.search p) (omap text_of (descendants n))).

Definition dom_get_text (n : node) (separator : string) (strip_each : bool) : string :=
  join separator
    (if strip_each
     then List.filter Parser.nonempty (map strip (strings n))
     else strings n).

#[export] Instance dom_document : Document node := {
  find := dom_find;
  find_all := dom_find_all;
  find_string := dom_find_string;
  get_text := dom_get_text
}.



(** A page with one table that lists both sections: a heading row and
    two card rows, the second with a count cell. *)
Definition table_page : node :=
  Tag "[document]" None
    [Tag "table" (Some ["deck-table"])
       [Tag "tr" None [Tag "th" (Some ["card-name"]) [Text "Extra Deck"]];
        Tag "tr" None [Tag "td" (Some ["card-name"]) [Text "Accesscode Talker"]];
        Tag "tr" None [Tag "td" (Some ["card-name"]) [Text "Ash Blossom"];
                       Tag "td" (Some ["count"]) [Text "x3"]]]].

(** A page with no markup at all. *)
Definition garbage_page : node :=
  Tag "[document]" None [Text "404 not found"].

End Dom.

(* ===================================================================== *)
(** * The deck reconciler *)
(* ===================================================================== *)

Module Store.
Import Py.

(** A row of [decks]. Time stamps are seconds on some clock. *)
Record deck_row : Type := DeckRow {
  id : Z;
  name : string;
  author : option string;
  url : string;
  created_at : Z;
  last_updated : Z
}.

(** A row of [deck_cards]. *)
Record deck_card_row : Type := DeckCardRow {
  deck_id : Z;
  card_name : string;
  is_extra_deck : bool;
  quantity : Z
}.

(** The two tables, and the entry of [sqlite_sequence] that
    [AUTOINCREMENT] keeps for [decks]. *)
Record db : Type := Db {
  decks : list deck_row;
  deck_cards : list deck_card_row;
  decks_seq : Z
}.

(** ** Statements *)

(** [SELECT id FROM decks WHERE url = ?], then [fetchone()] *)
Definition select_deck_id (u : string) (d : db) : option Z :=
  id <$> head (List.filter (fun r => bool_decide (url r = u)) (decks d)).

(** [UPDATE decks SET name = ?, author = ?, last_updated =
    CURRENT_TIMESTAMP WHERE id = ?]; [name] is [NOT NULL]. *)
Definition update_deck (now : Z) (new_name new_author : option string) (i : Z) (d : db)
  : result db :=
  match new_name with
  | Some n =>
      Returns
        (Db (map (fun r => if bool_decide (id r = i)
                           then DeckRow (id r) n new_author (url r) (created_at r) now
                           else r) (decks d))
            (deck_cards d) (decks_seq d))
  | None =>
      if existsb (fun r => bool_decide (id r = i)) (decks d)
      then Raises IntegrityError
      else Returns d
  end.

(** [DELETE FROM deck_cards WHERE deck_id = ?] *)
Definition delete_deck_cards (i : Z) (d : db) : db :=
  Db (decks d)
     (List.filter (fun r => negb (bool_decide (deck_id r = i))) (deck_cards d))
     (decks_seq d).

(** [DELETE FROM decks WHERE last_updated < datetime('now', ?)], the
    statement of [cleanup_old_decks], with the cut-off as a time stamp.
    No connection turns [PRAGMA foreign_keys] on, so the association
    rows of a deleted deck stay in [deck_cards]. *)
Definition delete_old_decks (cutoff : Z) (d : db) : db :=
  Db (List.filter (fun r => negb (last_updated r <? cutoff)) (decks d))
     (deck_cards d) (decks_seq d).

Definition max_id (rows : list deck_row) : Z :=
  foldr (fun r m => Z.max (id r) m) 0 rows.

(** [INSERT INTO decks (name, author, url) VALUES (?, ?, ?)], then
    [cursor.lastrowid]. [name] is [NOT NULL], [url] is [UNIQUE], and the
    new [id] is one more than the largest ever used. *)
Definition insert_deck (now : Z) (new_name new_author : option string) (u : string) (d : db)
  : result (Z * db) :=
  match new_name with
  | None => Raises IntegrityError
  | Some n =>
      if existsb (fun r => bool_decide (url r = u)) (decks d)
      then Raises IntegrityError
      else
        let i := Z.max (decks_seq d) (max_id (decks d)) + 1 in
        Returns (i, Db (decks d ++ [DeckRow i n new_author u now now]) (deck_cards d) i)
  end.

(** [INSERT INTO deck_cards (deck_id, card_name, is_extra_deck,
    quantity) VALUES (?, ?, e, ?)]. The primary key is [(deck_id,
    card_name)]; an integer outside 64 bits cannot be bound. *)
Definition insert_deck_card (i : Z) (n : string) (e : bool) (q : Z) (d : db) : result db :=
  if negb ((- 2 ^ 63 <=? q) && (q <? 2 ^ 63)) then Raises OverflowError
  else if existsb (fun r => bool_decide (deck_id r = i) && bool_decide (card_name r = n))
                  (deck_cards d)
  then Raises IntegrityError
  else Returns (Db (decks d) (deck_cards d ++ [DeckCardRow i n e q]) (decks_seq d)).

(** ** Connections *)

(** A run of [save_deck_to_db] carries the number of storage calls made
    so far and the tables as the open transaction sees them. Any call
    can fail in the storage layer: [faults k] is the error of the
    [k]-th call, if it has one. *)
Definition M (A : Type) : Type := nat * db -> result (A * (nat * db)).

Definition ret {A} (a : A) : M A := fun st => Returns (a, st).

Definition bind {A B} (m : M A) (f : A -> M B) : M B :=
  fun st =>
    match m st with
    | Returns (a, st') => f a st'
    | Raises e => Raises e
    end.

Notation "'let*' x ':=' m 'in' k" := (bind m (fun x => k))
  (at level 10, x name, m at level 100, k at level 200).

Section WithFaults.
Variable faults : nat -> option exn.

(** One storage call. *)
Definition execute {A} (stmt : db -> result (A * db)) : M A :=
  fun '(k, d) =>
    match faults k with
    | Some e => Raises e
    | None =>
        match stmt d with
        | Returns (a, d') => Returns (a, (S k, d'))
        | Raises e => Raises e
        end
    end.

Definition query {A} (q : db -> A) : db -> result (A * db) :=
  fun d => Returns (q d, d).

Definition update (u : db -> result db) : db -> result (unit * db) :=
  fun d => match u d with
           | Returns d' => Returns (tt, d')
           | Raises e => Raises e
           end.

(** [for card in cards: cursor.execute(INSERT INTO deck_cards ...)] *)
Fixpoint insert_cards (i : Z) (e : bool) (cards : list Parser.card) : M unit :=
  match cards with
  | [] => ret tt
  | card :: rest =>
      let* _ := execute (update (insert_deck_card i (Parser.name card) e
                                                  (Parser.count card))) in
      insert_cards i e rest
  end.

(** [sqlite3.connect] and [conn.commit]: calls that change no row. *)
Definition connect : M unit := execute (query (fun _ => tt)).
Definition commit : M unit := execute (query (fun _ => tt)).

(** The body of the [with sqlite3.connect(DB_PATH) as conn:] block,
    from [connect] to [return True]. *)
Definition save_body (now : Z) (deck_info : Parser.deck_info) : M bool :=
  let* _ := connect in
  let* existing_deck := execute (query (select_deck_id (Parser.url deck_info))) in
  let* deck_id :=
    match existing_deck with
    | Some deck_id =>
        let* _ := execute (update (update_deck now (Parser.deck_name deck_info)
                                               (Parser.author deck_info) deck_id)) in
        let* _ := execute (update (fun d => Returns (delete_deck_cards deck_id d))) in
        ret deck_id
    | None =>
        execute (insert_deck now (Parser.deck_name deck_info)
                             (Parser.author deck_info) (Parser.url deck_info))
    end in
  let* _ := insert_cards deck_id false (Parser.main_deck deck_info) in
  let* _ := insert_cards deck_id true (Parser.extra_deck deck_info) in
  let* _ := commit in
  ret true.

(** [save_deck_to_db(deck_info)] on the stored tables [d]: the result
    and the tables afterwards. An exception leaves the [with] block
    through a rollback and is turned into [False]. *)
Definition save_deck_to_db (now : Z) (deck_info : Parser.deck_info) (d : db)
  : bool * db :=
  match save_body now deck_info (0%nat, d) with
  | Returns (b, (_, d')) => (b, d')
  | Raises _ => (false, d)
  end.

End WithFaults.

(** A storage layer that never fails on its own. *)
Definition no_faults : nat -> option exn := fun _ => None.

(** The number of storage calls of a run that nothing interrupts. *)
Definition storage_calls (deck_info : Parser.deck_info) (d : db) : nat :=
  (2 + match select_deck_id (Parser.url deck_info) d with Some _ => 2 | None => 1 end
   + length (Parser.main_deck deck_info)
   + length (Parser.extra_deck deck_info) + 1)%nat.

(** The association rows that a deck record stands for. *)
Definition card_row (i : Z) (e : bool) (c : Parser.card) : deck_card_row :=
  DeckCardRow i (Parser.name c) e (Parser.count c).

Definition rows_of (i : Z) (deck_info : Parser.deck_info) : list deck_card_row :=
  map (card_row i false) (Parser.main_deck deck_info)
  ++ map (card_row i true) (Parser.extra_deck deck_info).

(** The tables once the row of the deck is written and its old
    association rows are gone: [i] is the id of the deck and [d1] the
    tables in front of the two insertion loops. *)
Definition prepared (now : Z) (deck_info : Parser.deck_info) (d : db)
    (i : Z) (d1 : db) : Prop :=
  match select_deck_id (Parser.url deck_info) d with
  | Some existing =>
      i = existing
      /\ exists d0,
           update_deck now (Parser.deck_name deck_info) (Parser.author deck_info)
                       existing d = Returns d0
           /\ d1 = delete_deck_cards existing d0
  | None =>
      insert_deck now (Parser.deck_name deck_info) (Parser.author deck_info)
                  (Parser.url deck_info) d = Returns (i, d1)
  end.

(** The cards of both sections, in the order of insertion. *)
Definition all_cards (deck_info : Parser.deck_info) : list Parser.card :=
  Parser.main_deck deck_info ++ Parser.extra_deck deck_info.

(** What a run needs of the cards to insert them all after [d1]. *)
Definition insertable (i : Z) (deck_info : Parser.deck_info) (d1 : db) : Prop :=
  (forall c r, c ∈ all_cards deck_info -> r ∈ deck_cards d1 ->
               ~ (deck_id r = i /\ card_name r = Parser.name c))
  /\ NoDup (map Parser.name (all_cards deck_info))
  /\ (forall c, c ∈ all_cards deck_info -> - 2 ^ 63 <= Parser.count c < 2 ^ 63).

(** The stored association rows of the deck with a given url. *)
Definition associations (d : db) (u : string) : list deck_card_row :=
  match select_deck_id u d with
  | Some i => List.filter (fun r => bool_decide (deck_id r = i)) (deck_cards d)
  | None => []
  end.

(** What the schema and the program keep true of the tables: keys are
    unique, and no row carries an id that [AUTOINCREMENT] has yet to
    hand out. *)
Record wf (d : db) : Prop := {
  wf_ids : NoDup (map id (decks d));
  wf_urls : NoDup (map url (decks d));
  wf_keys : NoDup (map (fun r => (deck_id r, card_name r)) (deck_cards d));
  wf_deck_seq : Forall (fun r => id r <= decks_seq d) (decks d);
  wf_card_seq : Forall (fun r => deck_id r <= decks_seq d) (deck_cards d)
}.

Definition empty_db : db := Db [] [] 0.

(** Records used in the examples. *)
Definition sample_deck : Parser.deck_info :=
  Parser.DeckInfo (Some "Branded Despia") None
    [Parser.Card "Aluber the Jester of Despia" 3; Parser.Card "Branded Fusion" 3]
    [Parser.Card "Mirrorjade the Iceblade Dragon" 1]
    "https://www.masterduelmeta.com/top-decks/branded-despia".

Definition sample_deck_later : Parser.deck_info :=
  Parser.DeckInfo (Some "Branded Despia") None
    [Parser.Card "Aluber the Jester of Despia" 3]
    [Parser.Card "Mirrorjade the Iceblade Dragon" 2]
    "https://www.masterduelmeta.com/top-decks/branded-despia".

Definition clash_deck : Parser.deck_info :=
  Parser.DeckInfo (Some "Clash") None
    [Parser.Card "Ash Blossom" 3]
    [Parser.Card "Accesscode Talker" 1; Parser.Card "Ash Blossom" 1]
    "https://www.masterduelmeta.com/top-decks/clash".

(** The tables after the first import of [sample_deck]. *)
Definition stored_sample : db :=
  (save_deck_to_db no_faults 100 sample_deck empty_db).2.

(** The storage layer failing once, at the call of index [k]. *)
Definition fault_at (k : nat) : nat -> option exn :=
  fun j => if bool_decide (j = k) then Some OperationalError else None.

End Store.

(* ===================================================================== *)
(** * The commands that call the scorer *)
(* ===================================================================== *)

Module Commands.
Import Py Scorer.

(** [s[:n]] for a string and [n >= 0]. *)
Fixpoint str_take (n : nat) (s : string) : string :=
  match n, s with
  | S n', String c s' => String c (str_take n' s')
  | _, _ => EmptyString
  end.

(** [app_commands.Choice(name=..., value=...)] *)
Record choice : Type := Choice {
  choice_name : string;
  choice_value : string
}.

(** [card_name_autocomplete(interaction, current)], with the keys of
    [card_database] as a parameter. *)
Definition card_name_autocomplete (card_database : list string) (current : string)
  : result (list choice) :=
  let suggestions :=
    if negb (Parser.nonempty current)
    then Returns (slice_to card_database 25)
    else get_card_suggestions card_database current 25 in
  match suggestions with
  | Returns suggestions =>
      Returns (map (fun card_name =>
                      Choice (str_take 100 card_name) (str_take 100 card_name))
                   suggestions)
  | Raises e => Raises e
  end.

(** What [search_card] has decided when it stops or turns to the card
    data: the message it sends, or the name it has matched. *)
Inductive card_outcome : Type :=
| NotLoaded                          (* "Card database is not loaded." *)
| NoCardsFound                       (* "No cards found matching ..." *)
| Suggestions (l : list string)      (* the embed "Multiple cards found" *)
| Matched (matched_name : string).   (* goes on to [card_database.get] *)

(** [for s in suggestions: if s.lower() == name.lower(): matched_name = s;
    break] *)
Fixpoint find_exact (name : string) (suggestions : list string) : option string :=
  match suggestions with
  | [] => None
  | s :: rest =>
      if bool_decide (lower s = lower name) then Some s else find_exact name rest
  end.

(** Truth of [matched_name], which is [None] or a string. *)
Definition truthy_name (matched_name : option string) : bool :=
  match matched_name with
  | Some s => Parser.nonempty s
  | None => false
  end.

(** [search_card(interaction, name)], from the test of [card_database] to
    the choice of [matched_name]. *)
Definition search_card (card_database : list string) (name : string)
  : result card_outcome :=
  match card_database with
  | [] => Returns NotLoaded
  | _ :: _ =>
      match get_card_suggestions card_database name 5 with
      | Raises e => Raises e
      | Returns suggestions =>
          match suggestions with
          | [] => Returns NoCardsFound
          | first :: others =>
              let matched_name := find_exact name suggestions in
              if truthy_name matched_name
              then Returns (Matched (default EmptyString matched_name))
              else match others with
                   | [] => Returns (Matched first)
                   | _ :: _ => Returns (Suggestions suggestions)
                   end
          end
      end
  end.

(** [sorted(l)] for a list of strings. *)
Fixpoint insert_sorted (x : string) (l : list string) : list string :=
  match l with
  | [] => [x]
  | y :: l' => if str_lt x y then x :: l else y :: insert_sorted x l'
  end.

Definition sorted (l : list string) : list string := foldr insert_sorted [] l.

(** What [search_decks] has decided when it turns to the stored decks. *)
Inductive deck_search_outcome : Type :=
| DecksNotLoaded                     (* "Card database is not loaded." *)
| CardNotFound                       (* "Card ... not found." *)
| BestMatch (matched_card_name : string).

(** [search_decks(interaction, card_name)], from the test of
    [card_database] to [matched_card_name = matches[0]]. *)
Definition search_decks (card_database : list string) (card_name : string)
  : result deck_search_outcome :=
  match card_database with
  | [] => Returns DecksNotLoaded
  | _ :: _ =>
      let search_name := lower card_name in
      let matches :=
        if startswith search_name "number"
        then Returns (sorted (List.filter (fun card => startswith (lower card) search_name)
                                          card_database))
        else get_card_suggestions card_database card_name 1 in
      match matches with
      | Raises e => Raises e
      | Returns [] => Returns CardNotFound
      | Returns (matched_card_name :: _) => Returns (BestMatch matched_card_name)
      end
  end.

(** Ascending order of strings: no element is above a later one. *)
Definition ascending (l : list string) : Prop :=
  StronglySorted (fun a b => str_lt b a = false) l.

End Commands.

(* ===================================================================== *)
(** * The artwork view *)
(* ===================================================================== *)

Module Artwork.

(** The exceptions of a callback, and its outcome. *)
Inductive error : Type :=
| ZeroDivisionError
| IndexError.

Inductive outcome (A : Type) : Type :=
| Done (a : A)
| Failed (e : error).
Arguments Done {A} a.
Arguments Failed {A} e.

(** The fields of [ArtworkView] that its buttons read and write; the
    image of the embed is the last field. *)
Record view : Type := View {
  image_urls : list string;
  current_index : Z;
  buttons_disabled : bool;
  embed_image : option string
}.

(** [ArtworkView(image_urls, embed)] for an embed whose image is
    [image]. *)
Definition init (urls : list string) (image : option string) : view :=
  View urls 0 (bool_decide (length urls <= 1)%nat) image.

(** [a % b] *)
Definition py_mod (a b : Z) : outcome Z :=
  if b =? 0 then Failed ZeroDivisionError else Done (a mod b).

(** [l[i]] for an integer [i] of either sign. *)
Definition py_index {A} (l : list A) (i : Z) : outcome A :=
  let n := Z.of_nat (length l) in
  let j := if i <? 0 then i + n else i in
  if (0 <=? j) && (j <? n) then
    match l !! Z.to_nat j with
    | Some x => Done x
    | None => Failed IndexError
    end
  else Failed IndexError.

(** The common body of the two callbacks, for a step of [+1] or [-1]:
    [self.current_index = (self.current_index + step) % len(self.image_urls)],
    then [self.embed.set_image(url=self.image_urls[self.current_index])]. *)
Definition turn (step : Z) (v : view) : outcome view :=
  match py_mod (current_index v + step) (Z.of_nat (length (image_urls v))) with
  | Failed e => Failed e
  | Done i =>
      match py_index (image_urls v) i with
      | Failed e => Failed e
      | Done url => Done (View (image_urls v) i (buttons_disabled v) (Some url))
      end
  end.

Definition prev_button (v : view) : outcome view := turn (-1) v.
Definition next_button (v : view) : outcome view := turn 1 v.

(** The views that a sequence of presses can reach from a new view. *)
Inductive reachable (urls : list string) (image : option string) : view -> Prop :=
| reach_init : reachable urls image (init urls image)
| reach_prev v v' :
    reachable urls image v -> prev_button v = Done v' -> reachable urls image v'
| reach_next v v' :
    reachable urls image v -> next_button v = Done v' -> reachable urls image v'.

End Artwork.

(* ===================================================================== *)
(** * The table strategy, table by table *)
(* ===================================================================== *)

Module Tables.
Import Py Soup Parser.

(** Whether every character of a string passes a test. *)
Fixpoint all_chars (p : ascii -> bool) (s : string) : bool :=
  match s with
  | EmptyString => true
  | String c s' => p c && all_chars p s'
  end.

(** Both sections hold counts that are not negative. *)
Definition counts_ok (d : deck_info) : Prop :=
  Forall (fun c => 0 <= count c) (main_deck d)
  /\ Forall (fun c => 0 <= count c) (extra_deck d).

Section WithDocument.
Context {tag : Type} `{Document tag}.






(** The tables that the table strategy reads. *)
Definition tables (soup : tag) : list tag :=
  find_all soup ["table"] (ClassRe Re.table_re).


End WithDocument.

End Tables.

(* ===================================================================== *)
(** * The text of a deck section *)
(* ===================================================================== *)

Module Format.
Import Py Parser.

(** [str(n)] for an integer, as an f-string prints it. *)
Definition str_of_int (n : Z) : string := NilEmpty.string_of_int (Z.to_int n).

(** The elements of [normalized]: the entries with a name, the name
    stripped. *)
Definition normalize (deck_list : list card) : list card :=
  map (fun c => Card (strip (name c)) (count c))
      (List.filter (fun c => nonempty (name c)) deck_list).

(** [key=lambda x: (-x['count'], x['name'].lower())] *)
Definition sort_key (x : card) : Z * string := (- count x, lower (name x)).

(** [l.sort(key=...)]: a stable sort into ascending order of the key. *)
Fixpoint insert_by_key (x : card) (l : list card) : list card :=
  match l with
  | [] => [x]
  | y :: l' =>
      if tuple_lt (sort_key y) (sort_key x) then y :: insert_by_key x l' else x :: l
  end.

Definition sort_by_key (l : list card) : list card := foldr insert_by_key [] l.

(** [f"{entry['count']}x {entry['name']}"] *)
Definition format_line (entry : card) : string :=
  str_of_int (count entry) +:+ "x " +:+ name entry.

(** The entries in the order of the lines. *)
Definition formatted_entries (deck_list : list card) : list card :=
  sort_by_key (normalize deck_list).

(** [format_deck_section(deck_list)] for the entries that
    [get_decks_with_card] builds, whose names are strings and whose
    counts are integers; no step raises on them. *)
(** An f-string raises [ValueError] on an int of more than 4300 digits.
    The function catches it; its fallback formats the same counts, so
    it raises again and the result is the empty string. *)
Definition printable (n : Z) : bool :=
  (String.length (str_of_int (Z.abs n)) <=? int_max_str_digits)%nat.

Definition format_deck_section (deck_list : list card) : string :=
  match deck_list with
  | [] => EmptyString
  | _ :: _ =>
      let normalized := sort_by_key (normalize deck_list) in
      if forallb (fun entry => printable (count entry)) normalized then
        let lines := map format_line normalized in
        Dom.join newline_string lines
      else EmptyString
  end.


(** Order of the lines: by count from high to low, then by lower-cased
    name. *)
Definition by_key (l : list card) : Prop :=
  StronglySorted (fun a b => tuple_lt (sort_key b) (sort_key a) = false) l.

(** Whether a string holds a character at which [splitlines] breaks. *)
Fixpoint has_linebreak (s : string) : bool :=
  match s with
  | EmptyString => false
  | String c s' => is_linebreak c || has_linebreak s'
  end.

(** An entry that the text strategy can read back from its line. *)
Definition readable (c : card) : Prop :=
  strip (name c) <> EmptyString
  /\ has_linebreak (strip (name c)) = false
  /\ 0 <= count c
  /\ (String.length (str_of_int (count c)) <= int_max_str_digits)%nat.

End Format.

(* ===================================================================== *)
(** * Reading the deck tables: get_decks_with_card, cleanup_old_decks *)
(* ===================================================================== *)

Module Queries.
Import Py Store.

(** The columns [d.id, d.name, d.author, d.url, d.created_at] of a row. *)
Definition deck_columns : Type := Z * string * option string * string * Z.

Definition columns (r : deck_row) : deck_columns :=
  (id r, name r, author r, url r, created_at r).

Definition column_created_at (c : deck_columns) : Z := c.2.

(** The rows of [decks d JOIN deck_cards dc ON d.id = dc.deck_id WHERE
    dc.card_name = ?], projected on the selected columns. *)
Definition joined (n : string) (d : db) : list deck_columns :=
  flat_map (fun r =>
              map (fun _ => columns r)
                  (List.filter (fun dc => bool_decide (id r = deck_id dc)
                                          && bool_decide (card_name dc = n))
                               (deck_cards d)))
           (decks d).

(** [ORDER BY created_at DESC]: a sort that moves no row past one of
    the same time stamp. *)
Fixpoint insert_created (x : deck_columns) (l : list deck_columns) : list deck_columns :=
  match l with
  | [] => [x]
  | y :: l' =>
      if column_created_at x <? column_created_at y then y :: insert_created x l'
      else x :: l
  end.

Definition order_by_created_desc (l : list deck_columns) : list deck_columns :=
  foldr insert_created [] l.

(** An entry of the result of [get_decks_with_card]. *)
Record found_deck : Type := FoundDeck {
  found_name : string;
  found_author : option string;
  found_url : string;
  found_main_deck : list Parser.card;
  found_extra_deck : list Parser.card;
  found_created_at : Z
}.

Section WithEngine.
(** SQL leaves open the order of the rows of a [SELECT], but for what
    [ORDER BY] asks: [scan] is the order the engine picks. *)
Variable scan : forall A : Type, list A -> list A.
Variable faults : nat -> option exn.

(** [SELECT DISTINCT d.id, d.name, d.author, d.url, d.created_at ...
    ORDER BY d.created_at DESC] *)
Definition select_decks_with_card (n : string) (d : db) : list deck_columns :=
  order_by_created_desc (scan _ (remove_dups (joined n d))).

(** [SELECT card_name, quantity FROM deck_cards WHERE deck_id = ? AND
    is_extra_deck = e], each row as [{'name': row[0], 'count': row[1]}] *)
Definition select_deck_cards (i : Z) (e : bool) (d : db) : list Parser.card :=
  map (fun r => Parser.Card (card_name r) (quantity r))
      (scan _ (List.filter (fun r => bool_decide (deck_id r = i)
                                     && bool_decide (is_extra_deck r = e))
                           (deck_cards d))).

(** The entry that the loop builds of a row when nothing fails. *)
Definition found_of (d : db) (c : deck_columns) : found_deck :=
  let '(deck_id, name, author, url, created_at) := c in
  FoundDeck name author url (select_deck_cards deck_id false d)
            (select_deck_cards deck_id true d) created_at.

(** [for deck_row in cursor.fetchall(): ... decks.append({...})] *)
Fixpoint collect_decks (rows : list deck_columns) : M (list found_deck) :=
  match rows with
  | [] => ret []
  | (deck_id, name, author, url, created_at) :: rest =>
      let* main_deck := execute faults (query (select_deck_cards deck_id false)) in
      let* extra_deck := execute faults (query (select_deck_cards deck_id true)) in
      let* decks := collect_decks rest in
      ret (FoundDeck name author url main_deck extra_deck created_at :: decks)
  end.

Definition get_decks_body (n : string) : M (list found_deck) :=
  let* _ := connect faults in
  let* rows := execute faults (query (select_decks_with_card n)) in
  collect_decks rows.

(** [get_decks_with_card(card_name)]: any exception gives [[]]. *)
Definition get_decks_with_card (n : string) (d : db) : list found_deck :=
  match get_decks_body n (0%nat, d) with
  | Returns (decks, _) => decks
  | Raises _ => []
  end.

(** [cleanup_old_decks(days)], with the cut-off as a time stamp: the
    number of deleted rows, or [0] after an exception, and the tables
    afterwards. *)
Definition cleanup_body (cutoff : Z) : M Z :=
  let* _ := connect faults in
  let* deleted_count :=
    execute faults
      (fun d => Returns (Z.of_nat (length (List.filter (fun r => last_updated r <? cutoff)
                                                       (decks d))),
                         delete_old_decks cutoff d)) in
  let* _ := commit faults in
  ret deleted_count.

Definition cleanup_old_decks (cutoff : Z) (d : db) : Z * db :=
  match cleanup_body cutoff (0%nat, d) with
  | Returns (deleted_count, (_, d')) => (deleted_count, d')
  | Raises _ => (0, d)
  end.

End WithEngine.

(** An engine that returns the rows in the order of the table. *)
Definition table_order : forall A : Type, list A -> list A := fun _ l => l.

(** The tables that calls of [save_deck_to_db] and [cleanup_old_decks]
    lead to from the empty ones, whatever fails on the way. *)
Inductive history : db -> Prop :=
| history_init : history empty_db
| history_save faults now deck_info d :
    history d -> history (save_deck_to_db faults now deck_info d).2
| history_cleanup faults cutoff d :
    history d -> history (cleanup_old_decks faults cutoff d).2.

(** A list of rows from the newest to the oldest. *)
Definition newest_first (l : list deck_columns) : Prop :=
  StronglySorted (fun a b => column_created_at b <= column_created_at a) l.

(** Whether a deck row has an association row for a card name. *)
Definition has_card (n : string) (d : db) (r : deck_row) : bool :=
  existsb (fun dc => bool_decide (id r = deck_id dc) && bool_decide (card_name dc = n))
          (deck_cards d).

(** The cards of one section of a stored deck, in the order of the table. *)
Definition stored_cards (i : Z) (e : bool) (d : db) : list Parser.card :=
  select_deck_cards table_order i e d.

End Queries.

(* ===================================================================== *)
(** * Facts about the Python primitives *)
(* ===================================================================== *)

(** The [map] of the standard library read as the [fmap] of stdpp, whose
    lemmas on membership are used throughout. *)
Tactic Notation "as_fmap" := change (map ?f ?l) with (f <$> l).
Tactic Notation "as_fmap" "in" hyp(H) := change (map ?f ?l) with (f <$> l) in H.
Tactic Notation "as_fmap" "in" hyp(H) "," hyp(H') :=
  change (map ?f ?l) with (f <$> l) in H, H'.
Tactic Notation "as_fmap" "in" "*" := change (map ?f ?l) with (f <$> l) in *.

Section PyExamples.
Import Py Parser.

Example lower_example : lower "Dark MAGICIAN" = "dark magician".
Proof. reflexivity. Qed.

Example split_example :
  split "  ash   blossom joyous " = ["ash"; "blossom"; "joyous"].
Proof. reflexivity. Qed.

Example strip_example : strip "  Foo bar  " = "Foo bar".
Proof. reflexivity. Qed.

Example sort_reverse_example :
  sort_reverse [(124, "ab"); (124, "ac"); (125, "a")]
  = [(125, "a"); (124, "ac"); (124, "ab")].
Proof. reflexivity. Qed.

Example slice_to_examples :
  slice_to [1; 2; 3] (-1) = [1; 2] /\ slice_to [1; 2; 3] (-5) = []
  /\ slice_to [1; 2; 3] 0 = [] /\ slice_to [1; 2; 3] 7 = [1; 2; 3].
Proof. repeat split. Qed.

Example splitlines_examples :
  splitlines ("a" +:+ CR +:+ LF +:+ "b" +:+ LF +:+ LF +:+ "c" +:+ LF) = ["a"; "b"; EmptyString; "c"]
  /\ splitlines EmptyString = []
  /\ splitlines LF = [EmptyString]
  /\ splitlines ("a" +:+ LF +:+ CR +:+ "b") = ["a"; EmptyString; "b"].
Proof. repeat split. Qed.

Example match_deck_line_examples :
  Re.match_deck_line "1x Accesscode Talker" = Some ("1", "Accesscode Talker")
  /\ Re.match_deck_line "  12 Foo bar " = Some ("12", "Foo bar ")
  /\ Re.match_deck_line "3 x Foo" = Some ("3", "x Foo")
  /\ Re.match_deck_line "3x  " = Some ("3", " ")
  /\ Re.match_deck_line "3x " = None
  /\ Re.match_deck_line "3xx Foo" = None
  /\ Re.match_deck_line "3xFoo" = None
  /\ Re.match_deck_line "Extra Deck:" = None.
Proof. repeat split. Qed.

(** The function that reads the groups accepts the lines that the
    pattern accepts. *)
Example match_deck_line_agrees :
  Forall (fun line => bool_decide (is_Some (Re.match_deck_line line))
                      = Re.search Re.deck_line_re line)
    ["1x Accesscode Talker"; "  12 Foo bar "; "3 x Foo"; "3x  "; "3x "; "3xx Foo";
     "3xFoo"; "x3 Foo"; "3  x"; "Extra Deck:"; EmptyString; "007 Bond"].
Proof. repeat constructor. Qed.

Example search_examples :
  Re.search Re.extra_marker_re "main deck / EXTRA DECK" = true
  /\ Re.search Re.extra_marker_re "extra: 15" = true
  /\ Re.search Re.extra_marker_re "extras" = false
  /\ Re.search Re.deck_part_re "Deck-Main-Part" = true
  /\ Re.search Re.quantity_string_re ("3x" +:+ LF) = true
  /\ Re.search Re.quantity_string_re " 3" = false
  /\ Re.search_digits "abc 12x34" = Some "12".
Proof. repeat split. Qed.

Example int_examples :
  int "007" = Returns 7 /\ int "40" = Returns 40.
Proof. repeat split. Qed.

End PyExamples.

Section PyFacts.
Import Py.

Lemma code_inj (a b : ascii) : code a = code b -> a = b.
Proof.
  unfold code. intros E.
  rewrite <- (ascii_N_embedding a), <- (ascii_N_embedding b). by rewrite E.
Qed.

Lemma str_lt_irrefl (a : string) : str_lt a a = false.
Proof.
  induction a as [|c a IH]; cbn [str_lt]; [done|].
  rewrite N.ltb_irrefl, N.eqb_refl. exact IH.
Qed.

Lemma str_lt_trans (a b c : string) :
  str_lt a b = true -> str_lt b c = true -> str_lt a c = true.
Proof.
  revert b c. induction a as [|x a IH]; intros [|y b] [|z c]; cbn [str_lt]; try done.
  destruct (N.ltb_spec (code x) (code y)) as [Hxy|Hxy].
  - intros _. destruct (N.ltb_spec (code y) (code z)) as [Hyz|Hyz].
    + intros _. destruct (N.ltb_spec (code x) (code z)); [done|lia].
    + destruct (N.eqb_spec (code y) (code z)) as [E|]; [|done].
      intros _. destruct (N.ltb_spec (code x) (code z)); [done|lia].
  - destruct (N.eqb_spec (code x) (code y)) as [E|]; [|done].
    intros Hab. rewrite E.
    destruct (N.ltb_spec (code y) (code z)); [done|].
    destruct (N.eqb_spec (code y) (code z)); [|done].
    intros Hbc. by apply (IH b c).
Qed.

Lemma str_lt_total (a b : string) :
  a <> b -> str_lt a b = false -> str_lt b a = true.
Proof.
  revert b. induction a as [|x a IH]; intros [|y b]; cbn [str_lt]; try done.
  intros Hne.
  destruct (N.ltb_spec (code x) (code y)) as [Hxy|Hxy]; [done|].
  destruct (N.eqb_spec (code x) (code y)) as [E|NE].
  - rewrite E, N.ltb_irrefl, N.eqb_refl. apply IH.
    intros ->. apply Hne. f_equal. by apply code_inj.
  - intros _. destruct (N.ltb_spec (code y) (code x)); [done|lia].
Qed.

Lemma tuple_lt_irrefl (p : Z * string) : tuple_lt p p = false.
Proof. unfold tuple_lt. rewrite Z.eqb_refl. apply str_lt_irrefl. Qed.

Lemma tuple_lt_trans (p q r : Z * string) :
  tuple_lt p q = true -> tuple_lt q r = true -> tuple_lt p r = true.
Proof.
  destruct p as [a x], q as [b y], r as [c z]. unfold tuple_lt. simpl.
  destruct (Z.eqb_spec a b) as [Hab|Hab], (Z.eqb_spec b c) as [Hbc|Hbc],
    (Z.eqb_spec a c) as [Hac|Hac]; rewrite ?Z.ltb_lt;
    try lia; try congruence.
  apply str_lt_trans.
Qed.

Lemma tuple_lt_total (p q : Z * string) :
  p <> q -> tuple_lt p q = false -> tuple_lt q p = true.
Proof.
  destruct p as [a x], q as [b y]. unfold tuple_lt. simpl. intros Hne.
  destruct (Z.eqb_spec a b) as [Hab|Hab], (Z.eqb_spec b a) as [Hba|Hba];
    rewrite ?Z.ltb_lt, ?Z.ltb_ge; try lia; try congruence.
  apply str_lt_total. congruence.
Qed.

Lemma tuple_lt_asym (p q : Z * string) :
  tuple_lt p q = true -> tuple_lt q p = false.
Proof.
  intros H. destruct (tuple_lt q p) eqn:E; [|done].
  pose proof (tuple_lt_trans _ _ _ H E) as F.
  by rewrite tuple_lt_irrefl in F.
Qed.

(** If [p] is not below [q] and [q] is not below [r], [p] is not below [r]. *)
Lemma tuple_ge_trans (p q r : Z * string) :
  tuple_lt p q = false -> tuple_lt q r = false -> tuple_lt p r = false.
Proof.
  intros Hpq Hqr. destruct (tuple_lt p r) eqn:E; [|done].
  destruct (decide (p = q)) as [->|Hne]; [congruence|].
  pose proof (tuple_lt_total _ _ Hne Hpq) as Hqp.
  pose proof (tuple_lt_trans _ _ _ Hqp E). congruence.
Qed.

(** The filter of the standard library, as the one of stdpp. *)
Lemma list_filter_bool {A} (f : A -> bool) (l : list A) :
  List.filter f l = filter (fun x => Is_true (f x)) l.
Proof.
  induction l as [|x l IH]; [done|].
  cbn [List.filter]. rewrite filter_cons. rewrite IH.
  destruct (f x); by simpl.
Qed.

Lemma list_filter_none {A} (f : A -> bool) (l : list A) :
  (forall x, x ∈ l -> f x = false) -> List.filter f l = [].
Proof.
  induction l as [|x l IH]; intros H; [done|].
  cbn [List.filter]. rewrite (H x) by (by left).
  apply IH. intros y Hy. apply H. by right.
Qed.

Lemma insert_desc_perm (x : Z * string) (l : list (Z * string)) :
  insert_desc x l ≡ₚ x :: l.
Proof.
  induction l as [|y l IH]; simpl; [done|].
  destruct (tuple_lt x y); [|done].
  rewrite IH. apply Permutation_swap.
Qed.

Lemma sort_reverse_perm (l : list (Z * string)) : sort_reverse l ≡ₚ l.
Proof.
  induction l as [|x l IH]; simpl; [done|].
  rewrite insert_desc_perm. by rewrite IH.
Qed.

Lemma insert_desc_descending (x : Z * string) (l : list (Z * string)) :
  descending l -> descending (insert_desc x l).
Proof.
  unfold descending. induction 1 as [|y l Hl IH Hy]; simpl.
  - repeat constructor.
  - destruct (tuple_lt x y) eqn:E.
    + constructor; [exact IH|].
      rewrite insert_desc_perm. constructor; [by apply tuple_lt_asym|exact Hy].
    + constructor; [by constructor|].
      constructor; [exact E|].
      eapply Forall_impl; [exact Hy|]. intros z Hz. simpl in Hz.
      by apply (tuple_ge_trans x y z).
Qed.

Lemma sort_reverse_descending (l : list (Z * string)) : descending (sort_reverse l).
Proof.
  induction l as [|x l IH]; simpl; [constructor|].
  by apply insert_desc_descending.
Qed.

Lemma isspace_lower_char (c : ascii) : isspace (lower_char c) = isspace c.
Proof. destruct c as [[] [] [] [] [] [] [] []]; reflexivity. Qed.

Lemma startswith_contains (sub s : string) :
  startswith s sub = true -> contains sub s = true.
Proof. intros H. destruct s; simpl in *; rewrite H; done. Qed.

Lemma contains_cons (sub : string) (c : ascii) (s : string) :
  contains sub s = true -> contains sub (String c s) = true.
Proof. intros H. cbn [contains]. rewrite H. apply orb_true_r. Qed.

Lemma startswith_cons (c : ascii) (s p : string) :
  startswith (String c s) (String c p) = startswith s p.
Proof. simpl. by destruct (ascii_dec c c). Qed.

Lemma split_cons (c : ascii) (s : string) :
  split (String c s)
  = if isspace c then split s
    else match s with
         | EmptyString => [String c EmptyString]
         | String c' _ =>
             if isspace c' then String c EmptyString :: split s
             else match split s with
                  | w :: ws => String c w :: ws
                  | [] => [String c EmptyString]
                  end
         end.
Proof. reflexivity. Qed.

(** A string that starts with a character other than whitespace
    starts with its first word. *)
Lemma split_first_word (c : ascii) (s : string) :
  isspace c = false ->
  exists w ws, split (String c s) = w :: ws /\ startswith (String c s) w = true.
Proof.
  revert c. induction s as [|c' s IH]; intros c Hc.
  - exists (String c EmptyString), []. simpl. rewrite Hc.
    split; [done|]. by destruct (ascii_dec c c).
  - rewrite (split_cons c), Hc. destruct (isspace c') eqn:Hc'.
    + exists (String c EmptyString), (split (String c' s)).
      split; [done|]. simpl. by destruct (ascii_dec c c).
    + destruct (IH c' Hc') as (w & ws & -> & Hw).
      exists (String c w), ws. split; [done|]. by rewrite startswith_cons.
Qed.

(** Every word of a string is a substring of it. *)
Lemma split_contains (s w : string) : w ∈ split s -> contains w s = true.
Proof.
  revert w. induction s as [|c s IH]; intros w; [by intros ?%elem_of_nil|].
  rewrite split_cons. destruct (isspace c) eqn:Hc.
  { intros Hw. by apply contains_cons, IH. }
  destruct s as [|c' s'].
  { intros ->%list_elem_of_singleton. apply startswith_contains.
    simpl. by destruct (ascii_dec c c). }
  destruct (isspace c') eqn:Hc'.
  - intros [->|Hw]%elem_of_cons.
    + apply startswith_contains. simpl. by destruct (ascii_dec c c).
    + by apply contains_cons, IH.
  - destruct (split_first_word c' s' Hc') as (w1 & ws & E & Hw1).
    rewrite E. rewrite E in IH. intros [->|Hw]%elem_of_cons.
    + apply startswith_contains. by rewrite startswith_cons.
    + apply contains_cons, IH. by right.
Qed.

End PyFacts.

(* ===================================================================== *)
(** * The name scorer: properties *)
(* ===================================================================== *)

Section ScorerFacts.
Import Py Scorer.

Lemma score_loop_words (search_terms first_word : string) (words keys : list string)
    (scored_matches : list (Z * string)) :
  score_loop search_terms (first_word :: words) keys scored_matches
  = Returns (scored_matches ++
             map (fun card_name =>
                    (score_of search_terms (first_word :: words) first_word
                              (lower card_name), card_name))
                 (List.filter (fun card_name =>
                                 all_words_present (first_word :: words) (lower card_name))
                              keys)).
Proof.
  revert scored_matches. induction keys as [|k keys IH]; intros acc.
  - simpl. by rewrite app_nil_r.
  - cbn [score_loop List.filter]. unfold score_card.
    destruct (all_words_present (first_word :: words) (lower k)).
    + rewrite IH. cbn [map]. by rewrite <- app_assoc.
    + apply IH.
Qed.

Lemma score_loop_no_words (search_terms : string) (keys : list string)
    (scored_matches : list (Z * string)) :
  score_loop search_terms [] keys scored_matches
  = match keys with
    | [] => Returns scored_matches
    | _ :: _ => Raises IndexError
    end.
Proof. by destruct keys. Qed.

(** What the scorer returns when the query has a word. *)
Lemma suggestions_with_words (card_database : list string) (search_terms : string)
    (max_suggestions : Z) :
  split (lower search_terms) <> [] ->
  get_card_suggestions card_database search_terms max_suggestions
  = Returns (map snd (slice_to (sort_reverse (scored card_database search_terms))
                               max_suggestions)).
Proof.
  intros Hw. unfold get_card_suggestions, scored, score, passes.
  destruct (split (lower search_terms)) as [|w ws] eqn:E; [done|].
  by rewrite score_loop_words.
Qed.

(** What it does when the query has none. *)
Lemma suggestions_without_words (card_database : list string) (search_terms : string)
    (max_suggestions : Z) :
  split (lower search_terms) = [] ->
  get_card_suggestions card_database search_terms max_suggestions
  = match card_database with
    | [] => Returns []
    | _ :: _ => Raises IndexError
    end.
Proof.
  intros Hw. unfold get_card_suggestions. rewrite Hw, score_loop_no_words.
  destruct card_database; [|done].
  unfold slice_to. simpl. by destruct (max_suggestions <? 0); rewrite ?take_nil.
Qed.

Lemma slice_to_subseteq {A} (l : list A) (n : Z) : slice_to l n ⊆ l.
Proof. unfold slice_to. destruct (n <? 0); apply subseteq_take. Qed.

Lemma elem_of_scored (card_database : list string) (search_terms : string)
    (p : Z * string) :
  p ∈ scored card_database search_terms <->
  p.2 ∈ card_database /\ passes search_terms p.2 = true
  /\ p.1 = score search_terms p.2.
Proof.
  unfold scored. rewrite list_elem_of_In, in_map_iff. split.
  - intros (k & <- & [Hk Hp]%filter_In). simpl.
    by rewrite list_elem_of_In.
  - intros (Hk & Hp & Hs). exists p.2. split.
    + destruct p as [z k]. simpl in *. by rewrite Hs.
    + apply filter_In. by rewrite <- list_elem_of_In.
Qed.

(** Every returned name comes with its pair in the sorted list. *)
Lemma returned_is_scored (card_database : list string) (search_terms : string)
    (max_suggestions : Z) (names : list string) (card_name : string) :
  get_card_suggestions card_database search_terms max_suggestions = Returns names ->
  card_name ∈ names ->
  card_name ∈ card_database /\ passes search_terms card_name = true.
Proof.
  intros Hret Hin.
  destruct (split (lower search_terms)) as [|w ws] eqn:E.
  - rewrite suggestions_without_words in Hret by done.
    destruct card_database; [|done]. injection Hret as <-. by apply elem_of_nil in Hin.
  - rewrite suggestions_with_words in Hret by (rewrite E; done).
    injection Hret as <-.
    apply list_elem_of_In, in_map_iff in Hin as ([z k] & Hk & Hin). simpl in Hk. subst k.
    apply list_elem_of_In, slice_to_subseteq in Hin.
    rewrite sort_reverse_perm in Hin.
    apply elem_of_scored in Hin as (? & ? & ?). done.
Qed.

(** C5. Coarse-filter soundness: every name that the scorer returns
    holds, in its lower-cased form, each lower-cased word of the query
    as a substring. The claim is made for non-empty queries; it holds
    of every query for which the call returns. *)
Theorem scorer_filter_sound (card_database : list string) (search_terms : string)
    (max_suggestions : Z) (names : list string) :
  get_card_suggestions card_database search_terms max_suggestions = Returns names ->
  forall card_name word,
    card_name ∈ names ->
    word ∈ split (lower search_terms) ->
    contains word (lower card_name) = true.
Proof.
  intros Hret card_name word Hin Hword.
  destruct (returned_is_scored _ _ _ _ _ Hret Hin) as [_ Hp].
  unfold passes, all_words_present in Hp.
  rewrite forallb_forall in Hp. apply Hp. by apply list_elem_of_In.
Qed.

Lemma scorer_filter_sound_witness :
  get_card_suggestions ["Dark Magician"; "Dark Magician Girl"; "Blue-Eyes White Dragon"]
                       "dark magician" 5
  = Returns ["Dark Magician"; "Dark Magician Girl"]
  /\ contains "magician" (lower "Dark Magician Girl") = true.
Proof.
  assert (H : get_card_suggestions
                ["Dark Magician"; "Dark Magician Girl"; "Blue-Eyes White Dragon"]
                "dark magician" 5
              = Returns ["Dark Magician"; "Dark Magician Girl"])
    by (vm_compute; reflexivity).
  split; [exact H|].
  apply (scorer_filter_sound _ _ _ _ H "Dark Magician Girl" "magician").
  - apply list_elem_of_In. simpl. tauto.
  - apply list_elem_of_In. vm_compute. tauto.
Defined.

(** With an empty catalog the loop body never runs. *)
Lemma scorer_empty_catalog (search_terms : string) (max_suggestions : Z) :
  get_card_suggestions [] search_terms max_suggestions = Returns [].
Proof.
  unfold get_card_suggestions, slice_to. simpl.
  by destruct (max_suggestions <? 0); rewrite ?take_nil.
Qed.

(** A query without words makes the first catalog name raise. *)
Lemma scorer_no_words_raises (card_name : string) (rest : list string)
    (search_terms : string) (max_suggestions : Z) :
  split (lower search_terms) = [] ->
  get_card_suggestions (card_name :: rest) search_terms max_suggestions
  = Raises IndexError.
Proof. intros Hw. by rewrite suggestions_without_words. Qed.

(** C3. With the empty query and a catalog of one name the scorer does
    not return the empty sequence: every name passes a filter of no
    words, and [search_words[0]] raises [IndexError]. *)
Theorem scorer_empty_query_raises :
  get_card_suggestions ["Dark Magician"] EmptyString 5 = Raises IndexError.
Proof. reflexivity. Qed.

Lemma descending_lookup (l : list (Z * string)) (i j : nat) (p q : Z * string) :
  descending l -> l !! i = Some p -> l !! j = Some q -> (i < j)%nat ->
  tuple_lt p q = false.
Proof.
  intros Hl. revert i j. induction Hl as [|x l Hl IH Hx]; intros i j Hi Hj Hij.
  - done.
  - destruct j as [|j]; [lia|]. destruct i as [|i]; simpl in *.
    + injection Hi as ->. rewrite Forall_forall in Hx. apply Hx.
      apply list_elem_of_lookup. eauto.
    + apply (IH i j); [done..|lia].
Qed.

Lemma scored_NoDup (card_database : list string) (search_terms : string) :
  NoDup card_database -> NoDup (scored card_database search_terms).
Proof.
  intros Hnd. unfold scored.
  apply (NoDup_fmap_1 snd). change (snd <$> map ?f ?l) with (map snd (map f l)).
  rewrite map_map. simpl. rewrite map_id.
  rewrite list_filter_bool. by apply NoDup_filter.
Qed.

Lemma slice_to_lookup {A} (l : list A) (n : Z) (i : nat) (x : A) :
  slice_to l n !! i = Some x -> l !! i = Some x.
Proof.
  unfold slice_to. destruct (n <? 0); rewrite lookup_take_Some; tauto.
Qed.

(** Two returned names, with the pairs that were sorted. *)
Lemma returned_pairs_ordered (card_database : list string) (search_terms : string)
    (max_suggestions : Z) (names : list string) (i j : nat) (a b : string) :
  get_card_suggestions card_database search_terms max_suggestions = Returns names ->
  names !! i = Some a -> names !! j = Some b -> (i < j)%nat ->
  exists sorted,
    sorted ≡ₚ scored card_database search_terms
    /\ sorted !! i = Some (score search_terms a, a)
    /\ sorted !! j = Some (score search_terms b, b)
    /\ tuple_lt (score search_terms a, a) (score search_terms b, b) = false.
Proof.
  intros Hret Hi Hj Hij.
  destruct (split (lower search_terms)) as [|w ws] eqn:E.
  { rewrite suggestions_without_words in Hret by done.
    destruct card_database; [|done]. by injection Hret as <-. }
  rewrite suggestions_with_words in Hret by (rewrite E; done).
  injection Hret as <-.
  set (sorted := sort_reverse (scored card_database search_terms)) in *.
  assert (Hpair : forall k c, map snd (slice_to sorted max_suggestions) !! k = Some c ->
                              sorted !! k = Some (score search_terms c, c)).
  { intros k c Hk. as_fmap in Hk.
    apply list_lookup_fmap_Some in Hk as ([z c'] & -> & Hk).
    apply slice_to_lookup in Hk. simpl.
    assert (Hin : (z, c') ∈ scored card_database search_terms).
    { rewrite <- (sort_reverse_perm (scored _ _)). apply list_elem_of_lookup. eauto. }
    apply elem_of_scored in Hin as (_ & _ & Hz). simpl in Hz. by rewrite <- Hz. }
  exists sorted. split; [apply sort_reverse_perm|].
  split; [by apply Hpair|]. split; [by apply Hpair|].
  eapply (descending_lookup sorted i j);
    [apply sort_reverse_descending|by apply Hpair|by apply Hpair|done].
Qed.

(** C2, as the code has it. The sort compares pairs [(score, name)], so
    in the list returned for a catalog of distinct names a name never
    stands before one of higher score, and of two names of equal score
    the one that is greater as a string stands first, whatever their
    order in the catalog. *)
Theorem scorer_ties_by_name (card_database : list string) (search_terms : string)
    (max_suggestions : Z) (names : list string) (i j : nat) (a b : string) :
  NoDup card_database ->
  get_card_suggestions card_database search_terms max_suggestions = Returns names ->
  names !! i = Some a -> names !! j = Some b -> (i < j)%nat ->
  score search_terms b <= score search_terms a
  /\ (score search_terms a = score search_terms b -> str_lt b a = true).
Proof.
  intros Hnd Hret Hi Hj Hij.
  destruct (returned_pairs_ordered _ _ _ _ _ _ _ _ Hret Hi Hj Hij)
    as (sorted & Hperm & Hsi & Hsj & Hlt).
  unfold tuple_lt in Hlt. simpl in Hlt.
  destruct (Z.eqb_spec (score search_terms a) (score search_terms b)) as [E|NE].
  - split; [lia|]. intros _. apply str_lt_total; [|done].
    intros ->.
    assert (NoDup sorted) as Hs by (rewrite Hperm; by apply scored_NoDup).
    pose proof (NoDup_lookup _ _ _ _ Hs Hsi Hsj). lia.
  - apply Z.ltb_ge in Hlt. split; [lia|]. intros ?. lia.
Qed.

Lemma scorer_ties_by_name_witness :
  score "a" "ab" <= score "a" "ac"
  /\ (score "a" "ac" = score "a" "ab" -> str_lt "ab" "ac" = true).
Proof.
  apply (scorer_ties_by_name ["ab"; "ac"] "a" 5 ["ac"; "ab"] 0 1 "ac" "ab").
  - repeat constructor; rewrite list_elem_of_In; simpl; intuition discriminate.
  - vm_compute. reflexivity.
  - reflexivity.
  - reflexivity.
  - lia.
Defined.

(** C2, as the claim has it, fails: "ab" precedes "ac" in the catalog,
    both score 124 for the query "a", and "ac" is returned first. *)
Lemma scorer_ties_counterexample :
  ~ ties_keep_catalog_order ["ab"; "ac"] "a" 5.
Proof.
  intros H.
  specialize (H ["ac"; "ab"] 0%nat 1%nat 1%nat 0%nat "ab" "ac").
  assert (1 < 0)%nat; [|lia].
  apply H; try reflexivity. lia.
Qed.

Lemma word_bonus_le (search_words card_words : list string) :
  word_bonus search_words card_words <= 50 * Z.of_nat (length search_words).
Proof.
  induction search_words as [|w ws IH]; simpl length; cbn [word_bonus]; [lia|].
  destruct (mem w card_words); lia.
Qed.

Lemma word_bonus_all (search_words card_words : list string) :
  (forall w, w ∈ search_words -> w ∈ card_words) ->
  word_bonus search_words card_words = 50 * Z.of_nat (length search_words).
Proof.
  induction search_words as [|w ws IH]; intros Hall; simpl length; cbn [word_bonus];
    [lia|].
  unfold mem. rewrite bool_decide_eq_true_2 by (apply Hall; by left).
  rewrite IH; [lia|]. intros w' Hw'. apply Hall. by right.
Qed.

(** No candidate scores more than 125 plus 50 for each word of the query. *)
Lemma score_le (search_terms card_name : string) :
  score search_terms card_name
  <= 125 + 50 * Z.of_nat (length (split (lower search_terms))).
Proof.
  unfold score, score_of.
  pose proof (word_bonus_le (split (lower search_terms)) (split (lower card_name))).
  destruct (startswith _ _); lia.
Qed.

Lemma exact_match_passes (search_terms card_name : string) :
  lower card_name = lower search_terms -> passes search_terms card_name = true.
Proof.
  intros E. unfold passes, all_words_present. rewrite E.
  apply forallb_forall. intros w Hw. by apply split_contains, list_elem_of_In.
Qed.

(** A name equal to the query but for case misses that bound by the
    penalty alone, the difference between the lengths of the lowered
    query and of the query, when the query starts with a character
    other than whitespace. *)
Lemma exact_match_score (c : ascii) (rest card_name : string) :
  isspace c = false ->
  lower card_name = lower (String c rest) ->
  score (String c rest) card_name
  = 125 + 50 * Z.of_nat (length (split (lower (String c rest))))
    - Z.abs (len (lower (String c rest)) - len (String c rest)).
Proof.
  intros Hc E. unfold score, score_of. rewrite E.
  rewrite word_bonus_all by done.
  generalize (Z.abs (len (lower (String c rest)) - len (String c rest))). intros penalty.
  cbn [lower]. destruct (split_first_word (lower_char c) (lower rest)) as (w & ws & Hs & Hw).
  { by rewrite isspace_lower_char. }
  cbn [lower] in Hs. rewrite Hs. cbn [hd]. rewrite Hw. lia.
Qed.

(** In a descending list without repetition an element stands at the
    index that counts the elements above it. *)
Lemma descending_rank (l : list (Z * string)) (p : Z * string) :
  descending l -> NoDup l -> p ∈ l ->
  l !! length (List.filter (tuple_lt p) l) = Some p.
Proof.
  intros Hl. induction Hl as [|x l Hl IH Hx]; intros Hnd Hp.
  - by apply elem_of_nil in Hp.
  - apply NoDup_cons in Hnd as [Hxl Hnd]. rewrite Forall_forall in Hx.
    cbn [List.filter]. destruct (decide (p = x)) as [->|Hne].
    + rewrite tuple_lt_irrefl.
      by rewrite (list_filter_none (tuple_lt x) l Hx).
    + apply elem_of_cons in Hp as [?|Hp]; [done|].
      assert (tuple_lt p x = true) as ->.
      { apply tuple_lt_total; [congruence|]. by apply Hx. }
      simpl. by apply IH.
Qed.

Lemma filter_length_perm {A} (f : A -> bool) (l l' : list A) :
  l ≡ₚ l' -> length (List.filter f l) = length (List.filter f l').
Proof. intros H. rewrite !list_filter_bool. by rewrite H. Qed.

Lemma ranked_above_length (card_database : list string) (search_terms card_name : string) :
  length (List.filter (tuple_lt (score search_terms card_name, card_name))
                      (scored card_database search_terms))
  = length (ranked_above card_database search_terms card_name).
Proof.
  unfold scored, ranked_above.
  induction card_database as [|k ks IH]; [done|].
  cbn [List.filter]. destruct (passes search_terms k); simpl; [|exact IH].
  destruct (tuple_lt _ _); simpl; by rewrite IH.
Qed.

(** C4, as the code has it. A catalog name [card_name] equal to the
    query but for case is returned as soon as [max_suggestions] exceeds
    the number of catalog names that the sort ranks above it. When the
    query starts with a character other than whitespace, its score is
    125 plus 50 for each word, less the difference between the lengths
    of the lowered query and of the query: the penalty compares the
    lowered name with the query as typed. When lowering keeps the
    length of the query, that is the highest score there is, so that
    only names of the same score that are greater as strings rank above
    it. *)
Theorem scorer_exact_match (card_database : list string) (search_terms : string)
    (max_suggestions : Z) (card_name : string) :
  NoDup card_database ->
  card_name ∈ card_database ->
  lower card_name = lower search_terms ->
  split (lower search_terms) <> [] ->
  (Z.of_nat (length (ranked_above card_database search_terms card_name))
     < max_suggestions ->
   exists names,
     get_card_suggestions card_database search_terms max_suggestions = Returns names
     /\ card_name ∈ names)
  /\ (forall c rest,
        search_terms = String c rest -> isspace c = false ->
        score search_terms card_name
        = 125 + 50 * Z.of_nat (length (split (lower search_terms)))
          - Z.abs (len (lower search_terms) - len search_terms)
        /\ (len (lower search_terms) = len search_terms ->
            forall other,
              other ∈ ranked_above card_database search_terms card_name ->
              score search_terms other = score search_terms card_name
              /\ str_lt card_name other = true)).
Proof.
  intros Hnd Hin Heq Hw. split.
  - intros Hn. rewrite suggestions_with_words by done. eexists. split; [done|].
    set (p := (score search_terms card_name, card_name)).
    set (sorted := sort_reverse (scored card_database search_terms)).
    assert (Hp : p ∈ sorted).
    { unfold sorted. rewrite sort_reverse_perm. apply elem_of_scored. simpl.
      split; [done|]. split; [by apply exact_match_passes|done]. }
    assert (Hrank : sorted !! length (ranked_above card_database search_terms card_name)
                    = Some p).
    { rewrite <- ranked_above_length.
      rewrite <- (filter_length_perm _ sorted) by apply sort_reverse_perm.
      apply descending_rank; [apply sort_reverse_descending| |done].
      unfold sorted. rewrite sort_reverse_perm. by apply scored_NoDup. }
    apply list_elem_of_In, in_map_iff. exists p. split; [done|].
    apply list_elem_of_In. unfold slice_to.
    destruct (Z.ltb_spec max_suggestions 0); [lia|].
    apply elem_of_take. eexists. split; [exact Hrank|lia].
  - intros c rest -> Hc.
    pose proof (exact_match_score c rest card_name Hc Heq) as Hs.
    split; [done|]. intros Hlen other Ho.
    rewrite Hlen, Z.sub_diag in Hs. change (Z.abs 0) with 0 in Hs.
    unfold ranked_above in Ho.
    apply list_elem_of_In, filter_In in Ho as [_ [_ Hlt]%andb_true_iff].
    pose proof (score_le (String c rest) other) as Hle.
    unfold tuple_lt in Hlt. simpl in Hlt.
    destruct (Z.eqb_spec (score (String c rest) card_name) (score (String c rest) other))
      as [E|NE]; [done|].
    apply Z.ltb_lt in Hlt. lia.
Qed.

Lemma scorer_exact_match_witness :
  exists names,
    get_card_suggestions ["b a b"; "b b a"] "b a b" 2 = Returns names
    /\ "b a b" ∈ names.
Proof.
  apply (scorer_exact_match ["b a b"; "b b a"] "b a b" 2 "b a b").
  - repeat constructor; rewrite list_elem_of_In; simpl; intuition discriminate.
  - apply list_elem_of_In. simpl. tauto.
  - reflexivity.
  - vm_compute. discriminate.
  - vm_compute. reflexivity.
Defined.

(** C4, as the claim has it, fails: for the query "b a b" the names
    "b a b" and "b b a" both score 275, and the second, greater as a
    string, is the one suggestion returned. *)
Lemma scorer_exact_match_counterexample :
  ~ exact_match_returned ["b a b"; "b b a"] "b a b" 1.
Proof.
  intros H. destruct (H "b a b") as (names & Hret & Hin).
  - apply list_elem_of_In. simpl. tauto.
  - reflexivity.
  - lia.
  - vm_compute in Hret. injection Hret as <-.
    apply list_elem_of_In in Hin. simpl in Hin. intuition discriminate.
Qed.

End ScorerFacts.

(* ===================================================================== *)
(** * The deck markup parser: properties *)
(* ===================================================================== *)

Section ParserFacts.
Import Py Soup Parser.
Context {tag : Type} `{Document tag}.

Lemma foldl_invariant {A B} (P : A -> Prop) (f : A -> B -> A) (l : list B) (a : A) :
  P a -> (forall a x, P a -> P (f a x)) -> P (foldl f a l).
Proof.
  intros Ha Hf. revert a Ha. induction l as [|x l IH]; intros a Ha; simpl; [done|].
  apply IH, Hf, Ha.
Qed.

(** ** The url is never written *)

Lemma url_append_card (is_extra : bool) (entry : card) (d : deck_info) :
  url (append_card is_extra entry d) = url d.
Proof. by destruct is_extra. Qed.

Lemma url_extract_name (soup : tag) (d : deck_info) : url (extract_name soup d) = url d.
Proof. unfold extract_name. by destruct (first_label _ _). Qed.

Lemma url_extract_author (soup : tag) (d : deck_info) :
  url (extract_author soup d) = url d.
Proof. unfold extract_author. by destruct (first_label _ _). Qed.

Lemma url_parse_card_element (section_name : string) (card : tag) (d : deck_info) :
  url (parse_card_element section_name card d) = url d.
Proof.
  unfold parse_card_element. destruct (or_else _ _); [|done].
  apply url_append_card.
Qed.

Lemma url_parse_deck_part (part : tag) (st : deck_info * bool) :
  url (parse_deck_part part st).1 = url st.1.
Proof.
  unfold parse_deck_part. destruct (or_else _ _); [|done].
  destruct (find_all _ _ _) as [|c cs] eqn:E; [done|]. cbn [fst].
  apply (foldl_invariant (fun d => url d = url st.1)); [done|].
  intros d x Hd. by rewrite url_parse_card_element.
Qed.

Lemma url_strategy_sections (soup : tag) (st : deck_info * bool) :
  url (strategy_sections soup st).1 = url st.1.
Proof.
  unfold strategy_sections.
  apply (foldl_invariant (fun s => url s.1 = url st.1)); [done|].
  intros s x Hs. by rewrite url_parse_deck_part.
Qed.

Lemma url_parse_table_row (is_extra : bool) (row : tag) (st : deck_info * bool) :
  url (parse_table_row is_extra row st).1 = url st.1.
Proof.
  unfold parse_table_row. destruct (find row _ (ClassRe Re.name_cell_re)); [|done].
  apply url_append_card.
Qed.

Lemma url_strategy_tables (soup : tag) (st : deck_info * bool) :
  url (strategy_tables soup st).1 = url st.1.
Proof.
  unfold strategy_tables. destruct (negb st.2); [|done].
  apply (foldl_invariant (fun s => url s.1 = url st.1)); [done|].
  intros s table Hs. unfold parse_table.
  apply (foldl_invariant (fun s => url s.1 = url st.1)); [done|].
  intros s' row Hs'. by rewrite url_parse_table_row.
Qed.

Lemma url_parse_text_line (is_extra : bool) (line : string) (st : deck_info * bool) :
  url (parse_text_line is_extra line st).1 = url st.1.
Proof.
  unfold parse_text_line. destruct (Re.match_deck_line line) as [[g1 g2]|]; [|done].
  destruct (int g1); [|done]. apply url_append_card.
Qed.

Lemma url_strategy_text (soup : tag) (st : deck_info * bool) :
  url (strategy_text soup st).1 = url st.1.
Proof.
  unfold strategy_text. destruct (negb st.2); [|done].
  apply (foldl_invariant (fun s => url s.1 = url st.1)); [done|].
  intros s container Hs. unfold parse_text_container.
  apply (foldl_invariant (fun s => url s.1 = url st.1)); [done|].
  intros s' line Hs'. by rewrite url_parse_text_line.
Qed.

Lemma url_extract (soup : tag) (u : string) : url (extract soup u) = u.
Proof.
  unfold extract. cbv zeta.
  rewrite url_strategy_text, url_strategy_tables, url_strategy_sections. cbn [fst].
  by rewrite url_extract_author, url_extract_name.
Qed.

(** C6. The parser is a total function of the document and the url: it
    returns a record for every input, and the [url] of that record is
    the url it was given. *)
Theorem parse_deck_list_url (soup : tag) (u : string) :
  exists d : deck_info, parse_deck_list soup u = d /\ url d = u.
Proof.
  eexists. split; [reflexivity|].
  unfold parse_deck_list, cleanup. simpl. apply url_extract.
Qed.

(** ** The clean-up *)

Lemma cleanup_loop_dedup (cards : list card) (seen : gset string) (cleaned : list card) :
  cleanup_loop cards seen cleaned = cleaned ++ dedup seen cards.
Proof.
  revert seen cleaned. induction cards as [|c cards IH]; intros seen cleaned; simpl.
  - by rewrite app_nil_r.
  - destruct (decide (name c ∈ seen)); [apply IH|].
    rewrite IH. by rewrite <- app_assoc.
Qed.

Lemma cleanup_section_dedup (cards : list card) :
  cleanup_section cards = dedup ∅ cards.
Proof. unfold cleanup_section. by rewrite cleanup_loop_dedup. Qed.

Lemma dedup_not_seen (seen : gset string) (cards : list card) (c : card) :
  c ∈ dedup seen cards -> name c ∉ seen.
Proof.
  revert seen. induction cards as [|x cards IH]; intros seen; simpl.
  - by intros ?%elem_of_nil.
  - destruct (decide (name x ∈ seen)); [apply IH|].
    intros [->|Hc]%elem_of_cons; [done|].
    apply IH in Hc. set_solver.
Qed.

Lemma dedup_NoDup (seen : gset string) (cards : list card) :
  NoDup (map name (dedup seen cards)).
Proof.
  revert seen. induction cards as [|x cards IH]; intros seen; simpl.
  - constructor.
  - destruct (decide (name x ∈ seen)); [apply IH|].
    cbn [map]. constructor; [|apply IH].
    intros Hin. as_fmap in Hin.
    apply list_elem_of_fmap in Hin as (c & Hn & Hc).
    apply dedup_not_seen in Hc. set_solver.
Qed.

Lemma dedup_sublist (seen : gset string) (cards : list card) :
  dedup seen cards `sublist_of` cards.
Proof.
  revert seen. induction cards as [|x cards IH]; intros seen; simpl.
  - constructor.
  - destruct (decide (name x ∈ seen)).
    + by apply sublist_cons.
    + by apply sublist_skip.
Qed.

(** The first entry of each name that is not yet seen is kept. *)
Lemma dedup_lookup_name (seen : gset string) (cards : list card) (n : string) :
  n ∉ seen -> lookup_name n (dedup seen cards) = lookup_name n cards.
Proof.
  unfold lookup_name.
  revert seen. induction cards as [|x cards IH]; intros seen Hn; simpl; [done|].
  destruct (decide (name x ∈ seen)) as [Hx|Hx].
  - rewrite bool_decide_eq_false_2 by (intros E; by rewrite E in Hx). by apply IH.
  - cbn [List.find]. case_bool_decide as Hxn; [done|].
    apply IH. rewrite elem_of_union, elem_of_singleton. intros [E|?]; [|done].
    by apply Hxn.
Qed.

Lemma main_deck_cleanup (d : deck_info) :
  main_deck (cleanup d) = dedup ∅ (main_deck d).
Proof. unfold cleanup. simpl. apply cleanup_section_dedup. Qed.

Lemma extra_deck_cleanup (d : deck_info) :
  extra_deck (cleanup d) = dedup ∅ (extra_deck d).
Proof. unfold cleanup. simpl. apply cleanup_section_dedup. Qed.

(** C7. In the record returned for any document no two entries of
    [main_deck] share a name, and no two of [extra_deck]. Each section
    is a sub-sequence of the entries that the strategies extracted, and
    the entry it holds for a name is the first extracted entry of that
    name, whatever the counts of the later ones. *)
Theorem parse_deck_list_dedup (soup : tag) (u : string) :
  let d := parse_deck_list soup u in
  let raw := extract soup u in
  (NoDup (map name (main_deck d)) /\ NoDup (map name (extra_deck d)))
  /\ (main_deck d `sublist_of` main_deck raw
      /\ extra_deck d `sublist_of` extra_deck raw)
  /\ forall n,
       lookup_name n (main_deck d) = lookup_name n (main_deck raw)
       /\ lookup_name n (extra_deck d) = lookup_name n (extra_deck raw).
Proof.
  cbv zeta. unfold parse_deck_list. rewrite main_deck_cleanup, extra_deck_cleanup.
  split; [split; apply dedup_NoDup|].
  split; [split; apply dedup_sublist|].
  intros n. split; apply dedup_lookup_name, not_elem_of_empty.
Qed.

(** ** The text strategy *)

Lemma parse_text_line_entry (is_extra : bool) (line : string) (st : deck_info * bool) :
  parse_text_line is_extra line st
  = match line_entry line with
    | Some entry => (append_card is_extra entry st.1, true)
    | None => st
    end.
Proof.
  unfold parse_text_line, line_entry.
  destruct (Re.match_deck_line line) as [[g1 g2]|]; [|done].
  by destruct (int g1).
Qed.






(** ** The first two strategies set the flag with the first card *)





End ParserFacts.

Section ParserScenarios.
Import Py Soup Parser Dom.



(** A page without any of the markup that the strategies look for gives
    a record with empty sections. *)
Example parse_garbage_page :
  parse_deck_list garbage_page "https://example.org/deck/2"
  = DeckInfo (Some EmptyString) (Some EmptyString) [] [] "https://example.org/deck/2".
Proof. vm_compute. reflexivity. Qed.

(** A repeated name keeps its first count. *)
Example parse_repeated_name :
  main_deck
    (parse_deck_list
       (Tag "[document]" None
          [Tag "div" (Some ["card-list"])
             [Text "3x Maxx C"; Tag "br" None []; Text "1x Maxx C";
              Tag "br" None []; Text "2x Called by the Grave"]])
       "https://example.org/deck/3")
  = [Card "Maxx C" 3; Card "Called by the Grave" 2].
Proof. vm_compute. reflexivity. Qed.

End ParserScenarios.

(* ===================================================================== *)
(** * The deck reconciler: properties *)
(* ===================================================================== *)

Section StoreFacts.
Import Py Store.

Variable faults : nat -> option exn.

(** ** One call *)

Lemma execute_Returns {A} (stmt : db -> result (A * db)) (k k' : nat) (d d' : db) (a : A) :
  execute faults stmt (k, d) = Returns (a, (k', d')) ->
  faults k = None /\ k' = S k /\ stmt d = Returns (a, d').
Proof.
  unfold execute. destruct (faults k); [done|].
  destruct (stmt d) as [[a0 d0]|]; [|done].
  intros [= -> <- ->]. done.
Qed.

Lemma bind_Returns {A B} (m : M A) (f : A -> M B) (st st' : nat * db) (b : B) :
  bind m f st = Returns (b, st') ->
  exists a st1, m st = Returns (a, st1) /\ f a st1 = Returns (b, st').
Proof.
  unfold bind. destruct (m st) as [[a st1]|]; [|done]. eauto.
Qed.

Lemma insert_deck_card_Returns (i : Z) (n : string) (e : bool) (q : Z) (d d' : db) :
  insert_deck_card i n e q d = Returns d' ->
  d' = Db (decks d) (deck_cards d ++ [DeckCardRow i n e q]) (decks_seq d)
  /\ (forall r, r ∈ deck_cards d -> ~ (deck_id r = i /\ card_name r = n))
  /\ - 2 ^ 63 <= q < 2 ^ 63.
Proof.
  unfold insert_deck_card.
  destruct (negb _) eqn:Hq; [done|].
  destruct (existsb _ _) eqn:Hex; [done|].
  intros [= <-]. split; [done|]. split.
  - intros r Hr [Hi Hn].
    assert (existsb (fun r => bool_decide (deck_id r = i) && bool_decide (card_name r = n))
                    (deck_cards d) = true); [|congruence].
    apply existsb_exists. exists r. split; [by apply list_elem_of_In|].
    by rewrite !bool_decide_eq_true_2.
  - apply negb_false_iff, andb_true_iff in Hq as [?%Z.leb_le ?%Z.ltb_lt]. lia.
Qed.

Lemma insert_deck_card_fresh (i : Z) (n : string) (e : bool) (q : Z) (d : db) :
  (forall r, r ∈ deck_cards d -> ~ (deck_id r = i /\ card_name r = n)) ->
  - 2 ^ 63 <= q < 2 ^ 63 ->
  insert_deck_card i n e q d
  = Returns (Db (decks d) (deck_cards d ++ [DeckCardRow i n e q]) (decks_seq d)).
Proof.
  intros Hfresh Hq. unfold insert_deck_card.
  assert (negb ((- 2 ^ 63 <=? q) && (q <? 2 ^ 63)) = false) as ->.
  { apply negb_false_iff, andb_true_iff. split; [apply Z.leb_le|apply Z.ltb_lt]; lia. }
  destruct (existsb _ _) eqn:Hex; [|done].
  apply existsb_exists in Hex as (r & Hr & [Hi Hn]%andb_true_iff).
  apply bool_decide_eq_true in Hi, Hn.
  destruct (Hfresh r); [by apply list_elem_of_In|done].
Qed.

(** ** The loops over the two sections *)

Lemma insert_cards_Returns (i : Z) (e : bool) (cards : list Parser.card)
    (k k' : nat) (d d' : db) (u : unit) :
  insert_cards faults i e cards (k, d) = Returns (u, (k', d')) ->
  k' = (k + length cards)%nat
  /\ (forall j, (k <= j < k')%nat -> faults j = None)
  /\ d' = Db (decks d) (deck_cards d ++ map (card_row i e) cards) (decks_seq d)
  /\ (forall c r, c ∈ cards -> r ∈ deck_cards d ->
                  ~ (deck_id r = i /\ card_name r = Parser.name c))
  /\ NoDup (map Parser.name cards)
  /\ (forall c, c ∈ cards -> - 2 ^ 63 <= Parser.count c < 2 ^ 63).
Proof.
  revert k d. induction cards as [|c cards IH]; intros k d.
  - simpl. unfold ret. intros [= <- <-].
    split; [lia|]. split; [intros; lia|]. split; [destruct d; simpl; by rewrite app_nil_r|].
    split; [by intros c r ?%elem_of_nil|]. split; [constructor|by intros c ?%elem_of_nil].
  - cbn [insert_cards]. intros (a & [k1 d1] & Hex & Hrest)%bind_Returns.
    apply execute_Returns in Hex as (Hk & -> & Hup).
    unfold update in Hup.
    destruct (insert_deck_card _ _ _ _ d) as [d1'|] eqn:Hins; [|done].
    injection Hup as _ <-.
    apply insert_deck_card_Returns in Hins as (-> & Hfresh & Hq).
    apply IH in Hrest as (-> & Hf & -> & Hfresh' & Hnd & Hqs). simpl in *.
    split; [lia|]. split.
    { intros j Hj. destruct (decide (j = k)) as [->|]; [done|]. apply Hf. lia. }
    split; [by rewrite <- app_assoc|]. split.
    { intros c' r [->|Hc']%elem_of_cons Hr; [by apply Hfresh|].
      apply (Hfresh' c' r Hc'). apply elem_of_app. by left. }
    split.
    { constructor; [|done]. intros Hin.
      as_fmap in Hin.
      apply list_elem_of_fmap in Hin as (c' & Hn & Hc').
      apply (Hfresh' c' (DeckCardRow i (Parser.name c) e (Parser.count c)) Hc').
      - apply elem_of_app. right. by left.
      - done. }
    intros c' [->|Hc']%elem_of_cons; [done|by apply Hqs].
Qed.

Lemma insert_cards_succeeds (i : Z) (e : bool) (cards : list Parser.card)
    (k : nat) (d : db) :
  (forall j, (k <= j < k + length cards)%nat -> faults j = None) ->
  (forall c r, c ∈ cards -> r ∈ deck_cards d ->
               ~ (deck_id r = i /\ card_name r = Parser.name c)) ->
  NoDup (map Parser.name cards) ->
  (forall c, c ∈ cards -> - 2 ^ 63 <= Parser.count c < 2 ^ 63) ->
  insert_cards faults i e cards (k, d)
  = Returns (tt, ((k + length cards)%nat,
                  Db (decks d) (deck_cards d ++ map (card_row i e) cards) (decks_seq d))).
Proof.
  revert k d. induction cards as [|c cards IH]; intros k d Hf Hfresh Hnd Hq.
  - simpl. unfold ret. destruct d. simpl. rewrite app_nil_r.
    by replace (k + 0)%nat with k by lia.
  - cbn [insert_cards]. unfold bind, execute, update.
    rewrite Hf by (simpl; lia).
    rewrite insert_deck_card_fresh;
      [|intros r Hr; apply Hfresh; [by left|done]|apply Hq; by left].
    cbn [map] in Hnd. apply NoDup_cons in Hnd as [Hc Hnd].
    rewrite IH.
    + simpl. rewrite <- app_assoc. simpl.
      by replace (S (k + length cards))%nat with (k + S (length cards))%nat by lia.
    + intros j Hj. apply Hf. simpl. lia.
    + simpl. intros c' r Hc' [Hr|Hr%list_elem_of_singleton]%elem_of_app.
      * apply Hfresh; [by right|done].
      * subst r. simpl. intros [_ Hn]. apply Hc. rewrite Hn.
        as_fmap.
        by apply list_elem_of_fmap_2.
    + done.
    + intros c' Hc'. apply Hq. by right.
Qed.

(** ** The whole body *)

Lemma rows_of_all_cards (i : Z) (deck_info : Parser.deck_info) (rows : list deck_card_row) :
  (rows ++ map (card_row i false) (Parser.main_deck deck_info))
    ++ map (card_row i true) (Parser.extra_deck deck_info)
  = rows ++ rows_of i deck_info.
Proof. unfold rows_of. by rewrite app_assoc. Qed.

(** A run that returns has made every call without a fault and has
    appended the rows of the record to the prepared tables. *)
Lemma save_body_Returns (now : Z) (deck_info : Parser.deck_info) (d d' : db)
    (b : bool) (k : nat) :
  save_body faults now deck_info (0%nat, d) = Returns (b, (k, d')) ->
  b = true
  /\ k = storage_calls deck_info d
  /\ (forall j, (j < k)%nat -> faults j = None)
  /\ exists i d1,
       prepared now deck_info d i d1
       /\ insertable i deck_info d1
       /\ d' = Db (decks d1) (deck_cards d1 ++ rows_of i deck_info) (decks_seq d1).
Proof.
  unfold save_body, connect, commit.
  intros (? & [k1 d1] & Hconn & H1)%bind_Returns.
  apply execute_Returns in Hconn as (Hf0 & -> & [= _ <-]).
  apply bind_Returns in H1 as (existing & [k2 d2] & Hsel & H2).
  apply execute_Returns in Hsel as (Hf1 & -> & [= <- <-]).
  apply bind_Returns in H2 as (i & [k3 d3] & Hprep & H3).
  apply bind_Returns in H3 as (? & [k4 d4] & Hmain & H4).
  apply bind_Returns in H4 as (? & [k5 d5] & Hextra & H5).
  apply bind_Returns in H5 as (? & [k6 d6] & Hcommit & H6).
  apply execute_Returns in Hcommit as (Hf5 & -> & [= _ <-]).
  unfold ret in H6. injection H6 as <- <- <-.
  apply insert_cards_Returns in Hmain as (-> & Hfm & -> & Hfresh_m & Hnd_m & Hq_m).
  apply insert_cards_Returns in Hextra as (-> & Hfe & -> & Hfresh_e & Hnd_e & Hq_e).
  cbn [decks deck_cards decks_seq] in *.
  assert (Hins : insertable i deck_info d3).
  { unfold insertable, all_cards. split; [|split].
    - intros c r [Hc|Hc]%elem_of_app Hr; [by apply Hfresh_m|].
      apply (Hfresh_e c r Hc). apply elem_of_app. by left.
    - rewrite map_app. apply NoDup_app. split; [done|]. split; [|done].
      intros n Hn Hn'.
      as_fmap in Hn, Hn'.
      apply list_elem_of_fmap in Hn as (c1 & -> & Hc1).
      apply list_elem_of_fmap in Hn' as (c2 & Hn12 & Hc2).
      apply (Hfresh_e c2 (card_row i false c1) Hc2).
      + apply elem_of_app. right.
        as_fmap. by apply list_elem_of_fmap_2.
      + done.
    - intros c [Hc|Hc]%elem_of_app; [by apply Hq_m|by apply Hq_e]. }
  split; [done|].
  assert (Hshape : k3 = (2 + match select_deck_id (Parser.url deck_info) d with
                             | Some _ => 2 | None => 1 end)%nat
                   /\ (forall j, (2 <= j < k3)%nat -> faults j = None)
                   /\ prepared now deck_info d i d3).
  { unfold prepared. destruct (select_deck_id (Parser.url deck_info) d) as [existing|].
    - apply bind_Returns in Hprep as (? & [ka da] & Hup & Hp2).
      apply bind_Returns in Hp2 as (? & [kb db0] & Hdel & Hp3).
      apply execute_Returns in Hup as (Hf2 & -> & Hup).
      apply execute_Returns in Hdel as (Hf3 & -> & [= _ <-]).
      unfold ret in Hp3. injection Hp3 as <- <- <-.
      unfold update in Hup.
      destruct (update_deck _ _ _ _ d) as [d0|] eqn:Hupd; [|done].
      injection Hup as _ <-.
      split; [lia|]. split.
      + intros j Hj. assert (j = 2 \/ j = 3)%nat as [->| ->] by lia; done.
      + split; [done|]. by exists d0.
    - apply execute_Returns in Hprep as (Hf2 & -> & Hins0).
      split; [lia|]. split; [|done].
      intros j Hj. by assert (j = 2)%nat as -> by lia. }
  destruct Hshape as (-> & Hfp & Hprep').
  split; [unfold storage_calls; lia|]. split.
  - intros j Hj.
    destruct (decide (j = 0)%nat) as [->|]; [done|].
    destruct (decide (j = 1)%nat) as [->|]; [done|].
    set (k3 := (2 + match select_deck_id (Parser.url deck_info) d with
                    | Some _ => 2 | None => 1 end)%nat) in *.
    destruct (decide (j < k3)%nat); [apply Hfp; lia|].
    destruct (decide (j < k3 + length (Parser.main_deck deck_info))%nat);
      [apply Hfm; lia|].
    destruct (decide (j < k3 + length (Parser.main_deck deck_info)
                         + length (Parser.extra_deck deck_info))%nat);
      [apply Hfe; lia|].
    assert (j = k3 + length (Parser.main_deck deck_info)
                + length (Parser.extra_deck deck_info))%nat as -> by lia.
    done.
  - exists i, d3. split; [done|]. split; [done|]. by rewrite rows_of_all_cards.
Qed.

(** The converse: a run that meets no fault and can insert every card
    returns. *)
Lemma save_body_succeeds (now : Z) (deck_info : Parser.deck_info) (d d1 : db) (i : Z) :
  (forall j, (j < storage_calls deck_info d)%nat -> faults j = None) ->
  prepared now deck_info d i d1 ->
  insertable i deck_info d1 ->
  save_body faults now deck_info (0%nat, d)
  = Returns (true, (storage_calls deck_info d,
                    Db (decks d1) (deck_cards d1 ++ rows_of i deck_info) (decks_seq d1))).
Proof.
  unfold storage_calls, prepared, insertable, all_cards.
  intros Hf Hprep (Hfresh & Hnd & Hq).
  rewrite map_app in Hnd. apply NoDup_app in Hnd as (Hnd_m & Hdisj & Hnd_e).
  unfold save_body, connect, commit, bind. unfold execute at 1 2. unfold query.
  rewrite !Hf by lia.
  set (k3 := (2 + match select_deck_id (Parser.url deck_info) d with
                  | Some _ => 2 | None => 1 end)%nat) in *.
  assert (Hstep :
    match select_deck_id (Parser.url deck_info) d with
    | Some deck_id =>
        bind (execute faults
                (update (update_deck now (Parser.deck_name deck_info)
                                     (Parser.author deck_info) deck_id)))
          (fun _ => bind (execute faults
                            (update (fun d => Returns (delete_deck_cards deck_id d))))
                      (fun _ => ret deck_id))
    | None =>
        execute faults
          (insert_deck now (Parser.deck_name deck_info) (Parser.author deck_info)
                       (Parser.url deck_info))
    end (2%nat, d) = Returns (i, (k3, d1))).
  { subst k3. destruct (select_deck_id (Parser.url deck_info) d) as [existing|].
    - destruct Hprep as (-> & d0 & Hup & ->).
      unfold bind, execute, update, ret. rewrite (Hf 2%nat), Hup, (Hf 3%nat) by lia.
      done.
    - unfold execute. rewrite (Hf 2%nat), Hprep by lia. done. }
  unfold bind in Hstep. rewrite Hstep.
  rewrite insert_cards_succeeds; cycle 1.
  { intros j Hj. apply Hf. lia. }
  { intros c r Hc Hr. apply Hfresh; [|done]. apply elem_of_app. by left. }
  { done. }
  { intros c Hc. apply Hq. apply elem_of_app. by left. }
  rewrite insert_cards_succeeds; cycle 1.
  { intros j Hj. apply Hf. lia. }
  { cbn [deck_cards]. intros c r Hc [Hr|Hr]%elem_of_app.
    - apply Hfresh; [|done]. apply elem_of_app. by right.
    - as_fmap in Hr.
      apply list_elem_of_fmap in Hr as (c1 & -> & Hc1). simpl. intros [_ Hn].
      apply (Hdisj (Parser.name c1)).
      + as_fmap. by apply list_elem_of_fmap_2.
      + rewrite Hn. as_fmap. by apply list_elem_of_fmap_2. }
  { done. }
  { intros c Hc. apply Hq. apply elem_of_app. by right. }
  cbn [decks deck_cards decks_seq]. unfold execute. rewrite Hf by lia.
  unfold ret. rewrite rows_of_all_cards.
  repeat f_equal. lia.
Qed.

(** ** The call *)

Lemma save_deck_to_db_true (now : Z) (deck_info : Parser.deck_info) (d d' : db) :
  save_deck_to_db faults now deck_info d = (true, d') ->
  (forall j, (j < storage_calls deck_info d)%nat -> faults j = None)
  /\ exists i d1,
       prepared now deck_info d i d1
       /\ insertable i deck_info d1
       /\ d' = Db (decks d1) (deck_cards d1 ++ rows_of i deck_info) (decks_seq d1).
Proof.
  unfold save_deck_to_db.
  destruct (save_body faults now deck_info (0%nat, d)) as [[b [k d0]]|] eqn:E; [|done].
  intros [= -> ->].
  apply save_body_Returns in E as (_ & -> & Hf & Hrest). done.
Qed.

Lemma save_deck_to_db_false (now : Z) (deck_info : Parser.deck_info) (d : db) :
  (save_deck_to_db faults now deck_info d).1 = false ->
  save_deck_to_db faults now deck_info d = (false, d).
Proof.
  unfold save_deck_to_db.
  destruct (save_body faults now deck_info (0%nat, d)) as [[b [k d0]]|] eqn:E; [|done].
  apply save_body_Returns in E as (-> & _). done.
Qed.

(** The result is [True] with the new tables, or [False] with the old. *)
Lemma save_deck_to_db_cases (now : Z) (deck_info : Parser.deck_info) (d : db) :
  (exists d', save_deck_to_db faults now deck_info d = (true, d'))
  \/ save_deck_to_db faults now deck_info d = (false, d).
Proof.
  destruct (save_deck_to_db faults now deck_info d) as [[] d'] eqn:E.
  - left. by exists d'.
  - right. rewrite <- E. apply save_deck_to_db_false. by rewrite E.
Qed.

(** C9. Whatever the storage layer does, [save_deck_to_db] returns a
    Boolean and raises nothing. When the result is [False] the tables
    are those from before the call, deck row and association rows
    alike; and a fault at any of the storage calls of the run, from
    [connect] to [commit], makes the result [False]. *)
Theorem save_deck_to_db_atomic (now : Z) (deck_info : Parser.deck_info) (d : db) :
  (exists (b : bool) (d' : db), save_deck_to_db faults now deck_info d = (b, d'))
  /\ ((save_deck_to_db faults now deck_info d).1 = false ->
      (save_deck_to_db faults now deck_info d).2 = d)
  /\ ((exists k e, (k < storage_calls deck_info d)%nat /\ faults k = Some e) ->
      save_deck_to_db faults now deck_info d = (false, d)).
Proof.
  split; [|split].
  - destruct (save_deck_to_db faults now deck_info d) as [b d']. by exists b, d'.
  - intros Hb. by rewrite (save_deck_to_db_false _ _ _ Hb).
  - intros (k & e & Hk & He).
    destruct (save_deck_to_db_cases now deck_info d) as [[d' Hd']|Hd]; [|done].
    apply save_deck_to_db_true in Hd' as [Hf _].
    rewrite Hf in He by done. done.
Qed.

(** C10. A record that names one card in both sections is never stored:
    the key of [deck_cards] has no section flag, the second row of that
    name breaks it, and the call returns [False] and leaves the tables
    as they were. *)
Theorem save_deck_to_db_both_sections (now : Z) (deck_info : Parser.deck_info) (d : db)
    (c1 c2 : Parser.card) :
  c1 ∈ Parser.main_deck deck_info ->
  c2 ∈ Parser.extra_deck deck_info ->
  Parser.name c1 = Parser.name c2 ->
  save_deck_to_db faults now deck_info d = (false, d).
Proof.
  intros H1 H2 Hn.
  destruct (save_deck_to_db_cases now deck_info d) as [[d' Hd']|Hd]; [|done].
  apply save_deck_to_db_true in Hd' as (_ & i & d1 & _ & (_ & Hnd & _) & _).
  unfold all_cards in Hnd. rewrite map_app in Hnd.
  apply NoDup_app in Hnd as (_ & Hdisj & _).
  destruct (Hdisj (Parser.name c1)).
  - as_fmap. by apply list_elem_of_fmap_2.
  - rewrite Hn. as_fmap. by apply list_elem_of_fmap_2.
Qed.

(** ** The prepared tables *)

Lemma elem_of_list_filter {A} (f : A -> bool) (l : list A) (x : A) :
  x ∈ List.filter f l <-> x ∈ l /\ f x = true.
Proof. rewrite !list_elem_of_In. apply filter_In. Qed.

Lemma NoDup_map_filter {A B} (key : A -> B) (f : A -> bool) (l : list A) :
  NoDup (map key l) -> NoDup (map key (List.filter f l)).
Proof.
  induction l as [|x l IH]; [done|]. cbn [map List.filter].
  intros [Hx Hl]%NoDup_cons. destruct (f x); [|by apply IH].
  cbn [map]. apply NoDup_cons. split; [|by apply IH].
  intros Hin. apply Hx.
  as_fmap in *.
  apply list_elem_of_fmap in Hin as (y & -> & Hy).
  apply elem_of_list_filter in Hy as [Hy _]. by apply list_elem_of_fmap_2.
Qed.

Lemma select_deck_id_Some (u : string) (d : db) (i : Z) :
  select_deck_id u d = Some i -> exists r, r ∈ decks d /\ id r = i /\ url r = u.
Proof.
  unfold select_deck_id.
  destruct (List.filter _ (decks d)) as [|r rs] eqn:E; [done|].
  intros [= <-]. exists r.
  assert (Hr : r ∈ List.filter (fun r => bool_decide (url r = u)) (decks d))
    by (rewrite E; by left).
  apply elem_of_list_filter in Hr as [Hr Hu]. by apply bool_decide_eq_true in Hu.
Qed.

Lemma select_deck_id_None (u : string) (d : db) :
  select_deck_id u d = None -> List.filter (fun r => bool_decide (url r = u)) (decks d) = [].
Proof.
  unfold select_deck_id. by destruct (List.filter _ (decks d)).
Qed.

(** A statement that keeps the [id] and the [url] of every row keeps
    the answer of the [SELECT]. *)
Lemma select_deck_id_map (f : deck_row -> deck_row) (u : string)
    (rows : list deck_row) (cards cards' : list deck_card_row) (s s' : Z) :
  (forall r, id (f r) = id r /\ url (f r) = url r) ->
  select_deck_id u (Db (map f rows) cards' s') = select_deck_id u (Db rows cards s).
Proof.
  intros Hf. unfold select_deck_id. cbn [decks].
  induction rows as [|r rows IH]; [done|]. cbn [map List.filter].
  destruct (Hf r) as [Hi Hu]. rewrite Hu.
  destruct (bool_decide (url r = u)); [|exact IH]. simpl. by rewrite Hi.
Qed.

Lemma update_deck_Returns (now : Z) (n a : option string) (i : Z) (d d0 : db) :
  update_deck now n a i d = Returns d0 ->
  exists f, (forall r, id (f r) = id r /\ url (f r) = url r)
            /\ d0 = Db (map f (decks d)) (deck_cards d) (decks_seq d).
Proof.
  unfold update_deck. destruct n as [n|].
  - intros [= <-]. eexists. split; [|reflexivity].
    intros r. simpl. by destruct (bool_decide (id r = i)).
  - destruct (existsb _ _); [done|]. intros [= <-].
    exists (fun r => r). split; [done|]. destruct d. simpl. by rewrite map_id.
Qed.

Lemma insert_deck_Returns (now : Z) (n a : option string) (u : string) (d d1 : db) (i : Z) :
  insert_deck now n a u d = Returns (i, d1) ->
  exists n', n = Some n'
    /\ i = Z.max (decks_seq d) (max_id (decks d)) + 1
    /\ d1 = Db (decks d ++ [DeckRow i n' a u now now]) (deck_cards d) i
    /\ forall r, r ∈ decks d -> url r <> u.
Proof.
  unfold insert_deck. destruct n as [n'|]; [|done].
  destruct (existsb _ _) eqn:Hex; [done|]. intros [= <- <-].
  exists n'. split; [done|]. split; [done|]. split; [done|].
  intros r Hr Hu.
  assert (existsb (fun r => bool_decide (url r = u)) (decks d) = true); [|congruence].
  apply existsb_exists. exists r. split; [by apply list_elem_of_In|].
  by apply bool_decide_eq_true_2.
Qed.

Lemma max_id_ge (rows : list deck_row) (r : deck_row) :
  r ∈ rows -> id r <= max_id rows.
Proof.
  induction rows as [|x rows IH]; [by intros ?%elem_of_nil|].
  simpl. intros [->|Hr]%elem_of_cons; [lia|]. apply IH in Hr. lia.
Qed.

Lemma prepared_select (now : Z) (deck_info : Parser.deck_info) (d d1 : db) (i : Z) :
  prepared now deck_info d i d1 ->
  select_deck_id (Parser.url deck_info) d1 = Some i.
Proof.
  unfold prepared.
  destruct (select_deck_id (Parser.url deck_info) d) as [existing|] eqn:Hsel.
  - intros (-> & d0 & Hup & ->).
    apply update_deck_Returns in Hup as (f & Hf & ->).
    unfold delete_deck_cards. cbn [decks deck_cards decks_seq].
    rewrite (select_deck_id_map f _ _ (deck_cards d) _ (decks_seq d)) by done.
    by destruct d.
  - intros (n' & _ & _ & -> & _)%insert_deck_Returns.
    unfold select_deck_id. cbn [decks].
    rewrite List.filter_app, (select_deck_id_None _ _ Hsel). simpl.
    by rewrite bool_decide_eq_true_2.
Qed.

Lemma prepared_no_rows (now : Z) (deck_info : Parser.deck_info) (d d1 : db) (i : Z) :
  wf d -> prepared now deck_info d i d1 ->
  forall r, r ∈ deck_cards d1 -> deck_id r <> i.
Proof.
  intros Hwf. unfold prepared.
  destruct (select_deck_id (Parser.url deck_info) d) as [existing|] eqn:Hsel.
  - intros (-> & d0 & Hup & ->) r Hr.
    unfold delete_deck_cards in Hr. cbn [deck_cards] in Hr.
    apply elem_of_list_filter in Hr as [_ Hr].
    by apply negb_true_iff, bool_decide_eq_false in Hr.
  - intros (n' & _ & -> & -> & _)%insert_deck_Returns r Hr. cbn [deck_cards] in Hr.
    pose proof (wf_card_seq d Hwf) as Hseq. rewrite Forall_forall in Hseq.
    specialize (Hseq r Hr). simpl in Hseq. lia.
Qed.

Lemma prepared_wf (now : Z) (deck_info : Parser.deck_info) (d d1 : db) (i : Z) :
  wf d -> prepared now deck_info d i d1 -> wf d1 /\ i <= decks_seq d1.
Proof.
  intros [Hids Hurls Hkeys Hdseq Hcseq]. unfold prepared.
  destruct (select_deck_id (Parser.url deck_info) d) as [existing|] eqn:Hsel.
  - intros (-> & d0 & Hup & ->).
    apply update_deck_Returns in Hup as (f & Hf & ->).
    unfold delete_deck_cards. cbn [decks deck_cards decks_seq]. split.
    + split; cbn [decks deck_cards decks_seq].
      * rewrite map_map. erewrite map_ext; [exact Hids|]. intros r. apply Hf.
      * rewrite map_map. erewrite map_ext; [exact Hurls|]. intros r. apply Hf.
      * by apply NoDup_map_filter.
      * as_fmap. apply Forall_fmap.
        eapply Forall_impl; [exact Hdseq|]. intros r Hr. simpl.
        by destruct (Hf r) as [-> _].
      * rewrite Forall_forall in Hcseq. apply Forall_forall.
        intros r [Hr _]%elem_of_list_filter. by apply Hcseq.
    + apply select_deck_id_Some in Hsel as (r & Hr & <- & _).
      rewrite Forall_forall in Hdseq. by apply Hdseq.
  - intros (n' & _ & -> & -> & Hfresh)%insert_deck_Returns.
    set (i := Z.max (decks_seq d) (max_id (decks d)) + 1).
    split; [|cbn [decks_seq]; lia].
    split; cbn [decks deck_cards decks_seq].
    + rewrite map_app. apply NoDup_app. split; [done|]. split; [|apply NoDup_singleton].
      intros x Hx. as_fmap in Hx.
      apply list_elem_of_fmap in Hx as (r & -> & Hr).
      simpl. intros Hi%list_elem_of_singleton.
      pose proof (max_id_ge _ _ Hr). lia.
    + rewrite map_app. apply NoDup_app. split; [done|]. split; [|apply NoDup_singleton].
      intros x Hx. as_fmap in Hx.
      apply list_elem_of_fmap in Hx as (r & -> & Hr).
      simpl. intros Hu%list_elem_of_singleton. by apply (Hfresh r).
    + done.
    + apply Forall_app. split.
      * eapply Forall_impl; [exact Hdseq|]. intros r Hr. simpl in *. lia.
      * apply Forall_singleton. simpl. lia.
    + eapply Forall_impl; [exact Hcseq|]. intros r Hr. simpl in *. lia.
Qed.

Lemma prepared_name (now : Z) (deck_info : Parser.deck_info) (d d1 : db) (i : Z) :
  prepared now deck_info d i d1 -> exists n, Parser.deck_name deck_info = Some n.
Proof.
  unfold prepared.
  destruct (select_deck_id (Parser.url deck_info) d) as [existing|] eqn:Hsel.
  - intros (-> & d0 & Hup & ->). unfold update_deck in Hup.
    destruct (Parser.deck_name deck_info) as [n|]; [by exists n|].
    apply select_deck_id_Some in Hsel as (r & Hr & Hi & _).
    assert (existsb (fun r => bool_decide (id r = existing)) (decks d) = true) as Hex.
    { apply existsb_exists. exists r. split; [by apply list_elem_of_In|].
      by apply bool_decide_eq_true_2. }
    by rewrite Hex in Hup.
  - intros (n' & Hn & _)%insert_deck_Returns. by exists n'.
Qed.

Lemma filter_rows_of (i : Z) (deck_info : Parser.deck_info) :
  List.filter (fun r => bool_decide (deck_id r = i)) (rows_of i deck_info)
  = rows_of i deck_info.
Proof.
  apply forallb_filter_id, forallb_forall. intros r Hr%list_elem_of_In.
  unfold rows_of in Hr. as_fmap in Hr.
  apply elem_of_app in Hr as [Hr|Hr];
    apply list_elem_of_fmap in Hr as (c & -> & _); by apply bool_decide_eq_true_2.
Qed.

(** The association rows of the deck, once the rows of the record are
    appended to tables that hold none for its id. *)
Lemma associations_appended (deck_info : Parser.deck_info) (d1 : db) (i : Z) :
  select_deck_id (Parser.url deck_info) d1 = Some i ->
  (forall r, r ∈ deck_cards d1 -> deck_id r <> i) ->
  associations (Db (decks d1) (deck_cards d1 ++ rows_of i deck_info) (decks_seq d1))
               (Parser.url deck_info)
  = rows_of i deck_info.
Proof.
  intros Hsel Hnone. unfold associations.
  assert (select_deck_id (Parser.url deck_info)
            (Db (decks d1) (deck_cards d1 ++ rows_of i deck_info) (decks_seq d1))
          = Some i) as -> by exact Hsel.
  cbn [deck_cards]. rewrite List.filter_app, filter_rows_of.
  rewrite list_filter_none; [done|].
  intros r Hr. by apply bool_decide_eq_false_2, Hnone.
Qed.

Lemma appended_wf (deck_info : Parser.deck_info) (d1 : db) (i : Z) :
  wf d1 -> i <= decks_seq d1 ->
  (forall r, r ∈ deck_cards d1 -> deck_id r <> i) ->
  NoDup (map Parser.name (all_cards deck_info)) ->
  wf (Db (decks d1) (deck_cards d1 ++ rows_of i deck_info) (decks_seq d1)).
Proof.
  intros [Hids Hurls Hkeys Hdseq Hcseq] Hi Hnone Hnd.
  assert (Hrows : rows_of i deck_info
                  = map (fun ec => card_row i ec.1 ec.2)
                        (map (pair false) (Parser.main_deck deck_info)
                         ++ map (pair true) (Parser.extra_deck deck_info))).
  { unfold rows_of. by rewrite map_app, !map_map. }
  split; cbn [decks deck_cards decks_seq]; try done.
  - rewrite map_app. apply NoDup_app. split; [done|]. split.
    + intros key Hk Hk'.
      as_fmap in Hk, Hk'.
      apply list_elem_of_fmap in Hk as (r & -> & Hr).
      apply list_elem_of_fmap in Hk' as (r' & Hkey & Hr').
      apply (Hnone r Hr). injection Hkey as -> _.
      rewrite Hrows in Hr'. as_fmap in Hr'.
      by apply list_elem_of_fmap in Hr' as (ec & -> & _).
    + rewrite Hrows, map_map. simpl.
      apply (NoDup_fmap_1 snd).
      change (snd <$> map ?f ?l) with (map snd (map f l)).
      rewrite map_map. simpl.
      unfold all_cards in Hnd. rewrite map_app in Hnd.
      by rewrite map_app, !map_map.
  - apply Forall_app. split; [done|]. apply Forall_forall. intros r Hr.
    rewrite Hrows in Hr. as_fmap in Hr.
    by apply list_elem_of_fmap in Hr as (ec & -> & _).
Qed.

(** The invariant does not ask for a deck behind every association
    row, and so survives the deletion of old decks. *)
Lemma delete_old_decks_wf (cutoff : Z) (d : db) : wf d -> wf (delete_old_decks cutoff d).
Proof.
  intros [Hids Hurls Hkeys Hdseq Hcseq].
  split; unfold delete_old_decks; cbn [decks deck_cards decks_seq]; try done.
  - by apply NoDup_map_filter.
  - by apply NoDup_map_filter.
  - rewrite Forall_forall in Hdseq. apply Forall_forall.
    intros r [Hr _]%elem_of_list_filter. by apply Hdseq.
Qed.

(** The invariant of the tables survives every call. *)
Lemma save_deck_to_db_wf (now : Z) (deck_info : Parser.deck_info) (d : db) :
  wf d -> wf (save_deck_to_db faults now deck_info d).2.
Proof.
  intros Hwf.
  destruct (save_deck_to_db_cases now deck_info d) as [[d' Hd']|Hd];
    [|by rewrite Hd].
  rewrite Hd'. cbn [snd].
  apply save_deck_to_db_true in Hd' as (_ & i & d1 & Hprep & (_ & Hnd & _) & ->).
  destruct (prepared_wf _ _ _ _ _ Hwf Hprep) as [Hwf1 Hi].
  apply appended_wf;
    [done|done|exact (prepared_no_rows _ _ _ _ _ Hwf Hprep)|done].
Qed.

End StoreFacts.

Section StoreReplace.
Import Py Store.

(** After a successful call the association rows of the deck are those
    of the record. *)
Lemma save_deck_to_db_rows (faults : nat -> option exn) (now : Z)
    (deck_info : Parser.deck_info) (d d' : db) :
  wf d ->
  save_deck_to_db faults now deck_info d = (true, d') ->
  exists i,
    select_deck_id (Parser.url deck_info) d' = Some i
    /\ associations d' (Parser.url deck_info) = rows_of i deck_info
    /\ insertable i deck_info (delete_deck_cards i d')
    /\ exists n, Parser.deck_name deck_info = Some n.
Proof.
  intros Hwf Hsave.
  apply save_deck_to_db_true in Hsave as (_ & i & d1 & Hprep & Hins & ->).
  pose proof (prepared_select _ _ _ _ _ Hprep) as Hsel.
  pose proof (prepared_no_rows _ _ _ _ _ Hwf Hprep) as Hnone.
  exists i. split; [exact Hsel|]. split; [by apply associations_appended|].
  split; [|by eapply prepared_name].
  destruct Hins as (_ & Hnd & Hq). split; [|done].
  intros c r _ Hr. unfold delete_deck_cards in Hr. cbn [deck_cards] in Hr.
  apply elem_of_list_filter in Hr as [_ Hr].
  apply negb_true_iff, bool_decide_eq_false in Hr. tauto.
Qed.

(** C8. After a successful upsert of a record into well-formed tables,
    the stored association rows of the deck with the url of the record
    are the rows of its [main_deck] followed by those of its
    [extra_deck], whatever rows the deck had before. Upserting the same
    record again succeeds when the storage layer does not fail, and
    whenever it succeeds the rows are the same; and after a later
    upsert at the same url, no row is left for a card that the later
    record does not name. *)
Theorem save_deck_to_db_replaces (faults : nat -> option exn) (now : Z)
    (deck_info : Parser.deck_info) (d d' : db) :
  wf d ->
  save_deck_to_db faults now deck_info d = (true, d') ->
  (exists i,
     select_deck_id (Parser.url deck_info) d' = Some i
     /\ associations d' (Parser.url deck_info) = rows_of i deck_info)
  /\ (forall now2, exists d'', save_deck_to_db no_faults now2 deck_info d' = (true, d''))
  /\ (forall faults2 now2 d'',
        save_deck_to_db faults2 now2 deck_info d' = (true, d'') ->
        associations d'' (Parser.url deck_info) = associations d' (Parser.url deck_info))
  /\ (forall faults2 now2 later d'' n,
        Parser.url later = Parser.url deck_info ->
        save_deck_to_db faults2 now2 later d' = (true, d'') ->
        n ∉ map Parser.name (all_cards later) ->
        forall r, r ∈ associations d'' (Parser.url deck_info) -> card_name r <> n).
Proof.
  intros Hwf Hsave.
  pose proof (save_deck_to_db_wf faults now deck_info d Hwf) as Hwf'.
  rewrite Hsave in Hwf'. cbn [snd] in Hwf'.
  destruct (save_deck_to_db_rows _ _ _ _ _ Hwf Hsave)
    as (i & Hsel & Hrows & Hins & n & Hname).
  split; [by exists i|]. split; [|split].
  - intros now2. eexists. unfold save_deck_to_db.
    rewrite (save_body_succeeds no_faults now2 deck_info d'
               (delete_deck_cards i
                  (Db (map (fun r => if bool_decide (id r = i)
                                     then DeckRow (id r) n (Parser.author deck_info)
                                                  (url r) (created_at r) now2
                                     else r) (decks d'))
                      (deck_cards d') (decks_seq d'))) i);
      [reflexivity|done| |exact Hins].
    unfold prepared. rewrite Hsel. split; [done|].
    eexists. split; [|reflexivity]. unfold update_deck. by rewrite Hname.
  - intros faults2 now2 d'' Hsave2.
    destruct (save_deck_to_db_rows _ _ _ _ _ Hwf' Hsave2) as (i2 & Hsel2 & Hrows2 & _).
    rewrite Hrows2, Hrows. f_equal.
    apply save_deck_to_db_true in Hsave2 as (_ & j & d1 & Hprep & _ & ->).
    pose proof (prepared_select _ _ _ _ _ Hprep) as Hselj.
    assert (j = i2) as ->.
    { unfold select_deck_id in Hsel2, Hselj. cbn [decks] in Hsel2. congruence. }
    unfold prepared in Hprep. rewrite Hsel in Hprep. by destruct Hprep as [-> _].
  - intros faults2 now2 later d'' n0 Hurl Hsave2 Hn r Hr.
    destruct (save_deck_to_db_rows _ _ _ _ _ Hwf' Hsave2) as (i2 & _ & Hrows2 & _).
    rewrite <- Hurl, Hrows2 in Hr. intros <-. apply Hn.
    unfold rows_of, all_cards in *.
    as_fmap in *.
    apply elem_of_app in Hr as [Hr|Hr];
      apply list_elem_of_fmap in Hr as (c & -> & Hc);
      apply (list_elem_of_fmap_2 Parser.name _ c), elem_of_app; tauto.
Qed.

End StoreReplace.

Section StoreScenarios.
Import Py Store.

Lemma wf_empty_db : wf empty_db.
Proof. split; simpl; constructor. Qed.

Lemma save_deck_to_db_replaces_witness :
  exists i,
    select_deck_id (Parser.url sample_deck) stored_sample = Some i
    /\ associations stored_sample (Parser.url sample_deck) = rows_of i sample_deck.
Proof.
  apply (save_deck_to_db_replaces no_faults 100 sample_deck empty_db stored_sample).
  - exact wf_empty_db.
  - vm_compute. reflexivity.
Defined.

Lemma save_deck_to_db_both_sections_witness :
  save_deck_to_db no_faults 100 clash_deck stored_sample = (false, stored_sample).
Proof.
  apply (save_deck_to_db_both_sections no_faults 100 clash_deck stored_sample
           (Parser.Card "Ash Blossom" 3) (Parser.Card "Ash Blossom" 1)).
  - apply list_elem_of_In. simpl. tauto.
  - apply list_elem_of_In. simpl. tauto.
  - reflexivity.
Defined.

(** The first import gives the deck the id 1 and three rows. *)
Example save_sample :
  save_deck_to_db no_faults 100 sample_deck empty_db
  = (true,
     Db [DeckRow 1 "Branded Despia" None (Parser.url sample_deck) 100 100]
        [DeckCardRow 1 "Aluber the Jester of Despia" false 3;
         DeckCardRow 1 "Branded Fusion" false 3;
         DeckCardRow 1 "Mirrorjade the Iceblade Dragon" true 1]
        1).
Proof. vm_compute. reflexivity. Qed.

(** An import at the same url without "Branded Fusion" leaves no row
    for it, and keeps the id and the creation time of the deck. *)
Example save_sample_later :
  save_deck_to_db no_faults 200 sample_deck_later stored_sample
  = (true,
     Db [DeckRow 1 "Branded Despia" None (Parser.url sample_deck) 100 200]
        [DeckCardRow 1 "Aluber the Jester of Despia" false 3;
         DeckCardRow 1 "Mirrorjade the Iceblade Dragon" true 2]
        1).
Proof. vm_compute. reflexivity. Qed.

(** A failure of [commit], the last of the seven calls of that import,
    leaves the three rows of the first import in place. *)
Example save_sample_later_commit_fails :
  storage_calls sample_deck_later stored_sample = 7%nat
  /\ save_deck_to_db (fault_at 6) 200 sample_deck_later stored_sample
     = (false, stored_sample).
Proof. split; vm_compute; reflexivity. Qed.

End StoreScenarios.

(* ===================================================================== *)
(** * The name scorer and its callers: further properties *)
(* ===================================================================== *)

Section ScorerOrder.
Import Py Scorer.

Lemma scored_perm (c1 c2 : list string) (search_terms : string) :
  c1 ≡ₚ c2 -> scored c1 search_terms ≡ₚ scored c2 search_terms.
Proof.
  intros Hp. unfold scored. rewrite !list_filter_bool.
  as_fmap. by rewrite Hp.
Qed.

(** Two descending lists with the same elements are equal. *)
Lemma descending_unique (l1 l2 : list (Z * string)) :
  descending l1 -> descending l2 -> l1 ≡ₚ l2 -> l1 = l2.
Proof.
  apply StronglySorted_unique_strong.
  intros p q _ _ Hpq Hqp.
  destruct (decide (p = q)) as [|Hne]; [done|].
  pose proof (tuple_lt_total _ _ Hne Hpq). congruence.
Qed.

(** The suggestions do not depend on the order in which the catalog is
    iterated: two catalogs with the same names give the same result,
    returned list or exception, for every query and every bound. *)
Theorem scorer_order_independent (c1 c2 : list string) (search_terms : string)
    (max_suggestions : Z) :
  c1 ≡ₚ c2 ->
  get_card_suggestions c1 search_terms max_suggestions
  = get_card_suggestions c2 search_terms max_suggestions.
Proof.
  intros Hp.
  destruct (split (lower search_terms)) as [|w ws] eqn:E.
  - rewrite !suggestions_without_words by done.
    destruct c1 as [|x c1], c2 as [|y c2]; try done.
    + by apply Permutation_nil_cons in Hp.
    + symmetry in Hp. by apply Permutation_nil_cons in Hp.
  - rewrite !suggestions_with_words by (rewrite E; done).
    do 3 f_equal. apply descending_unique; try apply sort_reverse_descending.
    rewrite !sort_reverse_perm. by apply scored_perm.
Qed.

Lemma scorer_order_independent_witness :
  get_card_suggestions ["Dark Magician Girl"; "Dark Magician"] "magician" 5
  = get_card_suggestions ["Dark Magician"; "Dark Magician Girl"] "magician" 5.
Proof.
  apply (scorer_order_independent
           ["Dark Magician Girl"; "Dark Magician"] ["Dark Magician"; "Dark Magician Girl"]).
  apply Permutation_swap.
Defined.

Lemma slice_to_length {A} (l : list A) (n : Z) :
  Z.of_nat (length (slice_to l n))
  = if n <? 0 then Z.max (Z.of_nat (length l) + n) 0 else Z.min n (Z.of_nat (length l)).
Proof.
  unfold slice_to. destruct (Z.ltb_spec n 0); rewrite length_take; lia.
Qed.

(** The number of catalog entries that pass the filter of a query. *)
Lemma scored_length (card_database : list string) (search_terms : string) :
  length (scored card_database search_terms)
  = length (List.filter (passes search_terms) card_database).
Proof. unfold scored. apply length_map. Qed.

(** The number of names returned. *)
Lemma suggestions_length (card_database : list string) (search_terms : string)
    (max_suggestions : Z) (names : list string) :
  get_card_suggestions card_database search_terms max_suggestions = Returns names ->
  Z.of_nat (length names)
  = let passing := Z.of_nat (length (List.filter (passes search_terms) card_database)) in
    if max_suggestions <? 0 then Z.max (passing + max_suggestions) 0
    else Z.min max_suggestions passing.
Proof.
  intros Hret. cbv zeta. destruct (split (lower search_terms)) as [|w ws] eqn:E.
  - rewrite suggestions_without_words in Hret by done.
    destruct card_database; [|done]. injection Hret as <-. simpl.
    destruct (max_suggestions <? 0) eqn:En; [|apply Z.ltb_ge in En]; lia.
  - rewrite suggestions_with_words in Hret by (rewrite E; done).
    injection Hret as <-.
    rewrite length_map, slice_to_length.
    rewrite (Permutation_length (sort_reverse_perm _)), scored_length. done.
Qed.



Lemma list_filter_nil_iff {A} (f : A -> bool) (l : list A) :
  List.filter f l = [] <-> forall x, x ∈ l -> f x = false.
Proof.
  split; [|apply list_filter_none].
  intros Hnil x Hx. destruct (f x) eqn:E; [|done].
  assert (x ∈ List.filter f l) as Hin by (apply elem_of_list_filter; done).
  rewrite Hnil in Hin. by apply elem_of_nil in Hin.
Qed.

(** For a query with a word and a bound of at least one, the scorer
    returns the empty list exactly when no catalog name holds all the
    words of the query: "not found" is never the answer while a name
    passes the filter. *)
Theorem scorer_empty_iff_no_candidate (card_database : list string)
    (search_terms : string) (max_suggestions : Z) :
  split (lower search_terms) <> [] ->
  1 <= max_suggestions ->
  get_card_suggestions card_database search_terms max_suggestions = Returns []
  <-> forall card_name, card_name ∈ card_database -> passes search_terms card_name = false.
Proof.
  intros Hw Hn. rewrite suggestions_with_words by done.
  rewrite <- list_filter_nil_iff. split.
  - intros [= Hnil]. apply (f_equal length) in Hnil.
    rewrite length_map in Hnil. apply (f_equal Z.of_nat) in Hnil.
    rewrite slice_to_length in Hnil.
    rewrite (Permutation_length (sort_reverse_perm _)), scored_length in Hnil.
    destruct (Z.ltb_spec max_suggestions 0); [lia|].
    apply length_zero_iff_nil. simpl in Hnil. lia.
  - intros Hnil. unfold scored. rewrite Hnil. simpl.
    unfold slice_to. by destruct (max_suggestions <? 0); rewrite ?take_nil.
Qed.

Lemma scorer_empty_iff_no_candidate_witness :
  get_card_suggestions ["Dark Magician"; "Blue-Eyes White Dragon"] "kuriboh" 5 = Returns []
  <-> forall card_name,
        card_name ∈ ["Dark Magician"; "Blue-Eyes White Dragon"] ->
        passes "kuriboh" card_name = false.
Proof.
  apply (scorer_empty_iff_no_candidate ["Dark Magician"; "Blue-Eyes White Dragon"]
           "kuriboh" 5).
  - vm_compute. discriminate.
  - lia.
Defined.

End ScorerOrder.

Section CommandFacts.
Import Py Scorer Commands.

Lemma find_exact_Some (name : string) (suggestions : list string) (m : string) :
  find_exact name suggestions = Some m ->
  m ∈ suggestions /\ lower m = lower name.
Proof.
  induction suggestions as [|s rest IH]; simpl; [done|].
  case_bool_decide as E.
  - intros [= <-]. split; [by left|done].
  - intros H. destruct (IH H). split; [by right|done].
Qed.

Lemma find_exact_None (name : string) (suggestions : list string) :
  find_exact name suggestions = None ->
  forall s, s ∈ suggestions -> lower s <> lower name.
Proof.
  induction suggestions as [|s rest IH]; simpl; [by intros _ x ?%elem_of_nil|].
  case_bool_decide as E; [done|].
  intros H x [->|Hx]%elem_of_cons; [done|by apply IH].
Qed.

Lemma lower_nil (s : string) : lower s = EmptyString -> s = EmptyString.
Proof. by destruct s. Qed.

(** What each answer of [search_card] means. "Not loaded" is given for
    the empty catalog only, and "no cards found" only when no catalog
    name passes the filter. A matched name is a catalog name that passes
    the filter; it equals the query but for case, or is the only
    suggestion. The list of suggestions is shown only when it has two to
    five names, none of which equals the query but for case. *)
Theorem search_card_outcomes (card_database : list string) (name : string)
    (outcome : card_outcome) :
  search_card card_database name = Returns outcome ->
  match outcome with
  | NotLoaded => card_database = []
  | NoCardsFound =>
      forall card_name, card_name ∈ card_database -> passes name card_name = false
  | Matched matched_name =>
      matched_name ∈ card_database
      /\ passes name matched_name = true
      /\ (lower matched_name = lower name
          \/ get_card_suggestions card_database name 5 = Returns [matched_name])
  | Suggestions l =>
      get_card_suggestions card_database name 5 = Returns l
      /\ (2 <= length l <= 5)%nat
      /\ forall s, s ∈ l -> lower s <> lower name
  end.
Proof.
  unfold search_card.
  destruct card_database as [|k ks] eqn:Hdb; [by intros [= <-]|]. rewrite <- Hdb in *.
  destruct (get_card_suggestions card_database name 5) as [suggestions|] eqn:Hsug; [|done].
  assert (Hwords : split (lower name) <> []).
  { intros Hw. rewrite suggestions_without_words in Hsug by done. by rewrite Hdb in Hsug. }
  destruct suggestions as [|first others] eqn:Hs.
  { intros [= <-]. apply list_filter_nil_iff, length_zero_iff_nil.
    pose proof (suggestions_length _ _ _ _ Hsug) as Hlen. cbv zeta in Hlen.
    change (5 <? 0) with false in Hlen. cbv iota in Hlen. simpl in Hlen. lia. }
  rewrite <- Hs in *.
  assert (Hin : forall s, s ∈ suggestions ->
                          s ∈ card_database /\ passes name s = true)
    by (intros s; apply (returned_is_scored _ _ _ _ _ Hsug)).
  pose proof (suggestions_length _ _ _ _ Hsug) as Hlen. cbv zeta in Hlen.
  change (5 <? 0) with false in Hlen. cbv iota in Hlen.
  destruct (find_exact name suggestions) as [m|] eqn:Hfind; simpl.
  - apply find_exact_Some in Hfind as [Hm Hlow].
    destruct (Hin m Hm) as [Hdbm Hpass].
    destruct m as [|c m']; simpl.
    + symmetry in Hlow. apply lower_nil in Hlow. subst name. by destruct Hwords.
    + intros [= <-]. split; [done|]. split; [done|]. by left.
  - pose proof (find_exact_None _ _ Hfind) as Hnone.
    destruct others as [|second others'].
    + intros [= <-]. subst suggestions.
      destruct (Hin first) as [? ?]; [by left|]. split; [done|]. split; [done|]. by right.
    + intros [= <-]. split; [done|]. split; [|done].
      subst suggestions. simpl in *. lia.
Qed.

Lemma search_card_outcomes_witness :
  get_card_suggestions ["Dark Magician"; "Dark Magician Girl"; "Dark Hole"] "dark" 5
  = Returns ["Dark Hole"; "Dark Magician"; "Dark Magician Girl"]
  /\ (2 <= length ["Dark Hole"; "Dark Magician"; "Dark Magician Girl"] <= 5)%nat
  /\ forall s, s ∈ ["Dark Hole"; "Dark Magician"; "Dark Magician Girl"] ->
               lower s <> lower "dark".
Proof.
  apply (search_card_outcomes ["Dark Magician"; "Dark Magician Girl"; "Dark Hole"] "dark"
           (Suggestions ["Dark Hole"; "Dark Magician"; "Dark Magician Girl"])).
  vm_compute. reflexivity.
Defined.

Lemma str_take_length (n : nat) (s : string) : (String.length (str_take n s) <= n)%nat.
Proof.
  revert s. induction n as [|n IH]; intros [|c s]; simpl; try lia.
  specialize (IH s). lia.
Qed.

(** The autocomplete never offers more than 25 choices, and the name and
    the value of a choice are one string of at most 100 characters, the
    start of a catalog name. *)
Theorem autocomplete_within_limits (card_database : list string) (current : string)
    (choices : list choice) :
  card_name_autocomplete card_database current = Returns choices ->
  (length choices <= 25)%nat
  /\ forall c, c ∈ choices ->
       choice_value c = choice_name c
       /\ (String.length (choice_name c) <= 100)%nat
       /\ exists card_name, card_name ∈ card_database
                            /\ choice_name c = str_take 100 card_name.
Proof.
  unfold card_name_autocomplete.
  destruct (negb (Parser.nonempty current)) eqn:Hcur.
  - intros [= <-]. split.
    + rewrite length_map. unfold slice_to. simpl. rewrite length_take. lia.
    + intros c Hc. as_fmap in Hc. apply list_elem_of_fmap in Hc as (k & -> & Hk).
      split; [reflexivity|]. split; [exact (str_take_length 100 k)|].
      exists k. split; [|reflexivity]. by apply (slice_to_subseteq card_database 25).
  - destruct (get_card_suggestions card_database current 25) as [names|] eqn:Hsug; [|done].
    intros [= <-]. split.
    + rewrite length_map.
      destruct (split (lower current)) as [|w ws] eqn:E.
      * rewrite suggestions_without_words in Hsug by done.
        destruct card_database; [|done]. injection Hsug as <-. simpl. lia.
      * rewrite suggestions_with_words in Hsug by (rewrite E; done).
        injection Hsug as <-. rewrite length_map. unfold slice_to. simpl.
        rewrite length_take. lia.
    + intros c Hc. as_fmap in Hc. apply list_elem_of_fmap in Hc as (k & -> & Hk).
      split; [reflexivity|]. split; [exact (str_take_length 100 k)|].
      exists k. split; [|reflexivity]. by destruct (returned_is_scored _ _ _ _ _ Hsug Hk).
Qed.

Lemma autocomplete_within_limits_witness :
  (length [Choice "Dark Magician" "Dark Magician"] <= 25)%nat
  /\ forall c, c ∈ [Choice "Dark Magician" "Dark Magician"] ->
       choice_value c = choice_name c
       /\ (String.length (choice_name c) <= 100)%nat
       /\ exists card_name, card_name ∈ ["Dark Magician"; "Blue-Eyes White Dragon"]
                            /\ choice_name c = str_take 100 card_name.
Proof.
  apply (autocomplete_within_limits ["Dark Magician"; "Blue-Eyes White Dragon"] "magi").
  vm_compute. reflexivity.
Defined.

(** A string without words does not start with a word. *)
Lemma no_words_not_number (s : string) :
  split s = [] -> startswith s "number" = false.
Proof.
  destruct s as [|c s]; [done|]. intros Hs.
  destruct (isspace c) eqn:Hc.
  - cbn [startswith]. destruct (ascii_dec "n" c) as [<-|]; [|done].
    vm_compute in Hc. discriminate Hc.
  - destruct (split_first_word c s Hc) as (w & ws & Hw & _). congruence.
Qed.

(** A query of whitespace only, with a catalog that is not empty, makes
    each of the three callers of the scorer raise [IndexError]: none of
    them catches what [get_card_suggestions] raises, and the test [not
    current] of the autocomplete lets such a query through. *)
Theorem blank_query_raises (card_database : list string) (query : string) :
  card_database <> [] ->
  query <> EmptyString ->
  split (lower query) = [] ->
  card_name_autocomplete card_database query = Raises IndexError
  /\ search_card card_database query = Raises IndexError
  /\ search_decks card_database query = Raises IndexError.
Proof.
  intros Hdb Hq Hw.
  assert (Hsug : forall n, get_card_suggestions card_database query n = Raises IndexError).
  { intros n. rewrite suggestions_without_words by done. by destruct card_database. }
  split; [|split].
  - unfold card_name_autocomplete. destruct query; [done|]. simpl negb. cbv iota.
    by rewrite Hsug.
  - unfold search_card. destruct card_database; [done|]. by rewrite Hsug.
  - unfold search_decks. destruct card_database; [done|]. cbv zeta.
    by rewrite (no_words_not_number _ Hw), Hsug.
Qed.

Lemma blank_query_raises_witness :
  card_name_autocomplete ["Dark Magician"] " " = Raises IndexError
  /\ search_card ["Dark Magician"] " " = Raises IndexError
  /\ search_decks ["Dark Magician"] " " = Raises IndexError.
Proof.
  apply (blank_query_raises ["Dark Magician"] " "); [done|done|reflexivity].
Defined.

End CommandFacts.

Section DeckSearchFacts.
Import Py Scorer Commands.

Lemma str_lt_asym (a b : string) : str_lt a b = true -> str_lt b a = false.
Proof.
  intros H. destruct (str_lt b a) eqn:E; [|done].
  pose proof (str_lt_trans _ _ _ H E) as F. by rewrite str_lt_irrefl in F.
Qed.

Lemma insert_sorted_perm (x : string) (l : list string) : insert_sorted x l ≡ₚ x :: l.
Proof.
  induction l as [|y l IH]; simpl; [done|].
  destruct (str_lt x y); [done|]. rewrite IH. apply Permutation_swap.
Qed.

Lemma sorted_perm (l : list string) : sorted l ≡ₚ l.
Proof.
  induction l as [|x l IH]; simpl; [done|]. by rewrite insert_sorted_perm, IH.
Qed.

Lemma insert_sorted_ascending (x : string) (l : list string) :
  ascending l -> ascending (insert_sorted x l).
Proof.
  unfold ascending. induction 1 as [|y l Hl IH Hy]; simpl.
  - repeat constructor.
  - destruct (str_lt x y) eqn:E.
    + constructor; [by constructor|].
      constructor; [by apply str_lt_asym|].
      eapply Forall_impl; [exact Hy|]. intros z Hz. simpl in Hz.
      destruct (str_lt z x) eqn:F; [|done].
      pose proof (str_lt_trans _ _ _ F E). congruence.
    + constructor; [exact IH|].
      rewrite insert_sorted_perm. by constructor.
Qed.

Lemma sorted_ascending (l : list string) : ascending (sorted l).
Proof.
  induction l as [|x l IH]; simpl; [constructor|]. by apply insert_sorted_ascending.
Qed.

(** A query that starts with "number", in any case, is answered without
    the scorer and never raises: the card chosen is the least in string
    order of the catalog names whose lower-cased form starts with the
    lower-cased query, and the card is reported as not found exactly when
    there is no such name. *)
Theorem search_decks_number (card_database : list string) (card_name : string) :
  startswith (lower card_name) "number" = true ->
  match search_decks card_database card_name with
  | Returns DecksNotLoaded => card_database = []
  | Returns CardNotFound =>
      forall card, card ∈ card_database ->
                   startswith (lower card) (lower card_name) = false
  | Returns (BestMatch matched_card_name) =>
      matched_card_name ∈ card_database
      /\ startswith (lower matched_card_name) (lower card_name) = true
      /\ forall card, card ∈ card_database ->
                      startswith (lower card) (lower card_name) = true ->
                      str_lt card matched_card_name = false
  | Raises _ => False
  end.
Proof.
  intros Hnum. unfold search_decks.
  destruct card_database as [|k ks] eqn:Hdb; [done|]. rewrite <- Hdb. clear Hdb.
  cbv zeta. rewrite Hnum.
  set (found := List.filter (fun card => startswith (lower card) (lower card_name))
                            card_database).
  pose proof (sorted_perm found) as Hperm.
  pose proof (sorted_ascending found) as Hasc.
  destruct (sorted found) as [|m rest] eqn:Hs.
  - intros card Hcard.
    apply Permutation_nil_l in Hperm. symmetry in Hperm.
    exact (proj1 (list_filter_nil_iff _ card_database) Hperm card Hcard).
  - assert (Hm : m ∈ found) by (rewrite <- Hperm; by left).
    apply elem_of_list_filter in Hm as [Hm Hpre].
    split; [done|]. split; [done|].
    intros card Hcard Hcpre.
    assert (Hc : card ∈ m :: rest).
    { rewrite Hperm. by apply elem_of_list_filter. }
    apply elem_of_cons in Hc as [->|Hc]; [apply str_lt_irrefl|].
    apply StronglySorted_inv in Hasc as [_ Hall].
    rewrite Forall_forall in Hall. by apply Hall.
Qed.

Lemma search_decks_number_witness :
  "Number 101: Silent Honor ARK"
    ∈ ["Number 39: Utopia"; "Number 101: Silent Honor ARK"; "Numeron Wall"]
  /\ startswith (lower "Number 101: Silent Honor ARK") (lower "Number ") = true
  /\ forall card,
       card ∈ ["Number 39: Utopia"; "Number 101: Silent Honor ARK"; "Numeron Wall"] ->
       startswith (lower card) (lower "Number ") = true ->
       str_lt card "Number 101: Silent Honor ARK" = false.
Proof.
  exact (search_decks_number
           ["Number 39: Utopia"; "Number 101: Silent Honor ARK"; "Numeron Wall"]
           "Number " eq_refl).
Defined.

End DeckSearchFacts.

Section ArtworkFacts.
Import Artwork.

Lemma py_index_in_range {A} (l : list A) (i : Z) :
  0 <= i < Z.of_nat (length l) ->
  exists x, l !! Z.to_nat i = Some x /\ py_index l i = Done x.
Proof.
  intros Hi. unfold py_index. cbv zeta.
  destruct (Z.ltb_spec i 0); [lia|].
  assert ((0 <=? i) && (i <? Z.of_nat (length l)) = true) as ->.
  { apply andb_true_iff. split; [apply Z.leb_le|apply Z.ltb_lt]; lia. }
  destruct (l !! Z.to_nat i) as [x|] eqn:E; [by exists x|].
  apply lookup_ge_None in E. lia.
Qed.

(** One press on a view with at least one image. *)
Lemma turn_Done (step : Z) (v : view) :
  image_urls v <> [] ->
  let n := Z.of_nat (length (image_urls v)) in
  let i := (current_index v + step) mod n in
  0 <= i < n
  /\ exists url,
       image_urls v !! Z.to_nat i = Some url
       /\ turn step v = Done (View (image_urls v) i (buttons_disabled v) (Some url)).
Proof.
  intros Hne. cbv zeta.
  set (n := Z.of_nat (length (image_urls v))).
  assert (0 < n) as Hn.
  { subst n. destruct (image_urls v); [done|]. simpl. lia. }
  pose proof (Z.mod_pos_bound (current_index v + step) n Hn) as Hi.
  split; [done|].
  destruct (py_index_in_range (image_urls v) _ Hi) as (url & Hurl & Hidx).
  exists url. split; [done|].
  unfold turn, py_mod. fold n.
  destruct (Z.eqb_spec n 0); [lia|]. by rewrite Hidx.
Qed.

(** What every press of a button keeps true of the view. *)
Lemma reachable_invariant (urls : list string) (image : option string) (v : view) :
  urls <> [] ->
  reachable urls image v ->
  image_urls v = urls
  /\ 0 <= current_index v < Z.of_nat (length urls)
  /\ buttons_disabled v = bool_decide (length urls <= 1)%nat.
Proof.
  intros Hne Hreach.
  induction Hreach as [|v v' Hreach IH Hstep|v v' Hreach IH Hstep].
  - simpl. split; [done|]. split; [|done]. destruct urls; [done|]. simpl. lia.
  - destruct IH as (Hu & _ & Hb). unfold prev_button in Hstep.
    destruct (turn_Done (-1) v) as (Hi & url & _ & Ht); [by rewrite Hu|].
    rewrite Ht in Hstep. injection Hstep as <-. simpl. by rewrite <- Hu at 2.
  - destruct IH as (Hu & _ & Hb). unfold next_button in Hstep.
    destruct (turn_Done 1 v) as (Hi & url & _ & Ht); [by rewrite Hu|].
    rewrite Ht in Hstep. injection Hstep as <-. simpl. by rewrite <- Hu at 2.
Qed.

(** With at least one image, whatever buttons were pressed before, the
    index is a position of the list, neither button fails at the
    remainder or at the access to the list, and after a press the embed
    shows the image at the new index. The buttons are disabled exactly
    when there is at most one image. *)
Theorem artwork_index_in_range (urls : list string) (image : option string) (v : view) :
  urls <> [] ->
  reachable urls image v ->
  image_urls v = urls
  /\ 0 <= current_index v < Z.of_nat (length urls)
  /\ buttons_disabled v = bool_decide (length urls <= 1)%nat
  /\ (exists v', prev_button v = Done v'
                 /\ embed_image v' = urls !! Z.to_nat (current_index v'))
  /\ (exists v', next_button v = Done v'
                 /\ embed_image v' = urls !! Z.to_nat (current_index v')).
Proof.
  intros Hne Hreach.
  destruct (reachable_invariant urls image v Hne Hreach) as (Hu & Hi & Hb).
  split; [done|]. split; [done|]. split; [done|].
  split.
  - destruct (turn_Done (-1) v) as (_ & url & Hurl & Ht); [by rewrite Hu|].
    eexists. split; [exact Ht|]. simpl. by rewrite <- Hu.
  - destruct (turn_Done 1 v) as (_ & url & Hurl & Ht); [by rewrite Hu|].
    eexists. split; [exact Ht|]. simpl. by rewrite <- Hu.
Qed.

Lemma artwork_index_in_range_witness :
  0 <= current_index (init ["a.png"; "b.png"] None) < 2.
Proof.
  apply (artwork_index_in_range ["a.png"; "b.png"] None (init ["a.png"; "b.png"] None)).
  - done.
  - constructor.
Defined.

(** With at least one image, "next" and then "prev", or "prev" and then
    "next", lead back to the index from which they started, and the embed
    then shows the image at that index. *)
Theorem artwork_prev_next_inverse (urls : list string) (image : option string) (v : view) :
  urls <> [] ->
  reachable urls image v ->
  (exists v1 v2, next_button v = Done v1 /\ prev_button v1 = Done v2
                 /\ current_index v2 = current_index v
                 /\ embed_image v2 = urls !! Z.to_nat (current_index v))
  /\ (exists v1 v2, prev_button v = Done v1 /\ next_button v1 = Done v2
                    /\ current_index v2 = current_index v
                    /\ embed_image v2 = urls !! Z.to_nat (current_index v)).
Proof.
  intros Hne Hreach.
  destruct (reachable_invariant urls image v Hne Hreach) as (Hu & Hi & _).
  assert (Hback : forall a b, a + b = 0 ->
            exists v1 v2, turn a v = Done v1 /\ turn b v1 = Done v2
                          /\ current_index v2 = current_index v
                          /\ embed_image v2 = urls !! Z.to_nat (current_index v)).
  { intros a b Hab.
    destruct (turn_Done a v) as (_ & url1 & _ & Ht1); [by rewrite Hu|].
    eexists. destruct (turn_Done b (View (image_urls v)
                         ((current_index v + a) mod Z.of_nat (length (image_urls v)))
                         (buttons_disabled v) (Some url1)))
      as (_ & url2 & Hurl2 & Ht2); [simpl; by rewrite Hu|].
    simpl in Ht2, Hurl2. eexists. split; [exact Ht1|]. split; [exact Ht2|].
    simpl. rewrite Hu in *.
    assert (((current_index v + a) mod Z.of_nat (length urls) + b)
              mod Z.of_nat (length urls) = current_index v) as Hsame.
    { rewrite Zplus_mod_idemp_l.
      replace (current_index v + a + b) with (current_index v) by lia.
      by apply Z.mod_small. }
    rewrite Hsame in *. done. }
  split; [apply (Hback 1 (-1))|apply (Hback (-1) 1)]; lia.
Qed.

Lemma artwork_prev_next_inverse_witness :
  exists v1 v2,
    next_button (init ["a.png"; "b.png"; "c.png"] None) = Done v1
    /\ prev_button v1 = Done v2
    /\ current_index v2 = current_index (init ["a.png"; "b.png"; "c.png"] None)
    /\ embed_image v2
       = ["a.png"; "b.png"; "c.png"]
           !! Z.to_nat (current_index (init ["a.png"; "b.png"; "c.png"] None)).
Proof.
  apply (artwork_prev_next_inverse ["a.png"; "b.png"; "c.png"] None
           (init ["a.png"; "b.png"; "c.png"] None)).
  - done.
  - constructor.
Defined.

End ArtworkFacts.

(* ===================================================================== *)
(** * The deck markup parser: further properties *)
(* ===================================================================== *)

Section ParserFields.
Import Py Soup Parser.
Context {tag : Type} `{Document tag}.

(** A field of [deck_info] that [append] does not write is left alone by
    the three strategies. *)
Section Field.
Context {A : Type} (field : deck_info -> A).
Hypothesis field_append_card :
  forall is_extra entry d, field (append_card is_extra entry d) = field d.

Lemma field_strategy_sections (soup : tag) (st : deck_info * bool) :
  field (strategy_sections soup st).1 = field st.1.
Proof.
  unfold strategy_sections.
  apply (foldl_invariant (fun s => field s.1 = field st.1)); [done|].
  intros s part Hs. unfold parse_deck_part.
  destruct (or_else _ _); [|done].
  destruct (find_all _ _ _) as [|c cs]; [done|]. cbn [fst].
  apply (foldl_invariant (fun d => field d = field st.1)); [done|].
  intros d card Hd. unfold parse_card_element.
  destruct (or_else _ _); [|done]. by rewrite field_append_card.
Qed.

Lemma field_strategy_tables (soup : tag) (st : deck_info * bool) :
  field (strategy_tables soup st).1 = field st.1.
Proof.
  unfold strategy_tables. destruct (negb st.2); [|done].
  apply (foldl_invariant (fun s => field s.1 = field st.1)); [done|].
  intros s table Hs. unfold parse_table.
  apply (foldl_invariant (fun s => field s.1 = field st.1)); [done|].
  intros s' row Hs'. unfold parse_table_row.
  destruct (find row _ (ClassRe Re.name_cell_re)); [|done].
  cbn [fst]. by rewrite field_append_card.
Qed.

Lemma field_strategy_text (soup : tag) (st : deck_info * bool) :
  field (strategy_text soup st).1 = field st.1.
Proof.
  unfold strategy_text. destruct (negb st.2); [|done].
  apply (foldl_invariant (fun s => field s.1 = field st.1)); [done|].
  intros s container Hs. unfold parse_text_container.
  apply (foldl_invariant (fun s => field s.1 = field st.1)); [done|].
  intros s' line Hs'. rewrite parse_text_line_entry.
  destruct (line_entry line); [|done]. cbn [fst]. by rewrite field_append_card.
Qed.

End Field.

Lemma first_label_Some (elements : list (option tag)) (rejected : list string)
    (text : string) :
  first_label elements rejected = Some text ->
  text <> EmptyString /\ lower text ∉ rejected.
Proof.
  induction elements as [|[element|] rest IH]; simpl; [done| |done].
  destruct (nonempty _ && negb _) eqn:E; [|done].
  intros [= <-]. apply andb_true_iff in E as [Hne Hrej]. split.
  - intros Ht. by rewrite Ht in Hne.
  - apply negb_true_iff in Hrej. unfold mem in Hrej.
    by apply bool_decide_eq_false in Hrej.
Qed.

(** The name and the author of the record returned for any document are
    strings, never [None]. The name is never "master duel", "deck
    builder" or "deck list" in any case, and the author never "unknown"
    or "anonymous": a page that offers nothing else keeps the empty
    string. *)
Theorem parse_deck_list_labels (soup : tag) (u : string) :
  (exists n, deck_name (parse_deck_list soup u) = Some n
             /\ lower n ∉ ["master duel"; "deck builder"; "deck list"])
  /\ (exists a, author (parse_deck_list soup u) = Some a
                /\ lower a ∉ ["unknown"; "anonymous"]).
Proof.
  unfold parse_deck_list, cleanup, extract. cbv zeta. simpl deck_name. simpl author.
  rewrite !(field_strategy_text deck_name), !(field_strategy_tables deck_name),
    !(field_strategy_sections deck_name) by (by intros []).
  rewrite !(field_strategy_text author), !(field_strategy_tables author),
    !(field_strategy_sections author) by (by intros []).
  cbn [fst]. unfold extract_author, extract_name. split.
  - destruct (first_label _ ["master duel"; "deck builder"; "deck list"]) as [n|] eqn:En.
    + apply first_label_Some in En as [_ Hn].
      exists n. split; [|done]. by destruct (first_label _ ["unknown"; "anonymous"]).
    + exists EmptyString. split; [by destruct (first_label _ ["unknown"; "anonymous"])|].
      rewrite !elem_of_cons, elem_of_nil. simpl. intuition discriminate.
  - destruct (first_label _ ["unknown"; "anonymous"]) as [a|] eqn:Ea.
    + apply first_label_Some in Ea as [_ Ha].
      exists a. split; [|done].
      by destruct (first_label _ ["master duel"; "deck builder"; "deck list"]).
    + exists EmptyString. split.
      * by destruct (first_label _ ["master duel"; "deck builder"; "deck list"]).
      * rewrite !elem_of_cons, elem_of_nil. simpl. intuition discriminate.
Qed.

End ParserFields.

Section ParserCounts.
Import Py Soup Parser Tables.
Context {tag : Type} `{Document tag}.

Lemma digit_value_range (c : ascii) : isdigit c = true -> 0 <= digit_value c <= 9.
Proof.
  unfold isdigit, between, digit_value.
  intros [?%N.leb_le ?%N.leb_le]%andb_true_iff. lia.
Qed.

Lemma int_digits_nonneg (s : string) (acc : Z) :
  all_chars isdigit s = true -> 0 <= acc -> 0 <= int_digits acc s.
Proof.
  revert acc. induction s as [|c s IH]; intros acc; simpl; [done|].
  intros [Hc Hs]%andb_true_iff Hacc. apply IH; [done|].
  pose proof (digit_value_range c Hc). lia.
Qed.

Lemma span_digits_digits (s : string) : all_chars isdigit (Re.span_digits s).1 = true.
Proof.
  induction s as [|c s IH]; simpl; [done|].
  destruct (isdigit c) eqn:E; [|done].
  destruct (Re.span_digits s) as [d rest]. simpl in *. by rewrite E.
Qed.

Lemma search_digits_digits (s digits : string) :
  Re.search_digits s = Some digits -> all_chars isdigit digits = true.
Proof.
  revert digits. induction s as [|c s IH]; intros digits; [done|].
  change (Re.search_digits (String c s))
    with (if isdigit c then Some (Re.span_digits (String c s)).1
          else Re.search_digits s).
  destruct (isdigit c); [|apply IH].
  intros [= <-]. exact (span_digits_digits (String c s)).
Qed.

Lemma int_nonneg (s : string) (n : Z) :
  all_chars isdigit s = true -> int s = Returns n -> 0 <= n.
Proof.
  intros Hs. unfold int. destruct (_ <? _)%nat; [done|].
  intros [= <-]. by apply int_digits_nonneg.
Qed.

Lemma count_of_text_nonneg (count_text : string) : 0 <= count_of_text count_text.
Proof.
  unfold count_of_text.
  destruct (Re.search_digits count_text) as [digits|] eqn:E; [|lia].
  destruct (int digits) as [n|] eqn:En; [|lia].
  eapply int_nonneg; [|exact En]. by eapply search_digits_digits.
Qed.

Lemma match_deck_line_digits (line group1 group2 : string) :
  Re.match_deck_line line = Some (group1, group2) ->
  all_chars isdigit group1 = true.
Proof.
  unfold Re.match_deck_line.
  pose proof (span_digits_digits (lstrip line)) as Hd.
  destruct (Re.span_digits (lstrip line)) as [digits rest]. simpl in Hd.
  destruct digits as [|d ds]; [done|].
  destruct (match rest with
            | String c rest' => if bool_decide (c = "x"%char) then rest' else rest
            | EmptyString => rest
            end) as [|c spaces]; [done|].
  destruct (isspace c); [|done].
  destruct (lstrip spaces); [destruct (Re.last_char spaces); [|done]|]; by intros [= <- _].
Qed.

Lemma line_entry_nonneg (line : string) (entry : card) :
  line_entry line = Some entry -> 0 <= count entry.
Proof.
  unfold line_entry.
  destruct (Re.match_deck_line line) as [[g1 g2]|] eqn:E; [|done].
  destruct (int g1) as [n|] eqn:En; [|done].
  intros [= <-]. simpl. eapply int_nonneg; [|exact En]. by eapply match_deck_line_digits.
Qed.

Lemma counts_ok_append_card (is_extra : bool) (entry : card) (d : deck_info) :
  0 <= count entry -> counts_ok d -> counts_ok (append_card is_extra entry d).
Proof.
  intros He [Hm Hx]. unfold counts_ok, append_card.
  destruct is_extra; simpl; (split; [|]); try done;
    apply Forall_app; split; try done; by apply Forall_singleton.
Qed.

Lemma counts_ok_extract (soup : tag) (u : string) : counts_ok (extract soup u).
Proof.
  unfold extract. cbv zeta.
  assert (H0 : counts_ok
                 (extract_author soup
                    (extract_name soup
                       (DeckInfo (Some EmptyString) (Some EmptyString) [] [] u)))).
  { unfold extract_author, extract_name, counts_ok.
    by repeat destruct (first_label _ _). }
  revert H0. generalize (extract_author soup
                           (extract_name soup
                              (DeckInfo (Some EmptyString) (Some EmptyString) [] [] u))).
  intros d0 H0.
  assert (H1 : counts_ok (strategy_sections soup (d0, false)).1).
  { unfold strategy_sections. apply (foldl_invariant (fun s => counts_ok s.1)); [done|].
    intros s part Hs. unfold parse_deck_part.
    destruct (or_else _ _); [|done].
    destruct (find_all _ _ _) as [|c cs]; [done|]. cbn [fst].
    apply (foldl_invariant counts_ok); [done|].
    intros d card Hd. unfold parse_card_element.
    destruct (or_else (find card _ _) _); [|done].
    apply counts_ok_append_card; [|done]. cbn [count].
    destruct (or_else _ _) as [e|]; [|lia].
    destruct (truthy e); [|lia]. apply count_of_text_nonneg. }
  revert H1. generalize (strategy_sections soup (d0, false)). intros st1 H1.
  assert (H2 : counts_ok (strategy_tables soup st1).1).
  { unfold strategy_tables. destruct (negb st1.2); [|done].
    apply (foldl_invariant (fun s => counts_ok s.1)); [done|].
    intros s table Hs. unfold parse_table.
    apply (foldl_invariant (fun s => counts_ok s.1)); [done|].
    intros s' row Hs'. unfold parse_table_row.
    destruct (find row _ (ClassRe Re.name_cell_re)); [|done]. cbn [fst].
    apply counts_ok_append_card; [|done]. cbn [count].
    destruct (find row _ _); [apply count_of_text_nonneg|lia]. }
  revert H2. generalize (strategy_tables soup st1). intros st2 H2.
  unfold strategy_text. destruct (negb st2.2); [|done].
  apply (foldl_invariant (fun s => counts_ok s.1)); [done|].
  intros s container Hs. unfold parse_text_container.
  apply (foldl_invariant (fun s => counts_ok s.1)); [done|].
  intros s' line Hs'. rewrite parse_text_line_entry.
  destruct (line_entry line) as [entry|] eqn:E; [|done]. cbn [fst].
  apply counts_ok_append_card; [|done]. by eapply line_entry_nonneg.
Qed.

(** No entry of the record returned for any document has a negative
    count: a count is read from a run of decimal digits, or is the
    default 1. *)
Theorem parse_deck_list_counts (soup : tag) (u : string) (entry : card) :
  entry ∈ main_deck (parse_deck_list soup u)
  \/ entry ∈ extra_deck (parse_deck_list soup u) ->
  0 <= count entry.
Proof.
  destruct (counts_ok_extract soup u) as [Hm Hx].
  rewrite Forall_forall in Hm, Hx.
  unfold parse_deck_list. rewrite main_deck_cleanup, extra_deck_cleanup.
  intros [Hin|Hin]; [apply Hm|apply Hx];
    eapply elem_of_sublist; [exact Hin|apply dedup_sublist|exact Hin|apply dedup_sublist].
Qed.

End ParserCounts.

Section TableFacts.
Import Py Soup Parser Tables.
Context {tag : Type} `{Document tag}.







End TableFacts.

Section TableScenario.
Import Py Soup Parser Dom Tables.


Lemma parse_deck_list_counts_witness : 0 <= count (Card "Ash Blossom" 3).
Proof.
  apply (parse_deck_list_counts table_page "https://example.org/deck/4"
                                (Card "Ash Blossom" 3)).
  right. apply list_elem_of_In. vm_compute. auto.
Defined.

End TableScenario.

(* ===================================================================== *)
(** * The text of a deck section: properties *)
(* ===================================================================== *)

Section FormatFacts.
Import Py Parser Tables Format.

Lemma insert_by_key_perm (x : card) (l : list card) : insert_by_key x l ≡ₚ x :: l.
Proof.
  induction l as [|y l IH]; simpl; [done|].
  destruct (tuple_lt _ _); [|done]. rewrite IH. apply Permutation_swap.
Qed.

Lemma sort_by_key_perm (l : list card) : sort_by_key l ≡ₚ l.
Proof.
  induction l as [|x l IH]; simpl; [done|]. by rewrite insert_by_key_perm, IH.
Qed.

Lemma insert_by_key_sorted (x : card) (l : list card) :
  by_key l -> by_key (insert_by_key x l).
Proof.
  unfold by_key. induction 1 as [|y l Hl IH Hy]; simpl.
  - repeat constructor.
  - destruct (tuple_lt (sort_key y) (sort_key x)) eqn:E.
    + constructor; [exact IH|].
      rewrite insert_by_key_perm. constructor; [by apply tuple_lt_asym|exact Hy].
    + constructor; [by constructor|].
      constructor; [exact E|].
      eapply Forall_impl; [exact Hy|]. intros z Hz. simpl in Hz.
      by apply (tuple_ge_trans (sort_key z) (sort_key y) (sort_key x)).
Qed.

Lemma sort_by_key_sorted (l : list card) : by_key (sort_by_key l).
Proof.
  induction l as [|x l IH]; simpl; [constructor|]. by apply insert_by_key_sorted.
Qed.

Lemma by_key_lookup (l : list card) (i j : nat) (a b : card) :
  by_key l -> l !! i = Some a -> l !! j = Some b -> (i < j)%nat ->
  tuple_lt (sort_key b) (sort_key a) = false.
Proof.
  intros Hl. revert i j. induction Hl as [|x l Hl IH Hx]; intros i j Hi Hj Hij; [done|].
  destruct j as [|j]; [lia|]. destruct i as [|i]; simpl in *.
  - injection Hi as ->. rewrite Forall_forall in Hx. apply Hx.
    apply list_elem_of_lookup. eauto.
  - apply (IH i j); [done..|lia].
Qed.

Lemma normalize_printable (deck_list : list card) :
  Forall (fun c => printable (count c) = true) deck_list ->
  Forall (fun c => printable (count c) = true) (normalize deck_list).
Proof.
  unfold normalize. induction 1 as [|c l Hc _ IH]; simpl; [constructor|].
  destruct (nonempty (name c)); [by constructor|exact IH].
Qed.

Lemma format_deck_section_printable (deck_list : list card) :
  deck_list <> [] ->
  Forall (fun c => printable (count c) = true) (normalize deck_list) ->
  format_deck_section deck_list
  = Dom.join newline_string (map format_line (formatted_entries deck_list)).
Proof.
  intros Hne H. destruct deck_list as [|c l]; [done|].
  unfold format_deck_section, formatted_entries.
  rewrite <- (sort_by_key_perm (normalize (c :: l))) in H.
  cbv zeta. rewrite (proj2 (forallb_forall _ _)); [done|].
  intros x Hx. rewrite Forall_forall in H. apply H. by apply list_elem_of_In.
Qed.

(** The lines of a section are the entries that have a name, each once,
    in the order of their counts from high to low; entries of one count
    stand in the order of their lower-cased names. *)
Theorem format_deck_section_order (deck_list : list card) :
  Forall (fun c => printable (count c) = true) deck_list ->
  format_deck_section deck_list
  = Dom.join newline_string (map format_line (formatted_entries deck_list))
  /\ formatted_entries deck_list ≡ₚ normalize deck_list
  /\ forall (i j : nat) a b,
       formatted_entries deck_list !! i = Some a ->
       formatted_entries deck_list !! j = Some b ->
       (i < j)%nat ->
       count b <= count a
       /\ (count a = count b -> str_lt (lower (name b)) (lower (name a)) = false).
Proof.
  intros Hprint.
  split; [destruct deck_list; [done|]; apply format_deck_section_printable;
          [done|by apply normalize_printable]|].
  split; [apply sort_by_key_perm|].
  intros i j a b Hi Hj Hij.
  pose proof (by_key_lookup _ i j a b (sort_by_key_sorted _) Hi Hj Hij) as Hlt.
  unfold tuple_lt, sort_key in Hlt. simpl in Hlt.
  destruct (Z.eqb_spec (- count b) (- count a)) as [E|NE].
  - split; [lia|]. by intros _.
  - apply Z.ltb_ge in Hlt. split; [lia|]. intros ?. lia.
Qed.

(** ** Printing and reading a count *)

Lemma int_digits_of_uint_acc (d : Decimal.uint) (acc : positive) :
  int_digits (Z.pos acc) (NilEmpty.string_of_uint d) = Z.pos (Pos.of_uint_acc d acc).
Proof.
  revert acc. induction d; intros acc; simpl; [done|..];
    rewrite <- IHd; f_equal; unfold digit_value; simpl; lia.
Qed.

Lemma int_digits_of_uint (d : Decimal.uint) :
  int_digits 0 (NilEmpty.string_of_uint d) = Z.of_N (Pos.of_uint d).
Proof.
  induction d; simpl; [done|exact IHd|..];
    match goal with
    | |- int_digits ?a _ = _ =>
        let v := eval vm_compute in a in
        change a with v; apply int_digits_of_uint_acc
    end.
Qed.

Lemma string_of_uint_digits (d : Decimal.uint) :
  all_chars isdigit (NilEmpty.string_of_uint d) = true.
Proof. induction d; simpl; [done|..]; exact IHd. Qed.

Lemma str_of_int_nonneg (n : Z) :
  0 <= n ->
  all_chars isdigit (str_of_int n) = true
  /\ str_of_int n <> EmptyString
  /\ int_digits 0 (str_of_int n) = n.
Proof.
  intros Hn. unfold str_of_int. destruct n as [|p|p]; [done| |lia].
  simpl. split; [apply string_of_uint_digits|].
  pose proof (int_digits_of_uint (Pos.to_uint p)) as Hint.
  rewrite DecimalPos.Unsigned.of_to in Hint. simpl in Hint.
  split; [|done]. intros Hnil. by rewrite Hnil in Hint.
Qed.

(** ** Reading a line back *)

Lemma lstrip_head (s : string) (c : ascii) (t : string) :
  lstrip s = String c t -> isspace c = false.
Proof.
  induction s as [|x s IH]; simpl; [done|].
  destruct (isspace x) eqn:E; [exact IH|]. by intros [= <- _].
Qed.

Lemma lstrip_nonspace (c : ascii) (t : string) :
  isspace c = false -> lstrip (String c t) = String c t.
Proof. intros Hc. simpl. by rewrite Hc. Qed.

Lemma rstrip_nonspace (c : ascii) (t : string) :
  isspace c = false -> exists t', rstrip (String c t) = String c t'.
Proof.
  intros Hc. simpl. destruct (rstrip t); [rewrite Hc|]; eauto.
Qed.

Lemma rstrip_idem (s : string) : rstrip (rstrip s) = rstrip s.
Proof.
  induction s as [|c s IH]; [done|].
  assert (Hcons : forall x u, rstrip (String x u)
    = match rstrip u with
      | EmptyString => if isspace x then EmptyString else String x EmptyString
      | r => String x r
      end) by reflexivity.
  rewrite (Hcons c s).
  destruct (rstrip s) as [|c' r] eqn:E.
  - destruct (isspace c) eqn:Hc; [done|]. simpl. by rewrite Hc.
  - by rewrite Hcons, IH.
Qed.

(** A stripped string is empty or starts with a character other than
    whitespace, and stripping it again changes nothing. *)
Lemma strip_head (s : string) (c : ascii) (t : string) :
  strip s = String c t -> isspace c = false.
Proof.
  unfold strip. destruct (lstrip s) as [|x u] eqn:E; [done|].
  pose proof (lstrip_head _ _ _ E) as Hx.
  destruct (rstrip_nonspace x u Hx) as (t' & ->). by intros [= <- _].
Qed.

Lemma strip_idem (s : string) : strip (strip s) = strip s.
Proof.
  destruct (strip s) as [|c t] eqn:E; [done|].
  pose proof (strip_head _ _ _ E) as Hc.
  unfold strip at 1. rewrite lstrip_nonspace by done.
  rewrite <- E. unfold strip. apply rstrip_idem.
Qed.

Lemma span_digits_app (digits rest : string) (c : ascii) :
  all_chars isdigit digits = true -> isdigit c = false ->
  Re.span_digits (digits +:+ String c rest) = (digits, String c rest).
Proof.
  intros Hd Hc. induction digits as [|d ds IH]; simpl.
  - by rewrite Hc.
  - simpl in Hd. apply andb_true_iff in Hd as [Hd Hds]. by rewrite Hd, IH.
Qed.

Lemma digit_not_space (c : ascii) : isdigit c = true -> isspace c = false.
Proof. destruct c as [[] [] [] [] [] [] [] []]; simpl; done. Qed.

(** The line of an entry is read back as the entry. *)
Lemma line_entry_format_line (n : Z) (nm : string) :
  nm <> EmptyString -> strip nm = nm ->
  0 <= n -> (String.length (str_of_int n) <= int_max_str_digits)%nat ->
  line_entry (format_line (Card nm n)) = Some (Card nm n).
Proof.
  intros Hnm Hstrip Hn Hlen.
  destruct (str_of_int_nonneg n Hn) as (Hdig & Hne & Hint).
  destruct nm as [|c t] eqn:Enm; [done|]. rewrite <- Enm in *.
  assert (Hc : isspace c = false).
  { apply (strip_head nm c t). by rewrite Hstrip. }
  unfold line_entry, format_line, Re.match_deck_line. cbn [name count].
  destruct (str_of_int n) as [|d ds] eqn:Es; [done|].
  assert (Hd : isdigit d = true) by (simpl in Hdig; by apply andb_true_iff in Hdig as [? _]).
  change ((String d ds +:+ "x " +:+ nm)) with (String d (ds +:+ "x " +:+ nm)).
  rewrite lstrip_nonspace by (by apply digit_not_space).
  change (String d (ds +:+ "x " +:+ nm)) with (String d ds +:+ String "x" (" " +:+ nm)).
  rewrite span_digits_app by done.
  rewrite bool_decide_eq_true_2 by done.
  change (" " +:+ nm) with (String " " nm).
  change (isspace " ") with true. cbv iota.
  rewrite Enm, lstrip_nonspace by done. rewrite <- Enm.
  change (isspace " "%char) with true. cbv iota beta.
  unfold int. rewrite (proj2 (Nat.ltb_ge _ _) Hlen).
  by rewrite Hint, Hstrip.
Qed.

(** ** Splitting the joined lines *)

Lemma not_linebreak_not_cr (c : ascii) :
  is_linebreak c = false -> bool_decide (code c = 13%N) = false.
Proof.
  intros Hc. apply bool_decide_eq_false_2. intros E.
  unfold is_linebreak in Hc. rewrite E in Hc. discriminate Hc.
Qed.

Lemma splitlines_cons (c : ascii) (s : string) :
  is_linebreak c = false ->
  splitlines (String c s)
  = match splitlines s with
    | l :: ls => String c l :: ls
    | [] => [String c EmptyString]
    end.
Proof.
  intros Hc. cbn [splitlines]. rewrite Hc, (not_linebreak_not_cr c Hc).
  by destruct s.
Qed.

Lemma splitlines_single (s : string) :
  has_linebreak s = false -> s <> EmptyString -> splitlines s = [s].
Proof.
  induction s as [|c s IH]; [done|]. intros Hs _.
  simpl in Hs. apply orb_false_iff in Hs as [Hc Hs].
  rewrite splitlines_cons by done.
  destruct s as [|c' s']; [done|]. by rewrite IH.
Qed.

Lemma splitlines_line (s rest : string) :
  has_linebreak s = false ->
  splitlines (s +:+ newline_string +:+ rest) = s :: splitlines rest.
Proof.
  induction s as [|c s IH]; intros Hs.
  - change (EmptyString +:+ newline_string +:+ rest) with (String Re.newline rest).
    cbn [splitlines]. by destruct rest.
  - simpl in Hs. apply orb_false_iff in Hs as [Hc Hs].
    change (String c s +:+ newline_string +:+ rest)
      with (String c (s +:+ newline_string +:+ rest)).
    rewrite splitlines_cons by done. by rewrite IH.
Qed.

Lemma splitlines_join (lines : list string) :
  Forall (fun l => has_linebreak l = false /\ l <> EmptyString) lines ->
  splitlines (Dom.join newline_string lines) = lines.
Proof.
  induction 1 as [|x xs [Hx Hne] Hxs IH]; [done|].
  destruct xs as [|y ys]; [by apply splitlines_single|].
  change (Dom.join newline_string (x :: y :: ys))
    with (x +:+ newline_string +:+ Dom.join newline_string (y :: ys)).
  by rewrite splitlines_line, IH.
Qed.

Lemma has_linebreak_app (a b : string) :
  has_linebreak (a +:+ b) = has_linebreak a || has_linebreak b.
Proof.
  induction a as [|c a IH]; [done|]. simpl. by rewrite IH, orb_assoc.
Qed.

Lemma digit_not_linebreak (c : ascii) : isdigit c = true -> is_linebreak c = false.
Proof. destruct c as [[] [] [] [] [] [] [] []]; simpl; done. Qed.

Lemma digits_no_linebreak (s : string) :
  all_chars isdigit s = true -> has_linebreak s = false.
Proof.
  induction s as [|c s IH]; [done|]. simpl. intros [Hc Hs]%andb_true_iff.
  by rewrite digit_not_linebreak, IH.
Qed.

Lemma readable_printable (c : card) : readable c -> printable (count c) = true.
Proof.
  intros (_ & _ & Hn & Hlen). unfold printable.
  rewrite Z.abs_eq by done. by apply Nat.leb_le.
Qed.

(** What is known of the normalized form of a readable entry. *)
Lemma normalize_readable (deck_list : list card) :
  Forall readable (List.filter (fun c => nonempty (name c)) deck_list) ->
  Forall (fun e => readable e /\ strip (name e) = name e) (normalize deck_list).
Proof.
  unfold normalize. induction deck_list as [|c l IH]; simpl; [constructor|].
  destruct (nonempty (name c)); [|exact IH].
  intros [Hc Hl]%Forall_cons. constructor; [|by apply IH].
  destruct Hc as (H1 & H2 & H3 & H4). unfold readable. cbn [name count].
  by rewrite !strip_idem.
Qed.

Lemma format_line_read_back (e : card) :
  readable e -> strip (name e) = name e ->
  line_entry (format_line e) = Some e
  /\ has_linebreak (format_line e) = false
  /\ format_line e <> EmptyString.
Proof.
  intros (Hne & Hlb & Hn & Hlen) Hstrip. rewrite Hstrip in Hne, Hlb.
  destruct e as [nm n]. cbn [name count] in *.
  split; [by apply line_entry_format_line|].
  destruct (str_of_int_nonneg n Hn) as (Hdig & Hnil & _).
  unfold format_line. cbn [name count]. split.
  - rewrite !has_linebreak_app, Hlb, (digits_no_linebreak _ Hdig). done.
  - by destruct (str_of_int n).
Qed.

Lemma read_back_lines (entries : list card) :
  Forall (fun e => readable e /\ strip (name e) = name e) entries ->
  omap line_entry (splitlines (Dom.join newline_string (map format_line entries)))
  = entries.
Proof.
  intros H. rewrite splitlines_join.
  - induction H as [|e es [He Hs] _ IH]; [done|].
    cbn [map].
    change (omap line_entry (format_line e :: map format_line es))
      with (match line_entry (format_line e) with
            | Some y => y :: omap line_entry (map format_line es)
            | None => omap line_entry (map format_line es)
            end).
    destruct (format_line_read_back e He Hs) as (-> & _).
    by rewrite IH.
  - induction H as [|e es [He Hs] _ IH]; [constructor|].
    cbn [map]. constructor; [|exact IH].
    by destruct (format_line_read_back e He Hs) as (_ & ? & ?).
Qed.

(** The text of a section is read back, line by line, by the reader of
    deck lines into the entries the section shows: the names stripped,
    in the order of the section. The entries with a name must have a
    name that is more than whitespace and holds no line break, and a
    count that is not negative and has at most 4300 digits, the most
    that an f-string prints and [int] reads. *)
Theorem format_deck_section_read_back (deck_list : list card) :
  Forall readable (List.filter (fun c => nonempty (name c)) deck_list) ->
  omap line_entry (splitlines (format_deck_section deck_list))
  = formatted_entries deck_list.
Proof.
  intros Hread. destruct deck_list as [|c0 l0]; [done|].
  pose proof (normalize_readable _ Hread) as Hnorm.
  rewrite format_deck_section_printable; [|done|].
  2:{ eapply Forall_impl; [exact Hnorm|]. intros e [He _]. by apply readable_printable. }
  unfold formatted_entries.
  rewrite <- (sort_by_key_perm (normalize (c0 :: l0))) in Hnorm.
  by apply read_back_lines.
Qed.

Lemma format_deck_section_read_back_witness :
  omap line_entry
    (splitlines (format_deck_section
       [Card "Maxx C" 2; Card " Ash Blossom " 3; Card EmptyString 1; Card "Called by the Grave" 2]))
  = [Card "Ash Blossom" 3; Card "Called by the Grave" 2; Card "Maxx C" 2].
Proof.
  apply (format_deck_section_read_back
    [Card "Maxx C" 2; Card " Ash Blossom " 3; Card EmptyString 1; Card "Called by the Grave" 2]).
  repeat constructor; vm_compute; congruence.
Defined.

Lemma format_deck_section_order_witness :
  format_deck_section [Card "Maxx C" 2; Card " Ash Blossom " 3; Card EmptyString 1; Card "Called by the Grave" 2]
  = Dom.join newline_string ["3x Ash Blossom"; "2x Called by the Grave"; "2x Maxx C"].
Proof.
  apply (format_deck_section_order
    [Card "Maxx C" 2; Card " Ash Blossom " 3; Card EmptyString 1; Card "Called by the Grave" 2]).
  repeat constructor.
Defined.

(** ** The value of an embed field *)






End FormatFacts.

(* ===================================================================== *)
(** * The deck tables over many calls *)
(* ===================================================================== *)

Section StoreRows.
Import Py Store Queries.

(** Rows with a unique key are equal when their keys are. *)
Lemma NoDup_map_inj {A B} (key : A -> B) (l : list A) (x y : A) :
  NoDup (map key l) -> x ∈ l -> y ∈ l -> key x = key y -> x = y.
Proof.
  induction l as [|z l IH]; [by intros _ ?%elem_of_nil|].
  cbn [map]. intros [Hz Hl]%NoDup_cons Hx Hy Hk.
  assert (Hin : forall w, w ∈ l -> key w ∈ map key l).
  { intros w Hw. as_fmap. by apply list_elem_of_fmap_2. }
  apply elem_of_cons in Hx as [->|Hx]; apply elem_of_cons in Hy as [->|Hy].
  - done.
  - exfalso. apply Hz. rewrite Hk. by apply Hin.
  - exfalso. apply Hz. rewrite <- Hk. by apply Hin.
  - by apply IH.
Qed.

Lemma list_filter_filter_impl {A} (f g : A -> bool) (l : list A) :
  (forall x, x ∈ l -> f x = true -> g x = true) ->
  List.filter f (List.filter g l) = List.filter f l.
Proof.
  induction l as [|x l IH]; intros H; [done|]. cbn [List.filter].
  assert (IH' : List.filter f (List.filter g l) = List.filter f l).
  { apply IH. intros y Hy. apply H. by right. }
  destruct (g x) eqn:Hg.
  - cbn [List.filter]. by rewrite IH'.
  - destruct (f x) eqn:Hf; [|done].
    rewrite (H x) in Hg; [done|by left|done].
Qed.

Lemma map_fixed {A} (f : A -> A) (l : list A) :
  (forall x, x ∈ l -> f x = x) -> map f l = l.
Proof.
  induction l as [|x l IH]; intros H; [done|]. cbn [map].
  rewrite (H x) by (by left). f_equal. apply IH. intros y Hy. apply H. by right.
Qed.

(** A key that is unique selects at most one row. *)
Lemma unique_key_filter {A B} `{EqDecision B} (key : A -> B) (l : list A) (x : A) :
  NoDup (map key l) -> x ∈ l ->
  List.filter (fun y => bool_decide (key y = key x)) l = [x].
Proof.
  induction l as [|z l IH]; [by intros _ ?%elem_of_nil|].
  cbn [map List.filter]. intros [Hz Hl]%NoDup_cons Hx.
  assert (Hin : forall w, w ∈ l -> key w ∈ map key l).
  { intros w Hw. as_fmap. by apply list_elem_of_fmap_2. }
  destruct (bool_decide (key z = key x)) eqn:E.
  - apply bool_decide_eq_true in E.
    apply elem_of_cons in Hx as [->|Hx].
    + f_equal. apply list_filter_none. intros w Hw.
      apply bool_decide_eq_false_2. intros Hk. apply Hz. rewrite <- Hk. by apply Hin.
    + exfalso. apply Hz. rewrite E. by apply Hin.
  - apply bool_decide_eq_false in E.
    apply elem_of_cons in Hx as [->|Hx]; [done|]. by apply IH.
Qed.

(** The two tables in front of the insertion loops, row by row. *)
Lemma prepared_tables (now : Z) (deck_info : Parser.deck_info) (d d1 : db) (i : Z) :
  prepared now deck_info d i d1 ->
  exists n, Parser.deck_name deck_info = Some n
    /\ match select_deck_id (Parser.url deck_info) d with
       | Some existing =>
           i = existing
           /\ decks d1
           = map (fun r => if bool_decide (id r = i)
                           then DeckRow (id r) n (Parser.author deck_info) (url r)
                                        (created_at r) now
                           else r) (decks d)
           /\ deck_cards d1
              = List.filter (fun r => negb (bool_decide (deck_id r = i))) (deck_cards d)
       | None =>
           decks d1
           = decks d ++ [DeckRow i n (Parser.author deck_info) (Parser.url deck_info) now now]
           /\ deck_cards d1 = deck_cards d
           /\ i = Z.max (decks_seq d) (max_id (decks d)) + 1
       end.
Proof.
  intros Hprep. destruct (prepared_name _ _ _ _ _ Hprep) as [n Hn]. exists n.
  split; [done|]. unfold prepared in Hprep.
  destruct (select_deck_id (Parser.url deck_info) d) as [existing|] eqn:Hsel.
  - destruct Hprep as (-> & d0 & Hup & ->). unfold update_deck in Hup.
    rewrite Hn in Hup. injection Hup as <-. done.
  - apply insert_deck_Returns in Hprep as (n' & Hn' & -> & -> & _).
    rewrite Hn in Hn'. injection Hn' as <-. done.
Qed.

Lemma filter_url_map (f : deck_row -> deck_row) (u : string) (rows : list deck_row) :
  (forall r, url (f r) = url r) ->
  List.filter (fun r => bool_decide (url r = u)) (map f rows)
  = map f (List.filter (fun r => bool_decide (url r = u)) rows).
Proof.
  intros Hf. induction rows as [|r rows IH]; [done|]. cbn [map List.filter].
  rewrite Hf. destruct (bool_decide (url r = u)); cbn [map]; by rewrite IH.
Qed.

(** The id that the [SELECT] of a url gives belongs to a row of that
    url, the only one in well-formed tables. *)
Lemma select_deck_id_row (u : string) (d : db) :
  wf d ->
  match head (List.filter (fun r => bool_decide (url r = u)) (decks d)) with
  | Some r =>
      select_deck_id u d = Some (id r) /\ r ∈ decks d /\ url r = u
      /\ List.filter (fun r => bool_decide (url r = u)) (decks d) = [r]
  | None =>
      select_deck_id u d = None /\ forall r, r ∈ decks d -> url r <> u
  end.
Proof.
  intros Hwf. unfold select_deck_id.
  destruct (List.filter _ (decks d)) as [|r rs] eqn:E; cbn [head].
  - split; [done|]. intros r Hr Hu.
    pose proof (proj1 (list_filter_nil_iff _ _) E r Hr) as Hf.
    by apply bool_decide_eq_false in Hf.
  - assert (Hr : r ∈ List.filter (fun r => bool_decide (url r = u)) (decks d))
      by (rewrite E; by left).
    apply elem_of_list_filter in Hr as [Hr Hu]. apply bool_decide_eq_true in Hu.
    split; [done|]. split; [done|]. split; [done|].
    rewrite <- E, <- Hu. apply unique_key_filter; [apply Hwf|done].
Qed.

(** The row of the deck after a successful call. *)
Lemma saved_row (faults : nat -> option exn) (now : Z)
    (deck_info : Parser.deck_info) (d d' : db) :
  wf d ->
  save_deck_to_db faults now deck_info d = (true, d') ->
  exists n i created,
    Parser.deck_name deck_info = Some n
    /\ List.filter (fun r => bool_decide (url r = Parser.url deck_info)) (decks d')
       = [DeckRow i n (Parser.author deck_info) (Parser.url deck_info) created now].
Proof.
  intros Hwf Hsave.
  apply save_deck_to_db_true in Hsave as (_ & i & d1 & Hprep & _ & ->).
  cbn [decks].
  destruct (prepared_tables _ _ _ _ _ Hprep) as (n & Hn & Htab).
  pose proof (select_deck_id_row (Parser.url deck_info) d Hwf) as Hrow.
  exists n. destruct (head _) as [old|].
  - destruct Hrow as (Hsel & Hold & Hu & Hone). rewrite Hsel in Htab.
    destruct Htab as (-> & -> & _).
    rewrite filter_url_map by (intros r; by destruct (bool_decide (id r = id old))).
    rewrite Hone. cbn [map]. rewrite bool_decide_eq_true_2 by done.
    rewrite Hu. by eexists _, _.
  - destruct Hrow as (Hsel & Hnone). rewrite Hsel in Htab.
    destruct Htab as (-> & _ & ->).
    rewrite List.filter_app, list_filter_none
      by (intros r Hr; by apply bool_decide_eq_false_2, Hnone).
    cbn [List.filter url app]. rewrite bool_decide_eq_true_2 by done.
    by eexists _, _.
Qed.

(** After a successful call the deck has one row, with the name and the
    author of the record and the time of the call as [last_updated]. A
    deck that was stored before keeps its id and its [created_at]; a
    new one is created at the time of the call, under an id above every
    id in the two tables. *)
Theorem save_deck_to_db_row (faults : nat -> option exn) (now : Z)
    (deck_info : Parser.deck_info) (d d' : db) :
  wf d ->
  save_deck_to_db faults now deck_info d = (true, d') ->
  exists row,
    List.filter (fun r => bool_decide (url r = Parser.url deck_info)) (decks d') = [row]
    /\ Parser.deck_name deck_info = Some (name row)
    /\ author row = Parser.author deck_info
    /\ last_updated row = now
    /\ match head (List.filter (fun r => bool_decide (url r = Parser.url deck_info))
                               (decks d)) with
       | Some old => id row = id old /\ created_at row = created_at old
       | None =>
           created_at row = now
           /\ (forall r, r ∈ decks d -> id r < id row)
           /\ (forall dc, dc ∈ deck_cards d -> deck_id dc < id row)
       end.
Proof.
  intros Hwf Hsave.
  apply save_deck_to_db_true in Hsave as (_ & i & d1 & Hprep & _ & ->).
  cbn [decks].
  destruct (prepared_tables _ _ _ _ _ Hprep) as (n & Hn & Htab).
  pose proof (select_deck_id_row (Parser.url deck_info) d Hwf) as Hrow.
  destruct (head _) as [old|].
  - destruct Hrow as (Hsel & Hold & Hu & Hone). rewrite Hsel in Htab.
    destruct Htab as (-> & -> & _).
    rewrite filter_url_map by (intros r; by destruct (bool_decide (id r = id old))).
    rewrite Hone. cbn [map]. rewrite bool_decide_eq_true_2 by done.
    eexists. split; [reflexivity|]. by cbn [name author last_updated id created_at].
  - destruct Hrow as (Hsel & Hnone). rewrite Hsel in Htab.
    destruct Htab as (-> & _ & ->).
    rewrite List.filter_app, list_filter_none
      by (intros r Hr; by apply bool_decide_eq_false_2, Hnone).
    cbn [List.filter url app]. rewrite bool_decide_eq_true_2 by done.
    eexists. split; [reflexivity|].
    cbn [name author last_updated id created_at].
    split; [done|]. split; [done|]. split; [done|]. split; [done|]. split.
    + intros r Hr. pose proof (max_id_ge _ _ Hr). lia.
    + intros dc Hdc. pose proof (wf_card_seq d Hwf) as Hseq.
      rewrite Forall_forall in Hseq. specialize (Hseq dc Hdc). simpl in Hseq. lia.
Qed.

Lemma save_deck_to_db_row_witness :
  exists row,
    List.filter (fun r => bool_decide (url r = Parser.url sample_deck_later))
                (decks (save_deck_to_db no_faults 200 sample_deck_later stored_sample).2)
    = [row]
    /\ Parser.deck_name sample_deck_later = Some (name row)
    /\ author row = Parser.author sample_deck_later
    /\ last_updated row = 200
    /\ id row = 1 /\ created_at row = 100.
Proof.
  apply (save_deck_to_db_row no_faults 200 sample_deck_later stored_sample).
  - apply (save_deck_to_db_wf no_faults 100 sample_deck empty_db).
    split; simpl; constructor.
  - reflexivity.
Defined.

(** A call, successful or not, leaves the row and the association rows
    of the deck of every other url as they were. *)
Theorem save_deck_to_db_frame (faults : nat -> option exn) (now : Z)
    (deck_info : Parser.deck_info) (d : db) (u : string) :
  wf d ->
  u <> Parser.url deck_info ->
  List.filter (fun r => bool_decide (url r = u))
              (decks (save_deck_to_db faults now deck_info d).2)
  = List.filter (fun r => bool_decide (url r = u)) (decks d)
  /\ associations (save_deck_to_db faults now deck_info d).2 u = associations d u.
Proof.
  intros Hwf Hu.
  destruct (save_deck_to_db_cases faults now deck_info d) as [[d' Hd']|Hd];
    [|by rewrite Hd].
  rewrite Hd'. cbn [snd].
  apply save_deck_to_db_true in Hd' as (_ & i & d1 & Hprep & _ & ->).
  destruct (prepared_tables _ _ _ _ _ Hprep) as (n & Hn & Htab).
  pose proof (select_deck_id_row (Parser.url deck_info) d Hwf) as Hrow.
  pose proof (select_deck_id_row u d Hwf) as Hrow_u.
  assert (Hother : forall r, r ∈ decks d -> url r = u -> id r < i \/ i < id r).
  { intros r Hr Hr_u.
    destruct (head (List.filter (fun r => bool_decide (url r = Parser.url deck_info)) _))
      as [old|].
    - destruct Hrow as (Hsel & Hold & Hold_u & _). rewrite Hsel in Htab.
      destruct Htab as (-> & _).
      destruct (Z.eq_dec (id r) (id old)) as [E|NE]; [|lia].
      apply (NoDup_map_inj id (decks d)) in E; [|apply Hwf|done|done]. congruence.
    - destruct Hrow as (Hsel & _). rewrite Hsel in Htab. destruct Htab as (_ & _ & ->).
      pose proof (max_id_ge _ _ Hr). lia. }
  assert (Hdecks : List.filter (fun r => bool_decide (url r = u)) (decks d1)
                   = List.filter (fun r => bool_decide (url r = u)) (decks d)).
  { destruct (select_deck_id (Parser.url deck_info) d) as [existing|].
    - destruct Htab as (_ & -> & _).
      rewrite filter_url_map by (intros r; by destruct (bool_decide (id r = i))).
      apply map_fixed. intros r [Hr Hr_u]%elem_of_list_filter.
      apply bool_decide_eq_true in Hr_u.
      rewrite bool_decide_eq_false_2; [done|]. specialize (Hother r Hr Hr_u). lia.
    - destruct Htab as (-> & _).
      rewrite List.filter_app. cbn [List.filter url].
      rewrite bool_decide_eq_false_2 by congruence. by rewrite app_nil_r. }
  cbn [decks]. split; [exact Hdecks|].
  unfold associations, select_deck_id. cbn [decks deck_cards]. rewrite Hdecks.
  destruct (head (List.filter (fun r => bool_decide (url r = u)) (decks d))) as [r|];
    [|done].
  destruct Hrow_u as (_ & Hr & Hr_u & _). cbn [fmap option_fmap option_map].
  specialize (Hother r Hr Hr_u).
  rewrite List.filter_app.
  rewrite (list_filter_none _ (rows_of i deck_info)).
  2:{ intros dc Hdc. apply bool_decide_eq_false_2.
      unfold rows_of in Hdc. as_fmap in Hdc.
      apply elem_of_app in Hdc as [Hdc|Hdc];
        apply list_elem_of_fmap in Hdc as (c & -> & _); simpl; lia. }
  rewrite app_nil_r.
  destruct (select_deck_id (Parser.url deck_info) d) as [existing|].
  - destruct Htab as (_ & _ & ->). apply list_filter_filter_impl.
    intros dc _ Hdc. apply bool_decide_eq_true in Hdc.
    apply negb_true_iff, bool_decide_eq_false_2. lia.
  - by destruct Htab as (_ & -> & _).
Qed.

Lemma save_deck_to_db_frame_witness :
  List.filter (fun r => bool_decide (url r = Parser.url sample_deck))
              (decks (save_deck_to_db no_faults 200 clash_deck stored_sample).2)
  = List.filter (fun r => bool_decide (url r = Parser.url sample_deck)) (decks stored_sample)
  /\ associations (save_deck_to_db no_faults 200 clash_deck stored_sample).2
                  (Parser.url sample_deck)
     = associations stored_sample (Parser.url sample_deck).
Proof.
  apply (save_deck_to_db_frame no_faults 200 clash_deck stored_sample
                               (Parser.url sample_deck)).
  - apply (save_deck_to_db_wf no_faults 100 sample_deck empty_db).
    split; simpl; constructor.
  - vm_compute. congruence.
Defined.

(** ** The invariant over a history *)

Lemma cleanup_old_decks_cases (faults : nat -> option exn) (cutoff : Z) (d : db) :
  cleanup_old_decks faults cutoff d = (0, d)
  \/ cleanup_old_decks faults cutoff d
     = (Z.of_nat (length (List.filter (fun r => last_updated r <? cutoff) (decks d))),
        delete_old_decks cutoff d).
Proof.
  unfold cleanup_old_decks, cleanup_body, bind, connect, commit, execute, query, ret.
  destruct (faults 0%nat); [by left|].
  destruct (faults 1%nat); [by left|].
  destruct (faults 2%nat); [by left|]. by right.
Qed.

(** Whatever calls were made and whichever of them failed, the tables
    hold no two decks of one id or of one url and no two association
    rows of one deck and card name, and no row carries an id above the
    last one handed out. *)
Theorem history_wf (d : db) : history d -> wf d.
Proof.
  induction 1 as [|faults now deck_info d _ IH|faults cutoff d _ IH].
  - split; simpl; constructor.
  - by apply save_deck_to_db_wf.
  - destruct (cleanup_old_decks_cases faults cutoff d) as [->| ->]; [done|].
    by apply delete_old_decks_wf.
Qed.

Lemma history_wf_witness :
  wf (cleanup_old_decks no_faults 150
        (save_deck_to_db (fault_at 4) 120 clash_deck stored_sample).2).2.
Proof.
  apply (history_wf _).
  apply history_cleanup, history_save, (history_save no_faults 100 sample_deck), history_init.
Defined.

(** The number that [cleanup_old_decks] returns is the number of deck
    rows that are gone afterwards, also when the call fails; the rows
    that stay are the rows as they were, and no association row is
    removed with a deck. *)
Theorem cleanup_old_decks_count (faults : nat -> option exn) (cutoff : Z) (d : db) :
  Z.of_nat (length (decks d))
  = (cleanup_old_decks faults cutoff d).1
    + Z.of_nat (length (decks (cleanup_old_decks faults cutoff d).2))
  /\ (forall r, r ∈ decks (cleanup_old_decks faults cutoff d).2 -> r ∈ decks d)
  /\ ((cleanup_old_decks faults cutoff d).1 <> 0 ->
      forall r, r ∈ decks (cleanup_old_decks faults cutoff d).2 <->
                r ∈ decks d /\ cutoff <= last_updated r)
  /\ deck_cards (cleanup_old_decks faults cutoff d).2 = deck_cards d.
Proof.
  destruct (cleanup_old_decks_cases faults cutoff d) as [->| ->]; cbn [fst snd].
  - split; [lia|]. split; [done|]. by split.
  - unfold delete_old_decks. cbn [decks deck_cards].
    split; [|split; [|split; [|done]]].
    + pose proof (filter_length (fun r => last_updated r <? cutoff) (decks d)). lia.
    + by intros r [Hr _]%elem_of_list_filter.
    + intros _ r. rewrite elem_of_list_filter, negb_true_iff, Z.ltb_ge. done.
Qed.

End StoreRows.

(* ===================================================================== *)
(** * The decks that hold a card *)
(* ===================================================================== *)

Section QueryFacts.
Import Py Store Queries.

Variable scan : forall A : Type, list A -> list A.
Hypothesis scan_perm : forall (A : Type) (l : list A), scan A l ≡ₚ l.

(** ** The order of the result *)

Lemma insert_created_perm (x : deck_columns) (l : list deck_columns) :
  insert_created x l ≡ₚ x :: l.
Proof.
  induction l as [|y l IH]; simpl; [done|].
  destruct (_ <? _); [|done]. rewrite IH. apply Permutation_swap.
Qed.

Lemma order_by_created_desc_perm (l : list deck_columns) :
  order_by_created_desc l ≡ₚ l.
Proof.
  induction l as [|x l IH]; simpl; [done|]. by rewrite insert_created_perm, IH.
Qed.

Lemma insert_created_sorted (x : deck_columns) (l : list deck_columns) :
  newest_first l -> newest_first (insert_created x l).
Proof.
  unfold newest_first. induction 1 as [|y l Hl IH Hy]; simpl.
  - repeat constructor.
  - destruct (Z.ltb_spec (column_created_at x) (column_created_at y)).
    + constructor; [exact IH|].
      rewrite insert_created_perm. constructor; [lia|exact Hy].
    + constructor; [by constructor|].
      constructor; [done|].
      eapply Forall_impl; [exact Hy|]. intros z Hz. simpl in Hz. lia.
Qed.

Lemma order_by_created_desc_sorted (l : list deck_columns) :
  newest_first (order_by_created_desc l).
Proof.
  induction l as [|x l IH]; simpl; [constructor|]. by apply insert_created_sorted.
Qed.

(** ** The loop over the rows *)

Lemma execute_query {A} (faults : nat -> option exn) (q : db -> A) (k : nat) (d : db) :
  execute faults (query q) (k, d)
  = match faults k with
    | Some e => Raises e
    | None => Returns (q d, (S k, d))
    end.
Proof. unfold execute, query. by destruct (faults k). Qed.

(** A loop that returns has built the entry of every row, and left the
    tables as they were. *)
Lemma collect_decks_Returns (faults : nat -> option exn) (rows : list deck_columns)
    (k k' : nat) (d d' : db) (decks : list found_deck) :
  collect_decks scan faults rows (k, d) = Returns (decks, (k', d')) ->
  decks = map (found_of scan d) rows /\ d' = d.
Proof.
  revert k k' d' decks.
  induction rows as [|[[[[i nm] a] u] c] rows IH]; intros k k' d' decks.
  - by intros [= <- _ <-].
  - cbn [collect_decks]. unfold bind at 1. rewrite execute_query.
    destruct (faults k); [done|].
    unfold bind at 1. rewrite execute_query.
    destruct (faults (S k)); [done|].
    unfold bind at 1.
    destruct (collect_decks scan faults rows (S (S k), d)) as [[l [k1 d1]]|] eqn:E; [|done].
    apply IH in E as [-> ->]. unfold ret. by intros [= <- _ <-].
Qed.

Lemma collect_decks_no_faults (rows : list deck_columns) (k : nat) (d : db) :
  exists k', collect_decks scan no_faults rows (k, d)
             = Returns (map (found_of scan d) rows, (k', d)).
Proof.
  revert k. induction rows as [|[[[[i nm] a] u] c] rows IH]; intros k.
  - by exists k.
  - cbn [collect_decks]. unfold bind at 1. rewrite execute_query. cbn [no_faults].
    unfold bind at 1. rewrite execute_query. cbn [no_faults].
    unfold bind at 1. destruct (IH (S (S k))) as [k' ->]. by exists k'.
Qed.

Lemma get_decks_with_card_no_faults (n : string) (d : db) :
  get_decks_with_card scan no_faults n d
  = map (found_of scan d) (select_decks_with_card scan n d).
Proof.
  unfold get_decks_with_card, get_decks_body, connect.
  unfold bind at 1. rewrite execute_query. cbn [no_faults].
  unfold bind at 1. rewrite execute_query. cbn [no_faults].
  by destruct (collect_decks_no_faults (select_decks_with_card scan n d) 2 d) as [k' ->].
Qed.

(** A failure of the storage layer leaves nothing of the decks found
    before it: the result is that of a run without failure, or empty. *)
Theorem get_decks_with_card_all_or_nothing (faults : nat -> option exn)
    (n : string) (d : db) :
  get_decks_with_card scan faults n d = []
  \/ get_decks_with_card scan faults n d = get_decks_with_card scan no_faults n d.
Proof.
  rewrite get_decks_with_card_no_faults.
  remember (get_decks_with_card scan faults n d) as result eqn:Hresult.
  unfold get_decks_with_card, get_decks_body, connect in Hresult.
  unfold bind at 1 in Hresult. rewrite execute_query in Hresult.
  destruct (faults 0%nat); [by left|].
  unfold bind at 1 in Hresult. rewrite execute_query in Hresult.
  destruct (faults 1%nat); [by left|].
  destruct (collect_decks scan faults _ _) as [[l [k' d']]|] eqn:E; [|by left].
  apply collect_decks_Returns in E as [-> _]. by right.
Qed.

(** ** The join *)

Lemma has_card_filter (n : string) (d : db) (r : deck_row) :
  wf d ->
  map (fun _ => columns r)
      (List.filter (fun dc => bool_decide (id r = deck_id dc) && bool_decide (card_name dc = n))
                   (deck_cards d))
  = if has_card n d r then [columns r] else [].
Proof.
  intros Hwf. unfold has_card.
  destruct (existsb _ (deck_cards d)) eqn:E.
  - apply existsb_exists in E as (x & Hx%list_elem_of_In & Hp).
    apply andb_true_iff in Hp as [Hi%bool_decide_eq_true Hn%bool_decide_eq_true].
    rewrite (filter_ext _ (fun dc => bool_decide ((deck_id dc, card_name dc)
                                               = (deck_id x, card_name x)))).
    + by rewrite (unique_key_filter (fun dc => (deck_id dc, card_name dc)) _ x)
        by (apply Hwf || done).
    + intros dc. rewrite <- Hi, Hn.
      destruct (bool_decide (id r = deck_id dc)) eqn:E1;
        destruct (bool_decide (card_name dc = n)) eqn:E2; cbn [andb];
        symmetry;
        first [ apply bool_decide_eq_true_2 | apply bool_decide_eq_false_2 ];
        try apply bool_decide_eq_true in E1; try apply bool_decide_eq_true in E2;
        try apply bool_decide_eq_false in E1; try apply bool_decide_eq_false in E2;
        congruence.
  - rewrite list_filter_none; [done|].
    intros dc Hdc. apply not_true_is_false. intros Hp. 
    assert (existsb (fun dc => bool_decide (id r = deck_id dc) && bool_decide (card_name dc = n))
                    (deck_cards d) = true); [|congruence].
    apply existsb_exists. exists dc. split; [by apply list_elem_of_In|done].
Qed.

(** In well-formed tables the join has one row for each deck that
    holds the card. *)
Lemma joined_wf (n : string) (d : db) :
  wf d -> joined n d = map columns (List.filter (has_card n d) (decks d)).
Proof.
  intros Hwf. unfold joined.
  induction (decks d) as [|r rows IH]; [done|].
  cbn [flat_map List.filter]. rewrite IH, has_card_filter by done.
  by destruct (has_card n d r).
Qed.

Lemma joined_NoDup (n : string) (d : db) : wf d -> NoDup (joined n d).
Proof.
  intros Hwf. rewrite joined_wf by done.
  apply (NoDup_fmap_1 (fun c : deck_columns => c.1.1.1.1)).
  as_fmap. rewrite <- list_fmap_compose.
  change (NoDup (map id (List.filter (has_card n d) (decks d)))).
  apply NoDup_map_filter, Hwf.
Qed.

Lemma select_decks_with_card_perm (n : string) (d : db) :
  wf d ->
  select_decks_with_card scan n d ≡ₚ map columns (List.filter (has_card n d) (decks d)).
Proof.
  intros Hwf. unfold select_decks_with_card.
  rewrite order_by_created_desc_perm, scan_perm, <- joined_wf by done.
  apply NoDup_Permutation; [apply NoDup_remove_dups|by apply joined_NoDup|].
  apply elem_of_remove_dups.
Qed.

Lemma select_deck_cards_perm (i : Z) (e : bool) (d : db) :
  select_deck_cards scan i e d ≡ₚ stored_cards i e d.
Proof.
  unfold stored_cards, select_deck_cards, table_order. as_fmap.
  by rewrite scan_perm.
Qed.

Lemma StronglySorted_lookup {A} (R : A -> A -> Prop) (l : list A) (i j : nat) (a b : A) :
  StronglySorted R l -> l !! i = Some a -> l !! j = Some b -> (i < j)%nat -> R a b.
Proof.
  intros Hl. revert i j. induction Hl as [|x l Hl IH Hx]; intros i j Hi Hj Hij; [done|].
  destruct j as [|j]; [lia|]. destruct i as [|i]; simpl in *.
  - injection Hi as ->. rewrite Forall_forall in Hx. apply Hx.
    apply list_elem_of_lookup. eauto.
  - apply (IH i j); [done..|lia].
Qed.

Lemma found_of_columns (d : db) (r : deck_row) :
  found_of scan d (columns r)
  = FoundDeck (name r) (author r) (url r) (select_deck_cards scan (id r) false d)
              (select_deck_cards scan (id r) true d) (created_at r).
Proof. done. Qed.

(** The decks that [get_decks_with_card] returns from well-formed
    tables when the storage layer does not fail: one entry for each
    stored deck with an association row for the card, from the newest
    to the oldest, with the name, author and url of the deck and, in
    some order, the cards of its two sections. A deck row is needed:
    association rows left behind by a deleted deck are not shown. *)
Theorem get_decks_with_card_decks (n : string) (d : db) :
  wf d ->
  map found_url (get_decks_with_card scan no_faults n d)
    ≡ₚ map url (List.filter (has_card n d) (decks d))
  /\ (forall (i j : nat) a b,
        get_decks_with_card scan no_faults n d !! i = Some a ->
        get_decks_with_card scan no_faults n d !! j = Some b ->
        (i < j)%nat -> found_created_at b <= found_created_at a)
  /\ (forall deck, deck ∈ get_decks_with_card scan no_faults n d ->
        exists r, r ∈ decks d /\ has_card n d r = true
          /\ found_name deck = name r /\ found_author deck = author r
          /\ found_url deck = url r /\ found_created_at deck = created_at r
          /\ found_main_deck deck ≡ₚ stored_cards (id r) false d
          /\ found_extra_deck deck ≡ₚ stored_cards (id r) true d).
Proof.
  intros Hwf. rewrite get_decks_with_card_no_faults.
  pose proof (select_decks_with_card_perm n d Hwf) as Hperm.
  split; [|split].
  - rewrite map_map.
    rewrite (map_ext _ (fun c : deck_columns => c.1.2)) by (by intros [[[[??]?]?]?]).
    as_fmap. rewrite Hperm. by rewrite <- list_fmap_compose.
  - intros i j a b Hi Hj Hij. as_fmap in Hi, Hj.
    rewrite list_lookup_fmap in Hi, Hj.
    destruct (select_decks_with_card scan n d !! i) as [ca|] eqn:Ea; [|done].
    destruct (select_decks_with_card scan n d !! j) as [cb|] eqn:Eb; [|done].
    injection Hi as <-. injection Hj as <-.
    pose proof (StronglySorted_lookup _ _ i j ca cb
                  (order_by_created_desc_sorted _) Ea Eb Hij) as Hle.
    by destruct ca as [[[[??]?]?]?], cb as [[[[??]?]?]?].
  - intros deck Hdeck. as_fmap in Hdeck.
    apply list_elem_of_fmap in Hdeck as (c & -> & Hc).
    rewrite Hperm in Hc. as_fmap in Hc.
    apply list_elem_of_fmap in Hc as (r & -> & Hr).
    apply elem_of_list_filter in Hr as [Hr Hcard].
    exists r. rewrite found_of_columns. cbn.
    repeat (split; [done|]). split; apply select_deck_cards_perm.
Qed.

(** ** From a saved record to the decks of a card *)

Lemma list_filter_andb {A} (f g : A -> bool) (l : list A) :
  List.filter (fun x => f x && g x) l = List.filter g (List.filter f l).
Proof.
  induction l as [|x l IH]; [done|]. cbn [List.filter].
  destruct (f x); cbn [andb List.filter]; [|exact IH]. by rewrite IH.
Qed.

Lemma filter_section_rows (i : Z) (e e' : bool) (cards : list Parser.card) :
  List.filter (fun r => bool_decide (is_extra_deck r = e)) (map (card_row i e') cards)
  = if bool_decide (e' = e) then map (card_row i e') cards else [].
Proof.
  destruct (bool_decide (e' = e)) eqn:E.
  - apply bool_decide_eq_true in E as ->.
    apply forallb_filter_id, forallb_forall. intros r Hr%list_elem_of_In.
    as_fmap in Hr. apply list_elem_of_fmap in Hr as (c & -> & _).
    by apply bool_decide_eq_true_2.
  - apply bool_decide_eq_false in E. apply list_filter_none. intros r Hr.
    as_fmap in Hr. apply list_elem_of_fmap in Hr as (c & -> & _).
    by apply bool_decide_eq_false_2.
Qed.

Lemma cards_of_rows (i : Z) (e : bool) (cards : list Parser.card) :
  map (fun r => Parser.Card (card_name r) (quantity r)) (map (card_row i e) cards) = cards.
Proof. rewrite map_map. apply map_fixed. by intros []. Qed.

(** The two sections of a deck whose association rows are those of a
    record are the sections of the record. *)
Lemma stored_cards_rows_of (i : Z) (deck_info : Parser.deck_info) (d : db) :
  List.filter (fun r => bool_decide (deck_id r = i)) (deck_cards d) = rows_of i deck_info ->
  stored_cards i false d = Parser.main_deck deck_info
  /\ stored_cards i true d = Parser.extra_deck deck_info.
Proof.
  intros Hrows. unfold stored_cards, select_deck_cards, table_order.
  rewrite !list_filter_andb, Hrows. unfold rows_of.
  rewrite !List.filter_app, !filter_section_rows.
  rewrite (bool_decide_eq_true_2 (false = false)) by done.
  rewrite (bool_decide_eq_true_2 (true = true)) by done.
  rewrite (bool_decide_eq_false_2 (true = false)) by done.
  rewrite (bool_decide_eq_false_2 (false = true)) by done.
  by rewrite app_nil_r, app_nil_l, !cards_of_rows.
Qed.

(** A record that was saved is found under the name of each of its
    cards: with its url, name and author, and with the cards of its two
    sections, in some order. *)
Theorem saved_deck_is_found (faults : nat -> option exn) (now : Z)
    (deck_info : Parser.deck_info) (d d' : db) (c : Parser.card) :
  wf d ->
  save_deck_to_db faults now deck_info d = (true, d') ->
  c ∈ all_cards deck_info ->
  exists deck,
    deck ∈ get_decks_with_card scan no_faults (Parser.name c) d'
    /\ found_url deck = Parser.url deck_info
    /\ Parser.deck_name deck_info = Some (found_name deck)
    /\ found_author deck = Parser.author deck_info
    /\ found_main_deck deck ≡ₚ Parser.main_deck deck_info
    /\ found_extra_deck deck ≡ₚ Parser.extra_deck deck_info.
Proof.
  intros Hwf Hsave Hc.
  pose proof (save_deck_to_db_wf faults now deck_info d Hwf) as Hwf'.
  rewrite Hsave in Hwf'. cbn [snd] in Hwf'.
  destruct (saved_row _ _ _ _ _ Hwf Hsave) as (n & i0 & created & Hname & Hrow).
  set (row := DeckRow i0 n (Parser.author deck_info) (Parser.url deck_info) created now)
    in *.
  destruct (save_deck_to_db_rows _ _ _ _ _ Hwf Hsave) as (i & Hsel & Hassoc & _).
  assert (row ∈ decks d' /\ url row = Parser.url deck_info) as [Hin Hurl].
  { assert (Hr : row ∈ List.filter (fun r => bool_decide (url r = Parser.url deck_info))
                                   (decks d')) by (rewrite Hrow; by left).
    apply elem_of_list_filter in Hr as [Hr Hu]. by apply bool_decide_eq_true in Hu. }
  assert (Hid : id row = i).
  { unfold select_deck_id in Hsel. rewrite Hrow in Hsel. by injection Hsel. }
  unfold associations in Hassoc. rewrite Hsel in Hassoc.
  destruct (stored_cards_rows_of i deck_info d' Hassoc) as [Hmain Hextra].
  assert (Hcard : has_card (Parser.name c) d' row = true).
  { unfold has_card. apply existsb_exists.
    assert (exists e, card_row i e c ∈ rows_of i deck_info) as [e He].
    { unfold all_cards in Hc. unfold rows_of. as_fmap.
      apply elem_of_app in Hc as [Hc|Hc]; [exists false|exists true];
        apply elem_of_app; [left|right]; by apply list_elem_of_fmap_2. }
    exists (card_row i e c). rewrite <- Hassoc in He.
    apply elem_of_list_filter in He as [He _].
    split; [by apply list_elem_of_In|].
    cbn [card_row deck_id card_name]. rewrite Hid.
    by rewrite !bool_decide_eq_true_2. }
  exists (found_of scan d' (columns row)).
  rewrite get_decks_with_card_no_faults, found_of_columns.
  cbn [found_url found_name found_author found_main_deck found_extra_deck].
  split.
  - as_fmap.
    change (FoundDeck _ _ _ _ _ _) with (found_of scan d' (columns row)).
    apply list_elem_of_fmap_2.
    rewrite (select_decks_with_card_perm _ _ Hwf'). as_fmap.
    apply list_elem_of_fmap_2. by apply elem_of_list_filter.
  - rewrite !select_deck_cards_perm, Hid, Hmain, Hextra. done.
Qed.

End QueryFacts.

Section QueryScenarios.
Import Py Store Queries.

Lemma table_order_perm (A : Type) (l : list A) : table_order A l ≡ₚ l.
Proof. done. Qed.

Lemma wf_stored_sample : wf stored_sample.
Proof.
  apply (save_deck_to_db_wf no_faults 100 sample_deck empty_db).
  split; simpl; constructor.
Qed.

Lemma get_decks_with_card_decks_witness :
  map found_url (get_decks_with_card table_order no_faults "Branded Fusion" stored_sample)
    ≡ₚ map url (List.filter (has_card "Branded Fusion" stored_sample) (decks stored_sample)).
Proof.
  apply (get_decks_with_card_decks table_order table_order_perm
                                   "Branded Fusion" stored_sample).
  exact wf_stored_sample.
Defined.

Lemma saved_deck_is_found_witness :
  exists deck,
    deck ∈ get_decks_with_card table_order no_faults "Mirrorjade the Iceblade Dragon"
             (save_deck_to_db no_faults 200 sample_deck_later stored_sample).2
    /\ found_url deck = Parser.url sample_deck_later
    /\ Parser.deck_name sample_deck_later = Some (found_name deck)
    /\ found_author deck = Parser.author sample_deck_later
    /\ found_main_deck deck ≡ₚ Parser.main_deck sample_deck_later
    /\ found_extra_deck deck ≡ₚ Parser.extra_deck sample_deck_later.
Proof.
  apply (saved_deck_is_found table_order table_order_perm no_faults 200
           sample_deck_later stored_sample _
           (Parser.Card "Mirrorjade the Iceblade Dragon" 2)).
  - exact wf_stored_sample.
  - reflexivity.
  - apply list_elem_of_In. simpl. auto.
Defined.

End QueryScenarios.

(* ===================================================================== *)
(** * When a record is stored *)
(* ===================================================================== *)

Section StoreSuccess.
Import Py Store.

Lemma prepared_exists (now : Z) (deck_info : Parser.deck_info) (d : db) (n : string) :
  Parser.deck_name deck_info = Some n ->
  exists i d1, prepared now deck_info d i d1.
Proof.
  intros Hn. unfold prepared.
  destruct (select_deck_id (Parser.url deck_info) d) as [existing|] eqn:Hsel.
  - exists existing. eexists. split; [done|]. eexists. split; [|reflexivity].
    unfold update_deck. by rewrite Hn.
  - unfold insert_deck. rewrite Hn.
    destruct (existsb _ (decks d)) eqn:Hex; [|by eexists _, _].
    apply existsb_exists in Hex as (r & Hr%list_elem_of_In & Hu).
    apply select_deck_id_None in Hsel.
    by rewrite (proj1 (list_filter_nil_iff _ _) Hsel r Hr) in Hu.
Qed.

(** When the storage layer does not fail, a record is stored in
    well-formed tables exactly when it has a name, no card name occurs
    twice in its two sections together, and every count fits in 64
    bits: the state of the tables plays no part. *)
Theorem save_deck_to_db_success_iff (faults : nat -> option exn) (now : Z)
    (deck_info : Parser.deck_info) (d : db) :
  wf d ->
  (forall j, (j < storage_calls deck_info d)%nat -> faults j = None) ->
  (save_deck_to_db faults now deck_info d).1 = true
  <-> (exists n, Parser.deck_name deck_info = Some n)
      /\ NoDup (map Parser.name (all_cards deck_info))
      /\ (forall c, c ∈ all_cards deck_info -> - 2 ^ 63 <= Parser.count c < 2 ^ 63).
Proof.
  intros Hwf Hf. split.
  - intros Htrue.
    destruct (save_deck_to_db_cases faults now deck_info d) as [[d' Hd']|Hd];
      [|by rewrite Hd in Htrue].
    apply save_deck_to_db_true in Hd' as (_ & i & d1 & Hprep & (_ & Hnd & Hq) & _).
    split; [by eapply prepared_name|done].
  - intros ([n Hn] & Hnd & Hq).
    destruct (prepared_exists now deck_info d n Hn) as (i & d1 & Hprep).
    unfold save_deck_to_db.
    rewrite (save_body_succeeds faults now deck_info d d1 i Hf Hprep); [done|].
    split; [|done]. intros c r _ Hr [Hi _].
    by apply (prepared_no_rows _ _ _ _ _ Hwf Hprep r Hr).
Qed.

Lemma save_deck_to_db_success_iff_witness :
  (save_deck_to_db no_faults 200 clash_deck stored_sample).1 = true
  <-> (exists n, Parser.deck_name clash_deck = Some n)
      /\ NoDup (map Parser.name (all_cards clash_deck))
      /\ (forall c, c ∈ all_cards clash_deck -> - 2 ^ 63 <= Parser.count c < 2 ^ 63).
Proof.
  apply (save_deck_to_db_success_iff no_faults 200 clash_deck stored_sample).
  - apply (save_deck_to_db_wf no_faults 100 sample_deck empty_db).
    split; simpl; constructor.
  - reflexivity.
Defined.

End StoreSuccess.
